(** * ProgettoCommunity: the query/response layer of the catalogue widget

  Shallow embedding of
  - [src/Code/codice.php]   : category flow ([fetchData], [pickProtagonist],
                              [pickMainStaff], [doSearch]);
  - [src/unnamed/part_000]  : free-text flow with cache and cancellation
                              ([fetchAnilist], [doSearch]);
  - [src/Code/JavaScript.js]: the CSV reader ([reader.onload]).

  JavaScript strings are modelled as [string] (sequences of 8-bit
  characters); case conversion and white space are the ASCII ones. *)

From Stdlib Require Import ZArith Ascii String List Lia Bool.
From Stdlib Require Import Permutation Sorted DecimalString DecimalPos DecimalZ.
From stdpp Require Import base option list strings.

Local Open Scope Z_scope.
Local Open Scope nat_scope.

(** ** JavaScript string primitives used by the three files *)

Module JsString.

(** [String.prototype.toUpperCase] on one ASCII character. *)
Definition upper_char (c : ascii) : ascii :=
  let n := nat_of_ascii c in
  if (97 <=? n) && (n <=? 122) then ascii_of_nat (n - 32) else c.

Fixpoint toUpperCase (s : string) : string :=
  match s with
  | EmptyString => EmptyString
  | String c s' => String (upper_char c) (toUpperCase s')
  end.

(** [s.startsWith(pat)]. *)
Fixpoint startsWith (s pat : string) : bool :=
  match pat, s with
  | EmptyString, _ => true
  | String _ _, EmptyString => false
  | String p pat', String c s' => Ascii.eqb p c && startsWith s' pat'
  end.

(** [s.includes(pat)]: [pat] occurs at some position of [s]. *)
Fixpoint includes (s pat : string) : bool :=
  startsWith s pat ||
  match s with
  | EmptyString => false
  | String _ s' => includes s' pat
  end.

(** A regular expression that is an alternation of literals with the [i]
    flag, as in [/story|original|creator|author/i]: two characters match
    when their canonical (upper case) forms are equal. *)
Fixpoint matches_at_i (s pat : string) : bool :=
  match pat, s with
  | EmptyString, _ => true
  | String _ _, EmptyString => false
  | String p pat', String c s' =>
      Ascii.eqb (upper_char p) (upper_char c) && matches_at_i s' pat'
  end.

(** [re.test(s)]: some alternative matches at some start position. *)
Fixpoint regex_alt_i_test (alts : list string) (s : string) : bool :=
  existsb (matches_at_i s) alts ||
  match s with
  | EmptyString => false
  | String _ s' => regex_alt_i_test alts s'
  end.

(** White space removed by [String.prototype.trim] (ASCII range). *)
Definition is_ws (c : ascii) : bool := Ascii.is_space c.

Fixpoint trimStart (s : string) : string :=
  match s with
  | EmptyString => EmptyString
  | String c s' => if is_ws c then trimStart s' else s
  end.

(** Drops the white space at the end: a character is kept when it is not
    white space or when something is kept after it. *)
Fixpoint trimEnd (s : string) : string :=
  match s with
  | EmptyString => EmptyString
  | String c s' =>
      match trimEnd s' with
      | EmptyString => if is_ws c then EmptyString else String c EmptyString
      | t => String c t
      end
  end.

Definition trim (s : string) : string := trimEnd (trimStart s).

(** [s.split(sep)] for a one-character separator: the pieces between the
    occurrences of [sep]; the empty string gives one empty piece. *)
Fixpoint split (sep : ascii) (s : string) : list string :=
  match s with
  | EmptyString => [EmptyString]
  | String c s' =>
      if Ascii.eqb c sep then EmptyString :: split sep s'
      else match split sep s' with
           | [] => [String c EmptyString]
           | p :: ps => String c p :: ps
           end
  end.

(** [arr.join(sep)]. *)
Fixpoint join (sep : string) (l : list string) : string :=
  match l with
  | [] => EmptyString
  | [x] => x
  | x :: l' => x +:+ sep +:+ join sep l'
  end.

(** Decimal rendering of an integer, as template literals and [+] do. *)
Definition of_Z (z : Z) : string := NilZero.string_of_int (Z.to_int z).

(** What "contains, ignoring case" means: some infix of [s] has the same
    upper-case form as [pat]. *)
Definition contains_ci (s pat : string) : Prop :=
  exists pre mid post,
    s = pre +:+ mid +:+ post /\ toUpperCase mid = toUpperCase pat.

End JsString.

(** ** Candidate selector ([pickProtagonist], [pickMainStaff] of codice.php) *)

Module Selector.

(** *** Data: the edge lists of the API response *)

Record name_t := { full : option string }.
Record image_t := { medium : option string }.
(** [favourites] is [None] when the property is [null] or absent and
    [Some z] when [typeof] gives ['number']. *)
Record node_t := {
  name : option name_t;
  image : option image_t;
  favourites : option Z
}.
Record edge := { role : option string; node : option node_t }.

(** An array element: [null] or an edge object. *)
Definition elem := option edge.

(** Neither function assigns to a property of an edge or of a node, so
    these objects are values. Arrays are mutable ([sort] works in place)
    and live in a store, addressed by their index in it. *)
Definition loc := nat.
Definition store := list (list elem).

(** The [characters] / [staff] object: [edges] is [Some a] when the
    property is an array (at address [a]), [None] otherwise. *)
Record connection := { edges : option loc }.

Record protagonist := { p_name : string; p_image : string }.
Record main_staff := { s_name : string }.

(** *** Computations over the store

    [None] stands for an evaluation that leaves the model: a [TypeError]
    (a property read on [null] or [undefined]), an address that was never
    allocated, or [undefined] stored where the result record has a
    string. The theorems below show that none of these happens. *)
Definition M (A : Type) : Type := store -> option (A * store).

Definition ret {A} (a : A) : M A := fun h => Some (a, h).
Definition bind {A B} (c : M A) (k : A -> M B) : M B :=
  fun h => match c h with
           | Some (a, h') => k a h'
           | None => None
           end.
Definition lift {A} (o : option A) : M A :=
  fun h => match o with Some a => Some (a, h) | None => None end.

Notation "'let*' x ':=' c 'in' k" := (bind c (fun x => k))
  (at level 10, x name, c at level 100, k at level 200).

(** [Array.prototype.filter] with a callback that may throw. *)
Fixpoint filter_cb {A} (p : A -> option bool) (l : list A) : option (list A) :=
  match l with
  | [] => Some []
  | x :: l' =>
      match p x with
      | None => None
      | Some b =>
          match filter_cb p l' with
          | None => None
          | Some r => Some (if b then x :: r else r)
          end
      end
  end.

(** [Array.prototype.find]: the first element the callback accepts;
    later elements are not visited. [None] inside is [undefined]. *)
Fixpoint find_cb {A} (p : A -> option bool) (l : list A) : option (option A) :=
  match l with
  | [] => Some None
  | x :: l' =>
      match p x with
      | None => None
      | Some true => Some (Some x)
      | Some false => find_cb p l'
      end
  end.

(** [Array.prototype.sort(cmp)]: stable (as ECMAScript 2019 requires), [a]
    stays before [b] unless [cmp a b > 0]. Written as an insertion sort:
    the head is inserted into the sorted tail, in front of the first
    element it does not have to follow. *)
Fixpoint insert_cb {A} (cmp : A -> A -> option Z) (x : A) (l : list A)
  : option (list A) :=
  match l with
  | [] => Some [x]
  | y :: l' =>
      match cmp x y with
      | None => None
      | Some c =>
          if (c <=? 0)%Z then Some (x :: y :: l')
          else match insert_cb cmp x l' with
               | None => None
               | Some r => Some (y :: r)
               end
      end
  end.

Fixpoint sort_cb {A} (cmp : A -> A -> option Z) (l : list A) : option (list A) :=
  match l with
  | [] => Some []
  | x :: l' =>
      match sort_cb cmp l' with
      | None => None
      | Some r => insert_cb cmp x r
      end
  end.

(** Array operations on the store. [arr_filter] allocates the result at
    the next free address; [arr_sort] overwrites the array it sorts. *)
Definition arr_filter (p : elem -> option bool) (a : loc) : M loc :=
  fun h => match h !! a with
           | None => None
           | Some l => match filter_cb p l with
                       | None => None
                       | Some r => Some (length h, h ++ [r])
                       end
           end.

Definition arr_sort (cmp : elem -> elem -> option Z) (a : loc) : M unit :=
  fun h => match h !! a with
           | None => None
           | Some l => match sort_cb cmp l with
                       | None => None
                       | Some r => Some (tt, <[a := r]> h)
                       end
           end.

Definition arr_length (a : loc) : M nat :=
  fun h => match h !! a with
           | None => None
           | Some l => Some (length l, h)
           end.

(** [arr[i]]; out of range the value is [undefined]. *)
Definition arr_get (a : loc) (i : nat) : M elem :=
  fun h => match h !! a with
           | None => None
           | Some l => Some (default None (l !! i), h)
           end.

Definition arr_find (p : elem -> option bool) (a : loc) : M elem :=
  fun h => match h !! a with
           | None => None
           | Some l => match find_cb p l with
                       | None => None
                       | Some r => Some (default None r, h)
                       end
           end.

(** *** The callbacks, as written in the source *)

Definition truthy_string (o : option string) : bool :=
  match o with
  | Some (String _ _) => true
  | _ => false
  end.

(** [e => e && e.node] *)
Definition cb_valid (e : elem) : option bool :=
  Some (match e with
        | Some ed => match node ed with Some _ => true | None => false end
        | None => false
        end).

(** [e => e.role && String(e.role).toUpperCase().includes('MAIN')] *)
Definition cb_main (e : elem) : option bool :=
  match e with
  | None => None
  | Some ed =>
      Some (truthy_string (role ed) &&
            match role ed with
            | Some r => JsString.includes (JsString.toUpperCase r) "MAIN"
            | None => false
            end)
  end.

(** [e.node.favourites || 0] *)
Definition fav_or0 (e : elem) : option Z :=
  match e with
  | Some ed =>
      match node ed with
      | Some n => Some (default 0%Z (favourites n))
      | None => None
      end
  | None => None
  end.

(** [(a,b) => (b.node.favourites || 0) - (a.node.favourites || 0)] *)
Definition cmp_fav (a b : elem) : option Z :=
  match fav_or0 b with
  | None => None
  | Some fb => match fav_or0 a with
               | None => None
               | Some fa => Some (fb - fa)%Z
               end
  end.

(** [e => typeof e.node.favourites === 'number'] *)
Definition cb_has_fav (e : elem) : option bool :=
  match e with
  | Some ed =>
      match node ed with
      | Some n => Some (match favourites n with Some _ => true | None => false end)
      | None => None
      end
  | None => None
  end.

(** [e => e.node && e.node.name && e.node.name.full] *)
Definition cb_named (e : elem) : option bool :=
  match e with
  | None => None
  | Some ed =>
      Some (match node ed with
            | Some n => match name n with
                        | Some nm => truthy_string (full nm)
                        | None => false
                        end
            | None => false
            end)
  end.

(** [/story|original|creator|author/i] *)
Definition creator_roles : list string :=
  ["story"; "original"; "creator"; "author"].

(** [e => e.role && /story|original|creator|author/i.test(e.role)] *)
Definition cb_creator (e : elem) : option bool :=
  match e with
  | None => None
  | Some ed =>
      Some (truthy_string (role ed) &&
            match role ed with
            | Some r => JsString.regex_alt_i_test creator_roles r
            | None => false
            end)
  end.

(** [n.name?.full || ''] and [n.image?.medium || ''] *)
Definition name_or_empty (n : node_t) : string :=
  match name n with
  | Some nm => default EmptyString (full nm)
  | None => EmptyString
  end.
Definition image_or_empty (n : node_t) : string :=
  match image n with
  | Some im => default EmptyString (medium im)
  | None => EmptyString
  end.

(** [{ name: e.node.name?.full || '', image: e.node.image?.medium || '' }] *)
Definition protagonist_of (e : elem) : option protagonist :=
  match e with
  | Some ed =>
      match node ed with
      | Some n => Some {| p_name := name_or_empty n; p_image := image_or_empty n |}
      | None => None
      end
  | None => None
  end.

(** [{ name: e.node.name.full, image: e.node.image?.medium || '' }] *)
Definition protagonist_named (e : elem) : option protagonist :=
  match e with
  | Some ed =>
      match node ed with
      | Some n =>
          match name n with
          | Some nm =>
              match full nm with
              | Some s => Some {| p_name := s; p_image := image_or_empty n |}
              | None => None
              end
          | None => None
          end
      | None => None
      end
  | None => None
  end.

(** [{ name: pick.node.name?.full || '' }] *)
Definition staff_of (e : elem) : option main_staff :=
  match e with
  | Some ed =>
      match node ed with
      | Some n => Some {| s_name := name_or_empty n |}
      | None => None
      end
  | None => None
  end.

(** *** [pickProtagonist] (codice.php, lines 121-151) *)
Definition pickProtagonist (characters : option connection)
  : M (option protagonist) :=
  match characters with
  | None => ret None
  | Some c =>
    match edges c with
    | None => ret None
    | Some arr =>
      let* edges := arr_filter cb_valid arr in
      let* n := arr_length edges in
      if n =? 0 then ret None else
      let* mainEdges := arr_filter cb_main edges in
      let* nMain := arr_length mainEdges in
      if nMain =? 1 then
        let* e := arr_get mainEdges 0 in
        let* p := lift (protagonist_of e) in
        ret (Some p)
      else if 1 <? nMain then
        let* _ := arr_sort cmp_fav mainEdges in
        let* e := arr_get mainEdges 0 in
        let* p := lift (protagonist_of e) in
        ret (Some p)
      else
      let* edgesWithFav := arr_filter cb_has_fav edges in
      let* nFav := arr_length edgesWithFav in
      if 0 <? nFav then
        let* _ := arr_sort cmp_fav edgesWithFav in
        let* e := arr_get edgesWithFav 0 in
        let* p := lift (protagonist_of e) in
        ret (Some p)
      else
      let* firstWithName := arr_find cb_named edges in
      match firstWithName with
      | Some _ =>
          let* p := lift (protagonist_named firstWithName) in
          ret (Some p)
      | None => ret None
      end
    end
  end.

(** *** [pickMainStaff] (codice.php, lines 154-167) *)
Definition pickMainStaff (staff : option connection) : M (option main_staff) :=
  match staff with
  | None => ret None
  | Some c =>
    match edges c with
    | None => ret None
    | Some arr =>
      let* edges := arr_filter cb_valid arr in
      let* n := arr_length edges in
      if n =? 0 then ret None else
      let* filtered := arr_filter cb_creator edges in
      let* nc := arr_length filtered in
      let candidates := if nc =? 0 then edges else filtered in
      let* _ := arr_sort cmp_fav candidates in
      let* pick := arr_get candidates 0 in
      let* s := lift (staff_of pick) in
      ret (Some s)
    end
  end.

(** [renderTable]: [pickProtagonist(item.characters) || { name: '', image: '' }]
    and [pickMainStaff(item.staff) || { name: '' }]. *)
Definition protagonist_or_blank (r : option protagonist) : protagonist :=
  default {| p_name := EmptyString; p_image := EmptyString |} r.

(** *** Vocabulary of the selection rules

    Total readings of an element, used to state which edge is selected. *)

Definition node_of (e : elem) : option node_t :=
  match e with Some ed => node ed | None => None end.
Definition role_of (e : elem) : option string :=
  match e with Some ed => role ed | None => None end.

(** The edge has a node attached. *)
Definition validb (e : elem) : bool :=
  match node_of e with Some _ => true | None => false end.

(** The favourite count, a missing one counting as 0. *)
Definition fav0 (e : elem) : Z :=
  match node_of e with Some n => default 0%Z (favourites n) | None => 0%Z end.

(** The favourite count is a number. *)
Definition numericb (e : elem) : bool :=
  match node_of e with
  | Some n => match favourites n with Some _ => true | None => false end
  | None => false
  end.

(** The role contains MAIN, ignoring case. *)
Definition has_main_role (e : elem) : Prop :=
  exists r, role_of e = Some r /\ JsString.contains_ci r "MAIN".
Definition mainb (e : elem) : bool :=
  match role_of e with
  | Some r => JsString.includes (JsString.toUpperCase r) "MAIN"
  | None => false
  end.

(** The role contains one of the creator words, ignoring case. *)
Definition has_creator_role (e : elem) : Prop :=
  exists r w, role_of e = Some r /\ In w creator_roles /\ JsString.contains_ci r w.
Definition creatorb (e : elem) : bool :=
  match role_of e with
  | Some r => JsString.regex_alt_i_test creator_roles r
  | None => false
  end.

(** The node has a non-empty name. *)
Definition namedb (e : elem) : bool :=
  match node_of e with
  | Some n => match name n with
              | Some nm => truthy_string (full nm)
              | None => false
              end
  | None => false
  end.

(** [e] sits at index [i] of [l], no element of [l] has a larger key, and
    every element before index [i] has a strictly smaller one: the highest
    key, the earliest such element winning a tie. *)
Definition first_max_at (key : elem -> Z) (l : list elem) (i : nat) (e : elem) : Prop :=
  l !! i = Some e /\
  (forall j e', l !! j = Some e' -> (key e' <= key e)%Z) /\
  (forall j e', j < i -> l !! j = Some e' -> (key e' < key e)%Z).

(** [e] sits at index [i] of [l], satisfies [q], and no element before
    index [i] does: the first element that satisfies [q]. *)
Definition first_with (q : elem -> bool) (l : list elem) (i : nat) (e : elem) : Prop :=
  l !! i = Some e /\ q e = true /\
  (forall j e', j < i -> l !! j = Some e' -> q e' = false).

End Selector.

(** ** Values shared by the two request flows *)

Module Js.

(** An exception value: [err.name] and [err.message]. *)
Record error := { err_name : string; err_message : string }.

(** [new Error(msg)] *)
Definition Error (msg : string) : error :=
  {| err_name := "Error"; err_message := msg |}.

(** [String(err)], that is [Error.prototype.toString]. *)
Definition error_to_string (e : error) : string :=
  match err_name e, err_message e with
  | EmptyString, m => m
  | n, EmptyString => n
  | n, m => n +:+ ": " +:+ m
  end.

(** An entry of the [errors] list of a GraphQL response; [message] is
    [None] when the property is missing. *)
Record api_error := { message : option string }.

(** [errors.map(e => e.message).join('; ')]: [join] renders a missing
    message as the empty string. *)
Definition join_messages (errs : list api_error) : string :=
  JsString.join "; " (map (fun e => default EmptyString (message e)) errs).

End Js.

(** ** Category flow ([fetchData], [renderTable], [doSearch] of codice.php) *)

Module Catalog.

Inductive category := MANGA | NOVEL | MANHWA | MANHUA.

(** [state]: [currentFormat] is [null] until a category button is clicked. *)
Record state_t := {
  currentFormat : option category;
  page : Z;
  perPage : Z;
  search : string
}.

(** The [variables] object sent with the query; an [option] field that is
    [None] is a property that is absent, except [v_search] where it is the
    value [null]. *)
Record variables := {
  v_page : Z;
  v_perPage : Z;
  v_search : option string;
  v_format_in : list string;
  v_tag_not_in : list string;
  v_genre_not_in : option (list string);
  v_country : option string
}.

Definition DEFAULT_TAG_EXCLUDE : list string :=
  ["Hentai"; "Ecchi"; "Adult"; "Erotica"; "Sexual Content"; "Nudity"].
Definition DEFAULT_GENRE_EXCLUDE : list string := [].

(** Lines 80-90 of [fetchData]: [format_in] and [country]. *)
Definition format_and_country (cf : option category) : list string * option string :=
  match cf with
  | Some NOVEL => (["NOVEL"], None)
  | _ =>
      (["MANGA"],
       match cf with
       | Some MANHWA => Some "KR"
       | Some MANHUA => Some "CN"
       | Some MANGA => Some "JP"
       | _ => None
       end)
  end.

(** Lines 92-101 of [fetchData]: the variables object. *)
Definition build_variables (s : state_t) : variables :=
  let (format_in, country) := format_and_country (currentFormat s) in
  {| v_page := page s;
     v_perPage := perPage s;
     v_search := match search s with EmptyString => None | q => Some q end;
     v_format_in := format_in;
     v_tag_not_in := DEFAULT_TAG_EXCLUDE;
     v_genre_not_in :=
       match DEFAULT_GENRE_EXCLUDE with
       | [] => None
       | _ :: _ => Some DEFAULT_GENRE_EXCLUDE
       end;
     v_country := country |}.

(** The response data. *)
Record page_info := { total : option Z; currentPage : Z; lastPage : Z }.
Record media_item := {
  id : Z;
  format : option string;
  title : option string;
  status : option string;
  chapters : option Z;
  countryOfOrigin : option string;
  coverImage : option string;
  characters : option Selector.connection;
  staff : option Selector.connection
}.
Record page_data := { media : list media_item; pageInfo : option page_info }.

(** What [resp.json()] gives: [errors] is [Some] when the property is
    truthy (an array, possibly empty); [data] is the page at
    [data.data.Page], or the [TypeError] raised on the way to it and to its
    [media] when a link of that path is missing. *)
Record payload := { errors : option (list Js.api_error); data : page_data + Js.error }.

(** How the request ends: [fetch] or [resp.json()] rejects, or a payload
    arrives. This flow does not look at the HTTP status. *)
Inductive response :=
| Rejected (e : Js.error)
| Json (p : payload).

(** The page elements the flow writes to. [tableHolder] is described by
    what it shows. *)
Inductive table_view :=
| Blank
| NoResults
| Rows (items : list media_item).

Record ui_t := {
  statusText : string;
  errorVisible : bool;
  errorText : string;
  tableHolder : table_view;
  pagerVisible : bool;
  pageInfoText : string;
  searchInputValue : string
}.

(** The widget: its state, the page, and the requests sent so far. *)
Record world := { st : state_t; ui : ui_t; requests : list variables }.

Definition with_ui (f : ui_t -> ui_t) (w : world) : world :=
  {| st := st w; ui := f (ui w); requests := requests w |}.

(** [setStatus(t)] *)
Definition setStatus (t : string) : world -> world :=
  with_ui (fun u =>
    {| statusText := t; errorVisible := errorVisible u; errorText := errorText u;
       tableHolder := tableHolder u; pagerVisible := pagerVisible u;
       pageInfoText := pageInfoText u; searchInputValue := searchInputValue u |}).

(** [setError(e)]: shown when [e] is truthy. *)
Definition setError (e : string) : world -> world :=
  with_ui (fun u =>
    {| statusText := statusText u;
       errorVisible := match e with EmptyString => false | _ => true end;
       errorText := e;
       tableHolder := tableHolder u; pagerVisible := pagerVisible u;
       pageInfoText := pageInfoText u; searchInputValue := searchInputValue u |}).

Definition setTable (t : table_view) : world -> world :=
  with_ui (fun u =>
    {| statusText := statusText u; errorVisible := errorVisible u;
       errorText := errorText u; tableHolder := t; pagerVisible := pagerVisible u;
       pageInfoText := pageInfoText u; searchInputValue := searchInputValue u |}).

Definition setPager (visible : bool) (text : string) : world -> world :=
  with_ui (fun u =>
    {| statusText := statusText u; errorVisible := errorVisible u;
       errorText := errorText u; tableHolder := tableHolder u; pagerVisible := visible;
       pageInfoText := text; searchInputValue := searchInputValue u |}).

(** [fetchData], up to the [await fetch(...)]: the variables are built from
    the state and the request is sent. *)
Definition fetchData_send (w : world) : world :=
  let w := setError EmptyString w in
  let w := setStatus "Caricamento..." w in
  let w := setTable Blank w in
  {| st := st w; ui := ui w; requests := requests w ++ [build_variables (st w)] |}.

(** [fetchData], from the response on: the page, or the exception thrown. *)
Definition fetchData_receive (r : response) : page_data + Js.error :=
  match r with
  | Rejected e => inr e
  | Json p =>
      match errors p with
      | Some errs => inr (Js.Error (Js.join_messages errs))
      | None => data p
      end
  end.

(** [renderTable(mediaList, pageInfo)] *)
Definition renderTable (mediaList : list media_item) (pi : option page_info)
  : world -> world :=
  fun w =>
  match mediaList with
  | [] =>
      let w := setTable NoResults w in
      let w := setPager false (pageInfoText (ui w)) w in
      setStatus "Nessun risultato trovati." w
  | _ :: _ =>
      let w := setTable (Rows mediaList) w in
      let w :=
        match pi with
        | Some {| total := Some t; currentPage := c; lastPage := l |} =>
            setPager true
              ("Pagina " +:+ JsString.of_Z c +:+ " di " +:+ JsString.of_Z l +:+
               " â€” totale risultati: " +:+ JsString.of_Z t) w
        | _ => setPager false (pageInfoText (ui w)) w
        end in
      setStatus ("Mostrati " +:+ JsString.of_Z (Z.of_nat (length mediaList)) +:+
                 " risultati.") w
  end.

(** [doSearch(page)] runs in two steps, before and after the [await]. *)
Inductive progress :=
| Returned (w : world)
| Awaiting (w : world).

(** [doSearch], up to the [await]: without a category it shows the
    message and returns. *)
Definition doSearch_start (pg : Z) (w : world) : progress :=
  match currentFormat (st w) with
  | None => Returned (setError "Seleziona una sottocategoria." w)
  | Some _ =>
      let s := st w in
      let s := {| currentFormat := currentFormat s; page := pg;
                  perPage := perPage s;
                  search := JsString.trim (searchInputValue (ui w)) |} in
      Awaiting (fetchData_send {| st := s; ui := ui w; requests := requests w |})
  end.

(** [doSearch], from the response on: the table, or the [catch] block with
    [setError(err.message || String(err))]. *)
Definition doSearch_finish (r : response) (w : world) : world :=
  match fetchData_receive r with
  | inl pg => renderTable (media pg) (pageInfo pg) w
  | inr err =>
      let shown := match Js.err_message err with
                   | EmptyString => Js.error_to_string err
                   | m => m
                   end in
      setStatus "Errore durante il caricamento." (setError shown w)
  end.

(** The table of the specification: the format filter and the country of
    each category. *)
Definition mapping_table (c : category) : list string * option string :=
  match c with
  | NOVEL => (["NOVEL"], None)
  | MANGA => (["MANGA"], Some "JP")
  | MANHWA => (["MANGA"], Some "KR")
  | MANHUA => (["MANGA"], Some "CN")
  end.

(** A page as the HTML leaves it, before any search. *)
Definition init (searchText : string) : world :=
  {| st := {| currentFormat := None; page := 1; perPage := 20; search := EmptyString |};
     ui := {| statusText := "Pronto. Seleziona una sottocategoria per caricare i risultati.";
              errorVisible := false; errorText := EmptyString; tableHolder := Blank;
              pagerVisible := false; pageInfoText := EmptyString;
              searchInputValue := searchText |};
     requests := [] |}.

(** A click on a category button, up to the call of [doSearch(1)]. *)
Definition select_category (c : category) (w : world) : world :=
  {| st := {| currentFormat := Some c; page := 1; perPage := perPage (st w);
              search := search (st w) |};
     ui := ui w; requests := requests w |}.

End Catalog.

(** ** Free-text flow with cache and cancellation
       ([fetchAnilist], [renderTable], [renderPager], [doSearch] of part_000) *)

Module Coordinator.

Record page_info := {
  total : Z;
  currentPage : Z;
  lastPage : Z;
  hasNextPage : bool;
  perPage : Z
}.
Record media_item := {
  id : Z;
  title : option string;
  episodes : option Z;
  siteUrl : option string
}.
Record page_data := { pageInfo : page_info; media : list media_item }.

(** What is found at [payload.data.Page]: a well-formed page; an object
    whose [media] is missing or whose [pageInfo] is [null], so that
    [lastPageInfo] is assigned and the status line then raises a
    [TypeError]; or nothing, a [TypeError] being raised on the way. *)
Inductive page_result :=
| PageOk (p : page_data)
| PageBroken (pi : option page_info) (e : Js.error)
| PageMissing (e : Js.error).

(** What [res.json()] gives: [errors] is [Some] when the property is truthy. *)
Record payload := { errors : option (list Js.api_error); data : page_result }.

(** How the transport ends when the request is not cancelled: a promise of
    the chain rejects, the HTTP status is not 2xx ([res.ok] false, with the
    body text and the status text), or a payload arrives. *)
Inductive response :=
| Rejected (e : Js.error)
| HttpError (status : Z) (text statusText : string)
| Json (p : payload).

(** *** The cache: a [Map], kept in insertion order *)

Definition cache_t := list (string * page_data).

Definition map_has (k : string) (m : cache_t) : bool :=
  existsb (fun kv => String.eqb (fst kv) k) m.

Definition map_get (k : string) (m : cache_t) : option page_data :=
  match List.find (fun kv => String.eqb (fst kv) k) m with
  | Some kv => Some (snd kv)
  | None => None
  end.

(** [m.set(k, v)]: a present key keeps its place, a new key goes last. *)
Fixpoint map_set (k : string) (v : page_data) (m : cache_t) : cache_t :=
  match m with
  | [] => [(k, v)]
  | (k', v') :: m' =>
      if String.eqb k' k then (k, v) :: m' else (k', v') :: map_set k v m'
  end.

Fixpoint map_delete (k : string) (m : cache_t) : cache_t :=
  match m with
  | [] => []
  | (k', v') :: m' =>
      if String.eqb k' k then m' else (k', v') :: map_delete k m'
  end.

(** [m.keys().next().value] *)
Definition map_first_key (m : cache_t) : option string :=
  match m with
  | [] => None
  | (k, _) :: _ => Some k
  end.

(** *** The widget *)

Inductive table_view :=
| Cleared
| NoResults
| Rows (items : list media_item).

Record pager_t := {
  pagerVisible : bool;
  pageInfoText : string;
  prevDisabled : bool;
  nextDisabled : bool
}.

(** The page elements. [perPageParsed] is [parseInt(perPageSelect.value, 10)],
    [None] for [NaN]. *)
Record ui_t := {
  statusText : string;
  errorVisible : bool;
  errorText : string;
  searchBtnDisabled : bool;
  tableHolder : table_view;
  pager : pager_t;
  searchInputValue : string;
  perPageParsed : option Z
}.

(** The module variables. An [AbortController] is known by its number. *)
Record vars_t := {
  v_currentPage : Z;
  lastQuery : string;
  lastPageInfo : option page_info;
  abortController : option nat;
  cache : cache_t
}.

(** A request handed to [fetch]: the variables and the controller whose
    signal it carries. *)
Record request := {
  rq_search : string;
  rq_page : Z;
  rq_perPage : Z;
  rq_signal : nat
}.

(** The transport: how many controllers exist, which of them have been
    aborted, and the requests sent so far. *)
Record net_t := {
  controllers : nat;
  aborted : list nat;
  requests : list request
}.

Record world := { vars : vars_t; ui : ui_t; net : net_t }.

Definition with_ui (f : ui_t -> ui_t) (w : world) : world :=
  {| vars := vars w; ui := f (ui w); net := net w |}.
Definition with_vars (f : vars_t -> vars_t) (w : world) : world :=
  {| vars := f (vars w); ui := ui w; net := net w |}.
Definition with_net (f : net_t -> net_t) (w : world) : world :=
  {| vars := vars w; ui := ui w; net := f (net w) |}.

Definition setStatus (t : string) : world -> world :=
  with_ui (fun u =>
    {| statusText := t; errorVisible := errorVisible u; errorText := errorText u;
       searchBtnDisabled := searchBtnDisabled u; tableHolder := tableHolder u;
       pager := pager u; searchInputValue := searchInputValue u;
       perPageParsed := perPageParsed u |}).

Definition setErrorBox (visible : bool) (t : string) : world -> world :=
  with_ui (fun u =>
    {| statusText := statusText u; errorVisible := visible; errorText := t;
       searchBtnDisabled := searchBtnDisabled u; tableHolder := tableHolder u;
       pager := pager u; searchInputValue := searchInputValue u;
       perPageParsed := perPageParsed u |}).

Definition setSearchBtnDisabled (b : bool) : world -> world :=
  with_ui (fun u =>
    {| statusText := statusText u; errorVisible := errorVisible u;
       errorText := errorText u; searchBtnDisabled := b;
       tableHolder := tableHolder u; pager := pager u;
       searchInputValue := searchInputValue u; perPageParsed := perPageParsed u |}).

Definition setTable (t : table_view) : world -> world :=
  with_ui (fun u =>
    {| statusText := statusText u; errorVisible := errorVisible u;
       errorText := errorText u; searchBtnDisabled := searchBtnDisabled u;
       tableHolder := t; pager := pager u;
       searchInputValue := searchInputValue u; perPageParsed := perPageParsed u |}).

Definition setPager (p : pager_t) : world -> world :=
  with_ui (fun u =>
    {| statusText := statusText u; errorVisible := errorVisible u;
       errorText := errorText u; searchBtnDisabled := searchBtnDisabled u;
       tableHolder := tableHolder u; pager := p;
       searchInputValue := searchInputValue u; perPageParsed := perPageParsed u |}).

Definition hidePager : world -> world :=
  fun w => setPager {| pagerVisible := false;
                       pageInfoText := pageInfoText (pager (ui w));
                       prevDisabled := prevDisabled (pager (ui w));
                       nextDisabled := nextDisabled (pager (ui w)) |} w.

Definition setLastPageInfo (pi : option page_info) : world -> world :=
  with_vars (fun v =>
    {| v_currentPage := v_currentPage v; lastQuery := lastQuery v;
       lastPageInfo := pi; abortController := abortController v;
       cache := cache v |}).

Definition setCache (m : cache_t) : world -> world :=
  with_vars (fun v =>
    {| v_currentPage := v_currentPage v; lastQuery := lastQuery v;
       lastPageInfo := lastPageInfo v; abortController := abortController v;
       cache := m |}).

Definition setQuery (pg : Z) (q : string) : world -> world :=
  with_vars (fun v =>
    {| v_currentPage := pg; lastQuery := q;
       lastPageInfo := lastPageInfo v; abortController := abortController v;
       cache := cache v |}).

(** [showError(msg)] and [clearError()] *)
Definition showError (msg : string) : world -> world := setErrorBox true msg.
Definition clearError : world -> world := setErrorBox false EmptyString.

(** `${search}|${page}|${perPage}` *)
Definition cacheKey (search : string) (pg perPg : Z) : string :=
  search +:+ "|" +:+ JsString.of_Z pg +:+ "|" +:+ JsString.of_Z perPg.

(** [if (abortController) abortController.abort();
     abortController = new AbortController();] *)
Definition new_controller (w : world) : nat * world :=
  let c := controllers (net w) in
  let stale := match abortController (vars w) with
               | Some old => [old]
               | None => []
               end in
  let w := with_net (fun n =>
             {| controllers := S c; aborted := aborted n ++ stale;
                requests := requests n |}) w in
  (c, with_vars (fun v =>
        {| v_currentPage := v_currentPage v; lastQuery := lastQuery v;
           lastPageInfo := lastPageInfo v; abortController := Some c;
           cache := cache v |}) w).

(** [fetch(ENDPOINT, { ..., signal })] *)
Definition send (rq : request) : world -> world :=
  with_net (fun n =>
    {| controllers := controllers n; aborted := aborted n;
       requests := requests n ++ [rq] |}).

(** The exception of a cancelled request. Only its name is looked at; the
    message is the browser's. *)
Definition AbortError : Js.error :=
  {| Js.err_name := "AbortError"; Js.err_message := "signal is aborted without reason" |}.

(** How the awaited chain of a request ends: when the signal of its
    controller has been aborted it rejects with [AbortError], whatever the
    server did. *)
Definition transport (ctl : nat) (r : response) (w : world) : response :=
  if existsb (Nat.eqb ctl) (aborted (net w)) then Rejected AbortError else r.

(** [fetchAnilist] runs in two steps, before and after its [await]s. *)
Inductive started :=
| Hit (cached : page_data) (w : world)
| Pending (ctl : nat) (key : string) (w : world).

(** [fetchAnilist(search, page, perPage)], lines 89-115: a cached page
    ([cache.has(cacheKey)], then [cache.get(cacheKey)]) is returned at
    once; otherwise the previous controller is aborted and the
    request is sent with a new one. *)
Definition fetchAnilist_start (search : string) (pg perPg : Z) (w : world) : started :=
  let w := clearError w in
  let w := setStatus "Caricamento…" w in
  let w := setSearchBtnDisabled true w in
  let key := cacheKey search pg perPg in
  match map_get key (cache (vars w)) with
  | Some cached =>
      let pi := pageInfo cached in
      let w := setLastPageInfo (Some pi) w in
      let w := setStatus
        ("Dati dalla cache — pagina " +:+ JsString.of_Z (currentPage pi) +:+ "/" +:+
         JsString.of_Z (lastPage pi) +:+ " — " +:+
         JsString.of_Z (Z.of_nat (length (media cached))) +:+
         " risultati mostrati (tot " +:+ JsString.of_Z (total pi) +:+ ")") w in
      Hit cached (setSearchBtnDisabled false w)
  | None =>
      let (ctl, w) := new_controller w in
      let w := send {| rq_search := search; rq_page := pg; rq_perPage := perPg;
                       rq_signal := ctl |} w in
      Pending ctl key w
  end.

(** The [try] block from the response on: the page to return, or the
    exception, with the state reached. *)
Definition fetchAnilist_try (key : string) (r : response) (w : world)
  : (page_data + Js.error) * world :=
  match r with
  | Rejected e => (inr e, w)
  | HttpError status text statusText =>
      (inr (Js.Error ("HTTP " +:+ JsString.of_Z status +:+ " — " +:+
                      match text with EmptyString => statusText | t => t end)), w)
  | Json p =>
      match errors p with
      | Some errs => (inr (Js.Error (Js.join_messages errs)), w)
      | None =>
          match data p with
          | PageMissing e => (inr e, w)
          | PageBroken pi e => (inr e, setLastPageInfo pi w)
          | PageOk pageData =>
              let pi := pageInfo pageData in
              let w := setLastPageInfo (Some pi) w in
              let w := setStatus
                ("Mostrati " +:+ JsString.of_Z (Z.of_nat (length (media pageData))) +:+
                 " di " +:+ JsString.of_Z (total pi) +:+ " risultati (pagina " +:+
                 JsString.of_Z (currentPage pi) +:+ "/" +:+
                 JsString.of_Z (lastPage pi) +:+ ")") w in
              let w := setCache (map_set key pageData (cache (vars w))) w in
              let w :=
                if 50 <? length (cache (vars w)) then
                  match map_first_key (cache (vars w)) with
                  | Some firstKey => setCache (map_delete firstKey (cache (vars w))) w
                  | None => w
                  end
                else w in
              (inl pageData, w)
          end
      end
  end.

(** [fetchAnilist], lines 116-151, for the request sent with controller
    [ctl] under [key]: [try], [catch] and [finally]. The result is [None]
    for [null]. *)
Definition fetchAnilist_settle (ctl : nat) (key : string) (r : response) (w : world)
  : option page_data * world :=
  let (result, w) :=
    match fetchAnilist_try key (transport ctl r w) w with
    | (inl pageData, w) => (Some pageData, w)
    | (inr err, w) =>
        if String.eqb (Js.err_name err) "AbortError" then
          (None, setStatus "Richiesta annullata." w)
        else
          let w := showError ("Errore: " +:+ Js.err_message err) w in
          (None, setStatus "Errore durante il caricamento." w)
    end in
  (result, setSearchBtnDisabled false w).

(** [clearTable()] *)
Definition clearTable (w : world) : world := hidePager (setTable Cleared w).

(** [renderTable(mediaArray)] *)
Definition renderTable (mediaArray : list media_item) (w : world) : world :=
  let w := clearTable w in
  match mediaArray with
  | [] => setTable NoResults w
  | _ :: _ => setTable (Rows mediaArray) w
  end.

(** [renderPager()] *)
Definition renderPager (w : world) : world :=
  match lastPageInfo (vars w) with
  | None => hidePager w
  | Some pi =>
      if (lastPage pi <=? 1)%Z then hidePager w
      else
        setPager
          {| pagerVisible := true;
             pageInfoText :=
               "Pagina " +:+ JsString.of_Z (currentPage pi) +:+ " di " +:+
               JsString.of_Z (lastPage pi) +:+ " — Totale risultati: " +:+
               JsString.of_Z (total pi);
             prevDisabled := (currentPage pi =? 0)%Z || (currentPage pi <=? 1)%Z;
             nextDisabled := negb (hasNextPage pi) |} w
  end.

(** [doSearch(page)] runs in two steps as well. *)
Inductive progress :=
| Returned (w : world)
| Awaiting (ctl : nat) (key : string) (w : world).

(** What [doSearch] does with the value of [fetchAnilist]. *)
Definition doSearch_show (result : option page_data) (w : world) : world :=
  match result with
  | None => w
  | Some pageData => renderPager (renderTable (media pageData) w)
  end.

(** [doSearch(page)], up to the [await]s of a request that is sent: an
    empty search text stops it with a message; a cached page is shown at
    once. *)
Definition doSearch_start (pg : Z) (w : world) : progress :=
  match JsString.trim (searchInputValue (ui w)) with
  | EmptyString => Returned (setStatus "Inserisci un termine di ricerca." w)
  | q =>
      let perPg := match perPageParsed (ui w) with
                   | Some 0%Z | None => 20%Z
                   | Some n => n
                   end in
      let w := setQuery pg q w in
      match fetchAnilist_start q pg perPg w with
      | Hit cached w => Returned (doSearch_show (Some cached) w)
      | Pending ctl key w => Awaiting ctl key w
      end
  end.

(** [doSearch], from the response on. *)
Definition doSearch_finish (ctl : nat) (key : string) (r : response) (w : world)
  : world :=
  let (result, w) := fetchAnilist_settle ctl key r w in
  doSearch_show result w.

(** A request that nothing interrupts: [fetchAnilist] from call to return,
    the transport answering [r] when it is asked. *)
Definition resolve (search : string) (pg perPg : Z) (r : response) (w : world)
  : option page_data * world :=
  match fetchAnilist_start search pg perPg w with
  | Hit cached w => (Some cached, w)
  | Pending ctl key w => fetchAnilist_settle ctl key r w
  end.

(** The widget after [init()], with the given content of the two inputs. *)
Definition init (searchText : string) (perPg : option Z) : world :=
  {| vars := {| v_currentPage := 1; lastQuery := EmptyString; lastPageInfo := None;
                abortController := None; cache := [] |};
     ui := {| statusText := "Pronto. Inserisci un termine e premi Cerca (o digita).";
              errorVisible := false; errorText := EmptyString;
              searchBtnDisabled := false; tableHolder := Cleared;
              pager := {| pagerVisible := false; pageInfoText := EmptyString;
                          prevDisabled := false; nextDisabled := false |};
              searchInputValue := searchText; perPageParsed := perPg |};
     net := {| controllers := 0; aborted := []; requests := [] |} |}.

(** The state in which the first step of [fetchAnilist] leaves the widget. *)
Definition world_of (s : started) : world :=
  match s with
  | Hit _ w => w
  | Pending _ _ w => w
  end.

(** A call of [fetchAnilist] together with the answer of the transport. *)
Record call := {
  c_search : string;
  c_page : Z;
  c_perPage : Z;
  c_response : response
}.

Definition call_key (c : call) : string :=
  cacheKey (c_search c) (c_page c) (c_perPage c).

(** Calls made one after the other, each returning before the next. *)
Fixpoint run (cs : list call) (w : world) : world :=
  match cs with
  | [] => w
  | c :: cs' =>
      run cs' (snd (resolve (c_search c) (c_page c) (c_perPage c) (c_response c) w))
  end.

(** A response that carries a page. *)
Definition ok (p : page_data) : response :=
  Json {| errors := None; data := PageOk p |}.

Definition keys (m : cache_t) : list string := map fst m.

(** Controllers are numbered in the order of their creation: the ones
    aborted and the current one exist already. Every world reached from
    [init] satisfies this. *)
Definition wf (w : world) : Prop :=
  (forall c, In c (aborted (net w)) -> c < controllers (net w)) /\
  (forall c, abortController (vars w) = Some c -> c < controllers (net w)).

(** The spec's cache, on keys: first in, first out, at most [cap] entries.
    A key that is present is left where it is; a new key goes last and,
    when the size exceeds [cap], the oldest key is removed. *)
Definition fifo_insert (cap : nat) (q : list string) (k : string) : list string :=
  if existsb (String.eqb k) q then q
  else let q' := q ++ [k] in
       if cap <? length q' then tl q' else q'.

End Coordinator.

(** ** The CSV reader ([reader.onload] of JavaScript.js) *)

Module Csv.

Inductive cell_tag := Th | Td.

(** A [th] or [td] element with its [textContent]. *)
Record cell := { tag : cell_tag; textContent : string }.

(** The [table] element: its [tr] children, each with its cells. *)
Abbreviation table := (list (list cell)).

Definition newline : ascii := "010"%char.
Definition comma : ascii := ","%char.

(** [text.trim().split("\n").map(r => r.split(","))] *)
Definition rows_of (text : string) : list (list string) :=
  map (JsString.split comma) (JsString.split newline (JsString.trim text)).

(** [row.forEach(cell => { ...; tr.appendChild(td) })] *)
Definition render_row (rowIndex : nat) (row : list string) : list cell :=
  fold_left
    (fun tr c =>
       tr ++ [{| tag := if rowIndex =? 0 then Th else Td;
                 textContent := JsString.trim c |}])
    row [].

(** [rows.forEach((row, rowIndex) => { ...; table.appendChild(tr) })],
    with the index [forEach] passes and the table built so far. *)
Fixpoint render_rows (rows : list (list string)) (rowIndex : nat) (t : table) : table :=
  match rows with
  | [] => t
  | row :: rows' => render_rows rows' (S rowIndex) (t ++ [render_row rowIndex row])
  end.

(** [reader.onload]: the table is emptied, then filled from the text. *)
Definition onload (text : string) (t : table) : table :=
  render_rows (rows_of text) 0 [].

(** The grid the text stands for, header row first: row [i] of the split
    text, each cell trimmed. *)
Definition grid_view (rows : list (list string)) : table :=
  imap (fun i row =>
          map (fun c => {| tag := if i =? 0 then Th else Td;
                           textContent := JsString.trim c |}) row)
       rows.

End Csv.

(** ** Sample inputs *)

Module Samples.
Import Selector.

(** Three edges without role, favourite counts 300, 700 and 200. *)
Definition edge_fav (nm : string) (f : Z) : elem :=
  Some {| role := None;
          node := Some {| name := Some {| full := Some nm |};
                          image := None;
                          favourites := Some f |} |}.
Definition edges_300_700_200 : list elem :=
  [edge_fav "first" 300; edge_fav "second" 700; edge_fav "third" 200].

(** A staff list: one edge that is no creator, one creator without count,
    a [null] element, and two creators with the same count. *)
Definition staff_edge (ro : string) (nm : string) (f : option Z) : elem :=
  Some {| role := Some ro;
          node := Some {| name := Some {| full := Some nm |};
                          image := None;
                          favourites := f |} |}.
Definition staff_sample : list elem :=
  [staff_edge "Art" "painter" (Some 500%Z);
   staff_edge "Story & Art" "writer" None;
   None;
   staff_edge "Original CREATOR" "creator" (Some 20%Z);
   staff_edge "Author" "second author" (Some 20%Z)].

(** A page of one result. *)
Definition sample_page : Coordinator.page_data :=
  {| Coordinator.pageInfo :=
       {| Coordinator.total := 1; Coordinator.currentPage := 1;
          Coordinator.lastPage := 1; Coordinator.hasNextPage := false;
          Coordinator.perPage := 20 |};
     Coordinator.media :=
       [{| Coordinator.id := 20; Coordinator.title := Some "Naruto";
           Coordinator.episodes := Some 220%Z; Coordinator.siteUrl := None |}] |}.

(** Pages 1 to 51 of one search, each answered with a page. *)
Definition calls_51 : list Coordinator.call :=
  map (fun i => {| Coordinator.c_search := "naruto";
                   Coordinator.c_page := Z.of_nat i;
                   Coordinator.c_perPage := 20;
                   Coordinator.c_response := Coordinator.ok sample_page |})
      (seq 1 51).

(** The response [{errors:[{message:"bad"},{message:"worse"}]}]. *)
Definition bad_worse : list Js.api_error :=
  [{| Js.message := Some "bad" |}; {| Js.message := Some "worse" |}].
Definition data_null : Js.error :=
  {| Js.err_name := "TypeError";
     Js.err_message := "Cannot read properties of null (reading 'Page')" |}.
Definition bad_worse_response : Coordinator.response :=
  Coordinator.Json {| Coordinator.errors := Some bad_worse;
                      Coordinator.data := Coordinator.PageMissing data_null |}.

(** The same error list sent with status 400: the body as text (written
    with single quotes), and the status text. *)
Definition bad_worse_status_400 : Coordinator.response :=
  Coordinator.HttpError 400 "{'errors':[{'message':'bad'},{'message':'worse'}]}"
                        "Bad Request".

(** Two searches in a row: "one" is sent, then "two" is sent while "one" is
    still pending. *)
Definition one_pending : Coordinator.world :=
  Coordinator.world_of
    (Coordinator.fetchAnilist_start "one" 1 20 (Coordinator.init "one" None)).
Definition two_pending : Coordinator.world :=
  Coordinator.world_of (Coordinator.fetchAnilist_start "two" 1 20 one_pending).

(** Pages 1 to 50, page 1 again (a cache hit), then page 51. *)
Definition calls_with_hit : list Coordinator.call :=
  firstn 50 calls_51 ++ firstn 1 calls_51 ++ skipn 50 calls_51.

End Samples.

(** ** [escapeHtml] (part_000, lines 67-75) *)

Module Html.

(** [s.replaceAll(c, rep)] for a pattern of one character: every
    occurrence, from left to right; the replacement is not searched again. *)
Fixpoint replaceAll (c : ascii) (rep : string) (s : string) : string :=
  match s with
  | EmptyString => EmptyString
  | String a s' =>
      if Ascii.eqb a c then rep +:+ replaceAll c rep s'
      else String a (replaceAll c rep s')
  end.

Definition amp : ascii := "&"%char.
Definition lt : ascii := "<"%char.
Definition gt : ascii := ">"%char.
Definition dquote : ascii := "034"%char.
Definition squote : ascii := "'"%char.

(** [escapeHtml(unsafe)]; [None] is [null] or [undefined]. The five
    replacements run one after the other, the ampersand first. *)
Definition escapeHtml (unsafe : option string) : string :=
  match unsafe with
  | None => EmptyString
  | Some s =>
      replaceAll squote "&#039;"
        (replaceAll dquote "&quot;"
           (replaceAll gt "&gt;"
              (replaceAll lt "&lt;"
                 (replaceAll amp "&amp;" s))))
  end.

(** The entity written for one character. *)
Definition entity (c : ascii) : string :=
  if Ascii.eqb c amp then "&amp;"
  else if Ascii.eqb c lt then "&lt;"
  else if Ascii.eqb c gt then "&gt;"
  else if Ascii.eqb c dquote then "&quot;"
  else if Ascii.eqb c squote then "&#039;"
  else String c EmptyString.

(** One pass that writes the entity of each character. *)
Fixpoint escape_each (s : string) : string :=
  match s with
  | EmptyString => EmptyString
  | String c s' => entity c +:+ escape_each s'
  end.

(** The character is one of the five that are escaped. *)
Definition special (c : ascii) : bool :=
  Ascii.eqb c amp || Ascii.eqb c lt || Ascii.eqb c gt ||
  Ascii.eqb c dquote || Ascii.eqb c squote.

End Html.

(** ** The separator of the cache key *)

Definition bar : ascii := "|"%char.

(** ** [debounce] (part_000, lines 58-64) *)

Module Debounce.

Section Debounced.

(** The arguments the debounced function is called with. *)
Context {A : Type}.

(** A timer set by [setTimeout]: its id, the time from which it may run,
    and the arguments [fn] will be applied to. *)
Record timer := { tm_id : nat; tm_due : Z; tm_args : A }.

(** The variable [t] of the closure ([None] is [null]), the id the next
    [setTimeout] returns, and the timers of the closure that are set. *)
Record state := { t : option nat; next_id : nat; timers : list timer }.

Definition init (first_id : nat) : state :=
  {| t := None; next_id := first_id; timers := [] |}.

(** [clearTimeout(id)]: nothing happens for [null] or for a timer that has
    run already. *)
Definition clearTimeout (id : option nat) (l : list timer) : list timer :=
  match id with
  | None => l
  | Some i => List.filter (fun x => negb (tm_id x =? i)) l
  end.

(** The function that [debounce(fn, wait)] returns, called at time [now]:
    [clearTimeout(t); t = setTimeout(() => fn.apply(null, args), wait)]. *)
Definition debounced (wait : Z) (now : Z) (args : A) (s : state) : state :=
  {| t := Some (next_id s);
     next_id := S (next_id s);
     timers := clearTimeout (t s) (timers s) ++
               [{| tm_id := next_id s; tm_due := (now + wait)%Z; tm_args := args |}] |}.

(** The event loop at time [now]: the timers that are due run and are
    gone. The result lists the arguments of the calls of [fn]. *)
Definition run_due (now : Z) (s : state) : list A * state :=
  (map tm_args (List.filter (fun x => (tm_due x <=? now)%Z) (timers s)),
   {| t := t s; next_id := next_id s;
      timers := List.filter (fun x => negb (tm_due x <=? now)%Z) (timers s) |}).

(** What happens to the closure: a call, or a turn of the event loop. *)
Inductive event :=
| Call (now : Z) (args : A)
| Loop (now : Z).

(** A history of events; the calls of [fn] made so far are collected. *)
Fixpoint run (wait : Z) (es : list event) (calls : list A) (s : state)
  : list A * state :=
  match es with
  | [] => (calls, s)
  | Call now args :: es' => run wait es' calls (debounced wait now args s)
  | Loop now :: es' =>
      let (fired, s') := run_due now s in
      run wait es' (calls ++ fired) s'
  end.

(** At most one timer is set, and it is the one [t] names. *)
Definition one_timer (s : state) : Prop :=
  timers s = [] \/
  exists tm, timers s = [tm] /\ t s = Some (tm_id tm).

End Debounced.

Arguments timer : clear implicits.
Arguments state : clear implicits.
Arguments event : clear implicits.
Arguments one_timer {A} s.

End Debounce.

(** ** The free-text widget under user events ([init] of part_000,
       lines 301-318) *)

Module Widget.
Import Coordinator.

(** The user edits the search input. *)
Definition setSearchInput (s : string) : world -> world :=
  with_ui (fun u =>
    {| statusText := statusText u; errorVisible := errorVisible u;
       errorText := errorText u; searchBtnDisabled := searchBtnDisabled u;
       tableHolder := tableHolder u; pager := pager u;
       searchInputValue := s; perPageParsed := perPageParsed u |}).

(** The user picks a page size. *)
Definition setPerPage (n : option Z) : world -> world :=
  with_ui (fun u =>
    {| statusText := statusText u; errorVisible := errorVisible u;
       errorText := errorText u; searchBtnDisabled := searchBtnDisabled u;
       tableHolder := tableHolder u; pager := pager u;
       searchInputValue := searchInputValue u; perPageParsed := n |}).

Definition progress_world (p : progress) : world :=
  match p with
  | Returned w => w
  | Awaiting _ _ w => w
  end.

(** What can happen to the page. [Search] is [doSearch(1)], called by the
    button, by the Enter key and by the debounced input handler;
    [Answer i r] is the end of the request sent as number [i], the
    transport answering [r]. *)
Inductive event :=
| TypeText (s : string)
| Search
| ChoosePerPage (n : option Z)
| Prev
| Next
| Answer (i : nat) (r : response).

(** The page, and the requests that have ended already. *)
Record sim := { page : world; answered : list nat }.

Definition request_key (rq : request) : string :=
  cacheKey (rq_search rq) (rq_page rq) (rq_perPage rq).

(** The handlers registered by [init]. A request ends once. *)
Definition handle (e : event) (s : sim) : sim :=
  let w := page s in
  match e with
  | TypeText t => {| page := setSearchInput t w; answered := answered s |}
  | Search => {| page := progress_world (doSearch_start 1 w); answered := answered s |}
  | ChoosePerPage n =>
      {| page := progress_world (doSearch_start 1 (setPerPage n w));
         answered := answered s |}
  | Prev =>
      if (1 <? v_currentPage (vars w))%Z then
        {| page := progress_world (doSearch_start (v_currentPage (vars w) - 1) w);
           answered := answered s |}
      else s
  | Next =>
      match lastPageInfo (vars w) with
      | Some pi =>
          if hasNextPage pi then
            {| page := progress_world (doSearch_start (v_currentPage (vars w) + 1) w);
               answered := answered s |}
          else s
      | None => s
      end
  | Answer i r =>
      if existsb (Nat.eqb i) (answered s) then s
      else match requests (net w) !! i with
           | Some rq =>
               {| page := doSearch_finish (rq_signal rq) (request_key rq) r w;
                  answered := i :: answered s |}
           | None => s
           end
  end.

(** The page after a history of events, from the page [init] leaves. *)
Definition after (es : list event) (searchText : string) (perPg : option Z) : sim :=
  fold_left (fun s e => handle e s) es
            {| page := init searchText perPg; answered := [] |}.

(** Requests and controllers are numbered alike: request [i] carries the
    signal of controller [i]; the current controller is the one of the
    last request, and all earlier ones have been aborted. *)
Definition numbered (s : sim) : Prop :=
  let w := page s in
  let n := length (requests (net w)) in
  controllers (net w) = n /\
  abortController (vars w) = match n with 0 => None | S m => Some m end /\
  aborted (net w) = seq 0 (pred n) /\
  (forall i rq, requests (net w) !! i = Some rq -> rq_signal rq = i) /\
  (forall i, In i (answered s) -> i < n).

(** The cache holds at most 50 entries under distinct keys, and the key
    of the last request is not cached while that request is pending. *)
Definition cache_sound (s : sim) : Prop :=
  let w := page s in
  length (cache (vars w)) <= 50 /\
  NoDup (keys (cache (vars w))) /\
  (forall rq, last (requests (net w)) = Some rq ->
     ~ In (pred (length (requests (net w)))) (answered s) ->
     map_get (request_key rq) (cache (vars w)) = None).

(** What is sent is a request a user can have meant. *)
Definition request_sane (rq : request) : Prop :=
  (1 <= rq_page rq)%Z /\ rq_perPage rq <> 0%Z /\
  rq_search rq <> EmptyString /\ JsString.trim (rq_search rq) = rq_search rq.

End Widget.

Module WidgetSamples.
Import Coordinator Widget.

(** The user searches "one", then "two" before "one" is answered. *)
Definition two_searches : list event :=
  [TypeText "one"; Search; TypeText "two"; Search].

(** The user searches "naruto" and the page arrives. *)
Definition answered_search : list event :=
  [TypeText "naruto"; Search; Answer 0 (ok Samples.sample_page)].

End WidgetSamples.

(** ** The category page under user events ([attachHandlers] of
       codice.php, lines 235-268) *)

Module CatalogWidget.
Import Catalog.

Definition progress_world (p : progress) : world :=
  match p with
  | Returned w => w
  | Awaiting w => w
  end.

(** The user edits the search input. *)
Definition setSearchInput (s : string) (w : world) : world :=
  {| st := st w;
     ui := {| statusText := statusText (ui w); errorVisible := errorVisible (ui w);
              errorText := errorText (ui w); tableHolder := tableHolder (ui w);
              pagerVisible := pagerVisible (ui w); pageInfoText := pageInfoText (ui w);
              searchInputValue := s |};
     requests := requests w |}.

(** [state.page++] *)
Definition incrementPage (w : world) : world :=
  {| st := {| currentFormat := currentFormat (st w); page := (page (st w) + 1)%Z;
              perPage := perPage (st w); search := search (st w) |};
     ui := ui w; requests := requests w |}.

(** What can happen to the page. [ClickSearch] is [doSearch(1)], by the
    button or the Enter key; [Answer r] is the end of one of the pending
    requests, the transport answering [r]. *)
Inductive event :=
| TypeText (s : string)
| ClickCategory (c : category)
| ClickSearch
| ClickPrev
| ClickNext
| Answer (r : response).

(** The handlers registered by [attachHandlers]. *)
Definition handle (e : event) (w : world) : world :=
  match e with
  | TypeText s => setSearchInput s w
  | ClickCategory c => progress_world (doSearch_start 1 (select_category c w))
  | ClickSearch => progress_world (doSearch_start 1 w)
  | ClickPrev =>
      if (1 <? page (st w))%Z then progress_world (doSearch_start (page (st w) - 1) w)
      else w
  | ClickNext =>
      let w := incrementPage w in
      progress_world (doSearch_start (page (st w)) w)
  | Answer r => doSearch_finish r w
  end.

Definition after (es : list event) (searchText : string) : world :=
  fold_left (fun w e => handle e w) es (init searchText).

(** A request built for a selected category, from a page number of at
    least 1. *)
Definition request_sane (v : variables) : Prop :=
  (1 <= v_page v)%Z /\
  (exists c, (v_format_in v, v_country v) = mapping_table c) /\
  v_tag_not_in v = DEFAULT_TAG_EXCLUDE /\
  v_genre_not_in v = None /\
  v_search v <> Some EmptyString.

(** The page number is at least 1, the requests sent are sane, and none
    was sent before a category was selected. *)
Definition catalog_inv (w : world) : Prop :=
  (1 <= page (st w))%Z /\ Forall request_sane (requests w) /\
  (requests w <> [] -> currentFormat (st w) <> None).

End CatalogWidget.

Module MoreSamples.
Import Selector.

(** Three edges without role, already in descending order of count. *)
Definition edges_700_300_200 : list elem :=
  [Samples.edge_fav "first" 700; Samples.edge_fav "second" 300;
   Samples.edge_fav "third" 200].


End MoreSamples.

(** ** The rows of the category table ([renderTable] of codice.php,
       lines 188-206) *)

Module CatalogRows.
Import Selector.

(** The content of one [tr]: the text of the cells, the protagonist cell,
    and the source of the cover image when there is one. *)
Record row := {
  r_format : string;
  r_title : string;
  r_status : string;
  r_chapters : string;
  r_country : string;
  r_protagonist : protagonist;
  r_creator : string;
  r_cover : option string
}.





End CatalogRows.

(** * Properties *)

(** ** Sanity checks of the string primitives *)

Example toUpperCase_main : JsString.toUpperCase "Main character" = "MAIN CHARACTER".
Proof. reflexivity. Qed.
Example split_ex : JsString.split "," "a,b,,c" = ["a"; "b"; EmptyString; "c"].
Proof. reflexivity. Qed.
Example trim_ex : JsString.trim "  a b
 " = "a b".
Proof. reflexivity. Qed.
Example of_Z_ex : JsString.of_Z 20 = "20" /\ JsString.of_Z (-3) = "-3" /\ JsString.of_Z 0 = "0".
Proof. repeat split; reflexivity. Qed.


(** ** Case-insensitive search *)

Section CaseInsensitive.
Import JsString.

Lemma toUpperCase_app (s t : string) :
  toUpperCase (s +:+ t) = toUpperCase s +:+ toUpperCase t.
Proof. induction s as [|c s IH]; simpl; [reflexivity | now rewrite IH]. Qed.

Lemma upper_char_idem (c : ascii) : upper_char (upper_char c) = upper_char c.
Proof.
  destruct c as [[] [] [] [] [] [] [] []]; reflexivity.
Qed.

Lemma toUpperCase_idem (s : string) : toUpperCase (toUpperCase s) = toUpperCase s.
Proof. induction s as [|c s IH]; simpl; [reflexivity|]. now rewrite upper_char_idem, IH. Qed.

Lemma startsWith_upper (s pat : string) :
  startsWith (toUpperCase s) (toUpperCase pat) = matches_at_i s pat.
Proof.
  revert s; induction pat as [|p pat IH]; intros [|c s]; simpl; try reflexivity.
  now rewrite IH.
Qed.

(** A match at the start is a prefix with the same upper-case form. *)
Lemma matches_at_i_spec (s pat : string) :
  matches_at_i s pat = true <->
  exists mid post, s = mid +:+ post /\ toUpperCase mid = toUpperCase pat.
Proof.
  revert s; induction pat as [|p pat IH]; intros s; cbn [matches_at_i].
  - split; [intros _; exists EmptyString, s; auto|];
    destruct s; reflexivity.
  - destruct s as [|c s].
    + split; [discriminate|]. intros (mid & post & E & U).
      destruct mid; simpl in *; discriminate.
    + cbn [matches_at_i]. rewrite andb_true_iff, Ascii.eqb_eq, IH. split.
      * intros (Hc & mid & post & -> & U). exists (String c mid), post.
        simpl. now rewrite U, Hc.
      * intros (mid & post & E & U). destruct mid as [|m mid]; simpl in *; [discriminate|].
        injection E as -> ->. injection U as Hc U. split; [now rewrite Hc|].
        now exists mid, post.
Qed.

Lemma includes_upper_spec (s pat : string) :
  includes (toUpperCase s) (toUpperCase pat) = true <-> contains_ci s pat.
Proof.
  unfold contains_ci. induction s as [|c s IH].
  - cbn [toUpperCase includes]. rewrite orb_false_r.
    change EmptyString with (toUpperCase EmptyString) at 1.
    rewrite startsWith_upper, matches_at_i_spec. split.
    + intros (mid & post & E & U). exists EmptyString, mid, post. auto.
    + intros (pre & mid & post & E & U). destruct pre; simpl in E; [|discriminate].
      now exists mid, post.
  - cbn [toUpperCase includes]. rewrite orb_true_iff, IH.
    change (String (upper_char c) (toUpperCase s)) with (toUpperCase (String c s)).
    rewrite startsWith_upper, matches_at_i_spec. split.
    + intros [(mid & post & E & U) | (pre & mid & post & E & U)].
      * exists EmptyString, mid, post. auto.
      * exists (String c pre), mid, post. simpl. now rewrite E.
    + intros (pre & mid & post & E & U). destruct pre as [|c' pre]; simpl in E.
      * left. now exists mid, post.
      * injection E as -> E. right. now exists pre, mid, post.
Qed.

Lemma regex_alt_i_test_spec (alts : list string) (s : string) :
  regex_alt_i_test alts s = true <->
  exists w, In w alts /\ contains_ci s w.
Proof.
  assert (Hex : forall t, existsb (matches_at_i t) alts = true <->
            exists w, In w alts /\ exists mid post, t = mid +:+ post /\ toUpperCase mid = toUpperCase w).
  { intros t. rewrite existsb_exists. split; intros (w & Hw & H); exists w; split; auto;
      now apply matches_at_i_spec. }
  unfold contains_ci. induction s as [|c s IH]; cbn [regex_alt_i_test].
  - rewrite orb_false_r, Hex. split.
    + intros (w & Hw & mid & post & E & U). exists w. split; auto.
      exists EmptyString, mid, post. auto.
    + intros (w & Hw & pre & mid & post & E & U). exists w. split; auto.
      destruct pre; simpl in E; [|discriminate]. now exists mid, post.
  - rewrite orb_true_iff, Hex, IH. split.
    + intros [(w & Hw & mid & post & E & U) | (w & Hw & pre & mid & post & E & U)];
        exists w; (split; [assumption|]).
      * exists EmptyString, mid, post. auto.
      * exists (String c pre), mid, post. simpl. now rewrite E.
    + intros (w & Hw & pre & mid & post & E & U). destruct pre as [|c' pre]; simpl in E.
      * left. exists w. split; auto. now exists mid, post.
      * injection E as -> E. right. exists w. split; auto. now exists pre, mid, post.
Qed.

End CaseInsensitive.

(** ** The array primitives on lists *)

Section SelectorLists.
Import Selector.

Lemma filter_cb_total {A} (p : A -> option bool) (q : A -> bool) (l : list A) :
  Forall (fun x => p x = Some (q x)) l -> filter_cb p l = Some (List.filter q l).
Proof.
  induction 1 as [|x l Hx _ IH]; simpl; [reflexivity|].
  rewrite Hx, IH. now destruct (q x).
Qed.

Lemma find_cb_total {A} (p : A -> option bool) (q : A -> bool) (l : list A) :
  Forall (fun x => p x = Some (q x)) l -> find_cb p l = Some (List.find q l).
Proof.
  induction 1 as [|x l Hx _ IH]; simpl; [reflexivity|].
  rewrite Hx. now destruct (q x).
Qed.

Lemma Forall_filter_keeps {A} (P : A -> Prop) (q : A -> bool) (l : list A) :
  Forall P l -> Forall P (List.filter q l).
Proof.
  induction 1 as [|x l Hx _ IH]; simpl; [constructor|].
  destruct (q x); [constructor|]; assumption.
Qed.

Lemma Forall_filter_holds {A} (q : A -> bool) (l : list A) :
  Forall (fun x => q x = true) (List.filter q l).
Proof.
  induction l as [|x l IH]; simpl; [constructor|].
  destruct (q x) eqn:E; [constructor|]; assumption.
Qed.

Lemma cb_valid_total (e : elem) : cb_valid e = Some (validb e).
Proof. destruct e as [[r [n|]]|]; reflexivity. Qed.

Lemma cb_main_valid (e : elem) : validb e = true -> cb_main e = Some (mainb e).
Proof.
  destruct e as [[[[|c r]|] [n|]]|]; simpl; try discriminate; reflexivity.
Qed.

Lemma cb_creator_valid (e : elem) : validb e = true -> cb_creator e = Some (creatorb e).
Proof.
  destruct e as [[[[|c r]|] [n|]]|]; simpl; try discriminate; reflexivity.
Qed.

Lemma cb_has_fav_valid (e : elem) : validb e = true -> cb_has_fav e = Some (numericb e).
Proof. destruct e as [[r [n|]]|]; simpl; try discriminate; reflexivity. Qed.

Lemma cb_named_valid (e : elem) : validb e = true -> cb_named e = Some (namedb e).
Proof. destruct e as [[r [n|]]|]; simpl; try discriminate; reflexivity. Qed.

Lemma fav_or0_valid (e : elem) : validb e = true -> fav_or0 e = Some (fav0 e).
Proof. destruct e as [[r [n|]]|]; simpl; try discriminate; reflexivity. Qed.

Lemma cmp_fav_valid (a b : elem) :
  validb a = true -> validb b = true -> cmp_fav a b = Some (fav0 b - fav0 a)%Z.
Proof.
  intros Ha Hb. unfold cmp_fav. now rewrite (fav_or0_valid b Hb), (fav_or0_valid a Ha).
Qed.

Lemma protagonist_of_valid (e : elem) : validb e = true -> is_Some (protagonist_of e).
Proof. destruct e as [[r [n|]]|]; simpl; try discriminate; eauto. Qed.

Lemma staff_of_valid (e : elem) : validb e = true -> is_Some (staff_of e).
Proof. destruct e as [[r [n|]]|]; simpl; try discriminate; eauto. Qed.

Lemma protagonist_named_ok (e : elem) : namedb e = true -> is_Some (protagonist_named e).
Proof.
  destruct e as [[r [[[[[[|c s]|]]|] im f]|]]|]; simpl; try discriminate; eauto.
Qed.

(** Inserting into a list of valid edges: no throw, a permutation, and the
    new head is the inserted edge unless the old head has a larger count. *)
Lemma insert_cb_valid (x : elem) (l : list elem) :
  validb x = true -> Forall (fun e => validb e = true) l ->
  exists r, insert_cb cmp_fav x l = Some r /\ Permutation (x :: l) r /\
    head r = Some (match l with
                   | [] => x
                   | y :: _ => if (fav0 y <=? fav0 x)%Z then x else y
                   end).
Proof.
  intros Hx Hl. induction Hl as [|y l Hy Hl IH]; simpl.
  - exists [x]. auto.
  - rewrite (cmp_fav_valid x y Hx Hy).
    destruct (fav0 y - fav0 x <=? 0)%Z eqn:E.
    + exists (x :: y :: l). repeat split; auto.
      simpl. replace (fav0 y <=? fav0 x)%Z with true; [reflexivity|]. symmetry. lia.
    + destruct IH as (r & -> & Hp & _). exists (y :: r). repeat split.
      * rewrite perm_swap. now constructor.
      * simpl. replace (fav0 y <=? fav0 x)%Z with false; [reflexivity|]. symmetry. lia.
Qed.

(** Sorting valid edges by descending count: no throw, a permutation, and
    the head is the first edge with the highest count. *)
Lemma sort_cb_valid (l : list elem) :
  Forall (fun e => validb e = true) l ->
  exists r, sort_cb cmp_fav l = Some r /\ Permutation l r /\
    forall e, head r = Some e -> exists i, first_max_at fav0 l i e.
Proof.
  induction 1 as [|x l Hx Hl IH]; simpl.
  - exists []. repeat split; auto. discriminate.
  - destruct IH as (r' & -> & Hp & Hhead).
    assert (Hr' : Forall (fun e => validb e = true) r').
    { rewrite Forall_forall in *. intros e He. apply Hl.
      apply list_elem_of_In. apply list_elem_of_In in He. now rewrite Hp. }
    destruct (insert_cb_valid x r' Hx Hr') as (r & -> & Hp' & Hh).
    exists r. repeat split; [now rewrite <- Hp', Hp|].
    intros e He. rewrite Hh in He. destruct r' as [|y r'].
    + injection He as <-. apply Permutation_nil_r in Hp as ->.
      exists 0. repeat split; [|intros j e' Hj; lia].
      intros [|j] e' Hj; simpl in Hj; [injection Hj as <-; lia | discriminate].
    + destruct (Hhead y eq_refl) as (i & Hi & Hmax & Hbefore).
      destruct (fav0 y <=? fav0 x)%Z eqn:E; injection He as <-.
      * exists 0. repeat split; [|intros j e' Hj; lia].
        intros [|j] e' Hj; simpl in Hj; [injection Hj as <-; lia|].
        specialize (Hmax j e' Hj). lia.
      * exists (S i). repeat split; [exact Hi | |].
        -- intros [|j] e' Hj; simpl in Hj; [injection Hj as <-; lia|]. eauto.
        -- intros [|j] e' Hlt Hj; simpl in Hj; [injection Hj as <-; lia|].
           apply (Hbefore j); [lia | assumption].
Qed.

(** The sorted array is in descending order of count. *)
Lemma sort_cb_descending (l r : list elem) :
  Forall (fun e => validb e = true) l ->
  sort_cb cmp_fav l = Some r ->
  Sorted (fun a b => (fav0 b <= fav0 a)%Z) r.
Proof.
  intros Hl. revert r. induction Hl as [|x l Hx Hl IH]; intros r; simpl.
  - intros [= <-]. constructor.
  - destruct (sort_cb_valid l Hl) as (r' & Hr' & Hp & _). rewrite Hr'.
    specialize (IH r' Hr').
    assert (Hv : Forall (fun e => validb e = true) r').
    { rewrite Forall_forall in *. intros e He. apply Hl.
      apply list_elem_of_In. apply list_elem_of_In in He. now rewrite Hp. }
    clear Hr' Hp Hl. revert r. induction Hv as [|y r' Hy Hv IHins]; intros r; simpl.
    + intros [= <-]. repeat constructor.
    + rewrite (cmp_fav_valid x y Hx Hy).
      destruct (fav0 y - fav0 x <=? 0)%Z eqn:E.
      * intros [= <-]. constructor; [assumption|]. constructor. lia.
      * destruct (insert_cb_valid x r' Hx Hv) as (r2 & Hr2 & _ & Hhd). rewrite Hr2.
        intros [= <-]. apply Sorted_inv in IH as [IH Hrel].
        constructor; [now apply IHins|].
        destruct r2 as [|z r2]; [constructor|]. simpl in Hhd. injection Hhd as ->.
        constructor. destruct r' as [|y' r'']; [lia|].
        apply HdRel_inv in Hrel. destruct (fav0 y' <=? fav0 x)%Z; lia.
Qed.

End SelectorLists.

(** ** The array primitives on the store *)

Section SelectorStore.
Import Selector.

Lemma store_old (h : store) (v : list elem) (a : loc) (l : list elem) :
  h !! a = Some l -> (h ++ [v]) !! a = Some l.
Proof. intros H. now apply lookup_app_l_Some. Qed.

Lemma store_new (h : store) (v : list elem) (rest : store) :
  (h ++ v :: rest) !! length h = Some v.
Proof. now rewrite list_lookup_middle. Qed.

Lemma store_overwrite (h : store) (v r : list elem) (rest : store) :
  <[length h := r]> (h ++ v :: rest) = h ++ r :: rest.
Proof.
  rewrite insert_app_r_alt by lia. now rewrite Nat.sub_diag.
Qed.

Lemma arr_filter_run (h : store) (a : loc) (l : list elem) p q :
  h !! a = Some l -> Forall (fun x => p x = Some (q x)) l ->
  arr_filter p a h = Some (length h, h ++ [List.filter q l]).
Proof.
  intros Ha Hp. unfold arr_filter. now rewrite Ha, (filter_cb_total p q l Hp).
Qed.

Lemma arr_length_run (h : store) (a : loc) (l : list elem) :
  h !! a = Some l -> arr_length a h = Some (length l, h).
Proof. intros Ha. unfold arr_length. now rewrite Ha. Qed.

Lemma arr_get_run (h : store) (a : loc) (l : list elem) (i : nat) :
  h !! a = Some l -> arr_get a i h = Some (default None (l !! i), h).
Proof. intros Ha. unfold arr_get. now rewrite Ha. Qed.

Lemma arr_find_run (h : store) (a : loc) (l : list elem) p q :
  h !! a = Some l -> Forall (fun x => p x = Some (q x)) l ->
  arr_find p a h = Some (default None (List.find q l), h).
Proof.
  intros Ha Hp. unfold arr_find. now rewrite Ha, (find_cb_total p q l Hp).
Qed.

(** Sorting an array allocated after [h] leaves [h] alone. *)
Lemma arr_sort_run (h : store) (v r : list elem) (rest : store) cmp :
  sort_cb cmp v = Some r ->
  arr_sort cmp (length h) (h ++ v :: rest) = Some (tt, h ++ r :: rest).
Proof.
  intros Hs. unfold arr_sort. now rewrite store_new, Hs, store_overwrite.
Qed.

Lemma Forall_valid_cb (p : elem -> option bool) (q : elem -> bool) (l : list elem) :
  (forall e, validb e = true -> p e = Some (q e)) ->
  Forall (fun e => validb e = true) l ->
  Forall (fun x => p x = Some (q x)) l.
Proof. intros H. induction 1; constructor; auto. Qed.

Lemma find_some_holds (q : elem -> bool) (l : list elem) (e : elem) :
  List.find q l = Some e -> q e = true.
Proof. intros H. now apply find_some in H. Qed.

(** Sort then read index 0, on a non-empty array of valid edges allocated
    after [h]: the first edge with the highest count comes out. *)
Lemma sort_then_first (h : store) (v : list elem) (rest : store) :
  Forall (fun e => validb e = true) v -> v <> [] ->
  exists r e i,
    arr_sort cmp_fav (length h) (h ++ v :: rest) = Some (tt, h ++ r :: rest) /\
    arr_get (length h) 0 (h ++ r :: rest) = Some (e, h ++ r :: rest) /\
    first_max_at fav0 v i e /\ validb e = true.
Proof.
  intros Hv Hne. destruct (sort_cb_valid v Hv) as (r & Hs & Hp & Hh).
  destruct r as [|e r].
  { apply Permutation_nil_r in Hp. contradiction. }
  destruct (Hh e eq_refl) as (i & Hi).
  exists (e :: r), e, i. repeat split; try apply Hi.
  - now apply arr_sort_run.
  - now rewrite (arr_get_run _ _ (e :: r) 0 (store_new _ _ _)).
  - destruct Hi as (Hi & _). rewrite Forall_forall in Hv. apply Hv.
    eapply list_elem_of_lookup_2. exact Hi.
Qed.

End SelectorStore.

(** ** Running the two pickers *)

Section SelectorRun.
Import Selector.

Lemma first_max_single (e : elem) : first_max_at fav0 [e] 0 e.
Proof.
  repeat split; [|intros j e' Hj; lia].
  intros [|j] e' Hj; simpl in Hj; [injection Hj as <-; lia | discriminate].
Qed.

(** [pickProtagonist] on an allocated edges array: it returns, the store
    only grows, and the result follows the fallback chain. *)
Lemma pickProtagonist_run (h : store) (a : loc) (l : list elem) :
  h !! a = Some l ->
  let vs := List.filter validb l in
  let mains := List.filter mainb vs in
  let favs := List.filter numericb vs in
  exists r news,
    pickProtagonist (Some {| edges := Some a |}) h = Some (r, h ++ news) /\
    (mains <> [] ->
       exists i e, first_max_at fav0 mains i e /\ r = protagonist_of e /\ is_Some r) /\
    (mains = [] -> favs <> [] ->
       exists i e, first_max_at fav0 favs i e /\ r = protagonist_of e /\ is_Some r) /\
    (mains = [] -> favs = [] ->
       r = match List.find namedb vs with
           | Some e => protagonist_named e
           | None => None
           end).
Proof.
  intros Ha. cbv zeta.
  remember (List.filter validb l) as vs eqn:Evs.
  remember (List.filter mainb vs) as mains eqn:Emains.
  remember (List.filter numericb vs) as favs eqn:Efavs.
  assert (Hvs : Forall (fun e => validb e = true) vs)
    by (subst vs; apply Forall_filter_holds).
  assert (Hmains : Forall (fun e => validb e = true) mains)
    by (subst mains; now apply Forall_filter_keeps).
  assert (Hfavs : Forall (fun e => validb e = true) favs)
    by (subst favs; now apply Forall_filter_keeps).
  unfold pickProtagonist, bind; cbn [edges].
  rewrite (arr_filter_run h a l cb_valid validb Ha)
    by (apply Forall_forall; intros; apply cb_valid_total).
  rewrite <- Evs. set (h1 := h ++ [vs]).
  assert (H1 : h1 !! length h = Some vs) by apply store_new.
  rewrite (arr_length_run h1 (length h) vs H1).
  destruct (Nat.eqb_spec (length vs) 0) as [Hz|Hnz].
  { apply nil_length_inv in Hz. unfold h1. clear Evs H1 h1. subst vs.
    simpl in Emains, Efavs. subst mains favs.
    exists None, [[]]. cbn. repeat split; auto; intros; congruence. }
  rewrite (arr_filter_run h1 (length h) vs cb_main mainb H1
             (Forall_valid_cb _ _ _ cb_main_valid Hvs)).
  rewrite <- Emains. set (h2 := h1 ++ [mains]).
  assert (H2 : h2 !! length h = Some vs) by now apply store_old.
  rewrite (arr_length_run h2 (length h1) mains) by apply store_new.
  destruct mains as [|m0 [|m1 ms]].
  - (* no main edge *)
    cbn [length Nat.eqb Nat.ltb Nat.leb].
    rewrite (arr_filter_run h2 (length h) vs cb_has_fav numericb H2
               (Forall_valid_cb _ _ _ cb_has_fav_valid Hvs)).
    rewrite <- Efavs. set (h3 := h2 ++ [favs]).
    assert (H3 : h3 !! length h = Some vs) by now apply store_old.
    rewrite (arr_length_run h3 (length h2) favs) by apply store_new.
    destruct favs as [|f0 fs].
    + (* no numeric count: first named edge *)
      cbn [length Nat.ltb Nat.leb].
      rewrite (arr_find_run h3 (length h) vs cb_named namedb H3
                 (Forall_valid_cb _ _ _ cb_named_valid Hvs)).
      destruct (List.find namedb vs) as [e|] eqn:Ef'.
      * pose proof (find_some_holds _ _ _ Ef') as Hn.
        destruct (protagonist_named_ok e Hn) as [p Hp].
        assert (He : exists ed, e = Some ed).
        { destruct e; [eauto | discriminate]. }
        destruct He as [ed ->]. cbn [default from_option id]. unfold lift. rewrite Hp.
        exists (Some p), [vs; []; []]. unfold ret, h3, h2, h1.
        rewrite <- !app_assoc. repeat split; auto; try (intros; congruence).
      * cbn [default from_option id]. exists None, [vs; []; []]. unfold ret, h3, h2, h1.
        rewrite <- !app_assoc. repeat split; auto; try (intros; congruence).
    + (* highest numeric count *)
      destruct (sort_then_first h2 (f0 :: fs) [] Hfavs)
        as (r & e & i & Hs & Hg & Hmax & Hv); [discriminate|].
      fold h3 in Hs. cbn [length]. rewrite Hs, Hg.
      destruct (protagonist_of_valid e Hv) as [p Hp]. unfold lift. rewrite Hp.
      exists (Some p), [vs; []; r]. unfold ret, h2, h1.
      rewrite <- !app_assoc. repeat split; auto; try (intros; congruence).
      intros _ _. exists i, e. rewrite Hp. eauto.
  - (* exactly one main edge *)
    cbn [length Nat.eqb].
    rewrite (arr_get_run h2 (length h1) [m0] 0) by apply store_new.
    cbn [lookup list_lookup default from_option id].
    assert (Hv : validb m0 = true) by now inversion Hmains.
    destruct (protagonist_of_valid m0 Hv) as [p Hp]. unfold lift. rewrite Hp.
    exists (Some p), [vs; [m0]]. unfold ret, h2, h1.
    rewrite <- !app_assoc. repeat split; auto; try (intros; congruence).
    intros _. exists 0, m0. rewrite Hp. split; [apply first_max_single | eauto].
  - (* several main edges *)
    replace (length (m0 :: m1 :: ms) =? 1) with false by reflexivity.
    replace (1 <? length (m0 :: m1 :: ms)) with true by reflexivity.
    destruct (sort_then_first h1 (m0 :: m1 :: ms) [] Hmains)
      as (r & e & i & Hs & Hg & Hmax & Hv); [discriminate|].
    fold h2 in Hs. rewrite Hs, Hg.
    destruct (protagonist_of_valid e Hv) as [p Hp]. unfold lift. rewrite Hp.
    exists (Some p), [vs; r]. unfold ret, h1.
    rewrite <- !app_assoc. repeat split; auto; try (intros; congruence).
    intros _. exists i, e. rewrite Hp. eauto.
Qed.

(** [pickMainStaff] on an allocated edges array: it returns, the store only
    grows, and the pick is the first edge with the highest count among the
    creator edges, or among all valid edges when there is no creator edge. *)
Lemma pickMainStaff_run (h : store) (a : loc) (l : list elem) :
  h !! a = Some l ->
  let vs := List.filter validb l in
  let cs := List.filter creatorb vs in
  let considered := match cs with [] => vs | _ :: _ => cs end in
  exists r news,
    pickMainStaff (Some {| edges := Some a |}) h = Some (r, h ++ news) /\
    (vs = [] -> r = None) /\
    (vs <> [] ->
       exists i e, first_max_at fav0 considered i e /\ r = staff_of e /\ is_Some r).
Proof.
  intros Ha. cbv zeta.
  remember (List.filter validb l) as vs eqn:Evs.
  remember (List.filter creatorb vs) as cs eqn:Ecs.
  assert (Hvs : Forall (fun e => validb e = true) vs)
    by (subst vs; apply Forall_filter_holds).
  assert (Hcs : Forall (fun e => validb e = true) cs)
    by (subst cs; now apply Forall_filter_keeps).
  unfold pickMainStaff, bind; cbn [edges].
  rewrite (arr_filter_run h a l cb_valid validb Ha)
    by (apply Forall_forall; intros; apply cb_valid_total).
  rewrite <- Evs. set (h1 := h ++ [vs]).
  assert (H1 : h1 !! length h = Some vs) by apply store_new.
  rewrite (arr_length_run h1 (length h) vs H1).
  destruct (Nat.eqb_spec (length vs) 0) as [Hz|Hnz].
  { apply nil_length_inv in Hz. unfold h1. clear Evs H1 h1. subst vs.
    exists None, [[]]. cbn. repeat split; auto; intros; congruence. }
  assert (Hne : vs <> []) by (intros ->; now apply Hnz).
  rewrite (arr_filter_run h1 (length h) vs cb_creator creatorb H1
             (Forall_valid_cb _ _ _ cb_creator_valid Hvs)).
  rewrite <- Ecs. set (h2 := h1 ++ [cs]).
  rewrite (arr_length_run h2 (length h1) cs) by apply store_new.
  destruct cs as [|c0 cs'].
  - (* no creator edge: [candidates] is the array [edges] itself *)
    cbn [length Nat.eqb].
    destruct (sort_then_first h vs [[]] Hvs Hne) as (r & e & i & Hs & Hg & Hmax & Hv).
    unfold h2, h1. rewrite <- app_assoc. cbn [app]. rewrite Hs, Hg.
    destruct (staff_of_valid e Hv) as [p Hp]. unfold lift. rewrite Hp.
    exists (Some p), [r; []]. unfold ret.
    repeat split; auto; try (intros; congruence).
    intros _. exists i, e. rewrite Hp. eauto.
  - (* creator edges *)
    replace (length (c0 :: cs') =? 0) with false by reflexivity.
    destruct (sort_then_first h1 (c0 :: cs') [] Hcs)
      as (r & e & i & Hs & Hg & Hmax & Hv); [discriminate|].
    fold h2 in Hs. rewrite Hs, Hg.
    destruct (staff_of_valid e Hv) as [p Hp]. unfold lift. rewrite Hp.
    exists (Some p), [vs; r]. unfold ret, h1.
    rewrite <- !app_assoc. repeat split; auto; try (intros; congruence).
    intros _. exists i, e. rewrite Hp. eauto.
Qed.

End SelectorRun.

(** ** The cache as an insertion-ordered map *)

Section CacheMap.
Import Coordinator.

Lemma map_get_none_keys (k : string) (m : cache_t) :
  map_get k m = None <-> ~ In k (keys m).
Proof.
  unfold map_get, keys. induction m as [|[k' v'] m IH]; simpl.
  - tauto.
  - destruct (String.eqb_spec k' k) as [->|Hne].
    + split; [discriminate | intros H; exfalso; apply H; now left].
    + rewrite IH. tauto.
Qed.

Lemma map_get_some_keys (k : string) (m : cache_t) (v : page_data) :
  map_get k m = Some v -> In k (keys m).
Proof.
  intros H. destruct (in_dec string_dec k (keys m)) as [Hin|Hnin]; [assumption|].
  apply map_get_none_keys in Hnin. congruence.
Qed.

Lemma map_has_get (k : string) (m : cache_t) :
  map_has k m = true <-> is_Some (map_get k m).
Proof.
  unfold map_has, map_get. induction m as [|[k' v'] m IH]; simpl.
  - split; [discriminate | intros [x Hx]; discriminate].
  - destruct (String.eqb k' k); simpl; [split; eauto | exact IH].
Qed.

Lemma existsb_keys (k : string) (m : cache_t) :
  existsb (String.eqb k) (keys m) = match map_get k m with Some _ => true | None => false end.
Proof.
  unfold map_get, keys. induction m as [|[k' v'] m IH]; simpl; [reflexivity|].
  rewrite (String.eqb_sym k k'). destruct (String.eqb k' k); simpl; [reflexivity | exact IH].
Qed.

(** Setting a key that is absent appends the entry. *)
Lemma map_set_absent (k : string) (v : page_data) (m : cache_t) :
  map_get k m = None -> map_set k v m = m ++ [(k, v)].
Proof.
  unfold map_get. induction m as [|[k' v'] m IH]; simpl; [reflexivity|].
  destruct (String.eqb k' k); [discriminate|]. intros H. now rewrite IH.
Qed.

(** Setting a key that is present keeps the keys and their order. *)
Lemma map_set_keys_present (k : string) (v : page_data) (m : cache_t) :
  In k (keys m) -> keys (map_set k v m) = keys m.
Proof.
  unfold keys. induction m as [|[k' v'] m IH]; simpl; [tauto|].
  destruct (String.eqb_spec k' k) as [->|Hne]; [reflexivity|].
  intros [H|H]; [contradiction|]. simpl. now rewrite IH.
Qed.

Lemma map_get_set (k : string) (v : page_data) (m : cache_t) :
  map_get k (map_set k v m) = Some v.
Proof.
  unfold map_get. induction m as [|[k' v'] m IH]; simpl.
  - now rewrite String.eqb_refl.
  - destruct (String.eqb k' k) eqn:E; simpl.
    + now rewrite String.eqb_refl.
    + now rewrite E.
Qed.

Lemma map_get_app_absent (k : string) (v : page_data) (m : cache_t) :
  map_get k m = None -> map_get k (m ++ [(k, v)]) = Some v.
Proof. intros H. rewrite <- (map_set_absent k v m H). apply map_get_set. Qed.

(** Deleting the first key removes the head. *)
Lemma map_delete_first (m : cache_t) (k : string) :
  map_first_key m = Some k -> map_delete k m = tl m.
Proof.
  destruct m as [|[k' v'] m]; simpl; [discriminate|].
  intros [= ->]. now rewrite String.eqb_refl.
Qed.

(** Lines 132-137: after [set] of an absent key and the size check, the
    new key is still there. *)
Lemma map_get_after_evict (k : string) (v : page_data) (m : cache_t) :
  map_get k m = None ->
  let m' := m ++ [(k, v)] in
  map_get k (if 50 <? length m' then tl m' else m') = Some v.
Proof.
  intros H m'. destruct (50 <? length m') eqn:E; [|now apply map_get_app_absent].
  subst m'. destruct m as [|[k0 v0] m]; [discriminate|].
  simpl. unfold map_get in H. simpl in H.
  destruct (String.eqb k0 k); [discriminate|]. now apply map_get_app_absent.
Qed.

End CacheMap.

(** ** One request, step by step *)

Section Requests.
Import Coordinator.

Lemma transport_live (ctl : nat) (r : response) (w : world) :
  ~ In ctl (aborted (net w)) -> transport ctl r w = r.
Proof.
  intros H. unfold transport.
  destruct (existsb (Nat.eqb ctl) (aborted (net w))) eqn:E; [|reflexivity].
  apply existsb_exists in E as (c & Hc & Heq). apply Nat.eqb_eq in Heq. now subst.
Qed.

Lemma transport_cancelled (ctl : nat) (r : response) (w : world) :
  In ctl (aborted (net w)) -> transport ctl r w = Rejected AbortError.
Proof.
  intros H. unfold transport.
  replace (existsb (Nat.eqb ctl) (aborted (net w))) with true; [reflexivity|].
  symmetry. apply existsb_exists. exists ctl. split; [assumption | apply Nat.eqb_refl].
Qed.

(** A cached key: [fetchAnilist] returns the cached page; nothing is sent,
    no controller is created or aborted, the cache is the same. *)
Lemma start_hit (search : string) (pg perPg : Z) (w : world) (p : page_data) :
  map_get (cacheKey search pg perPg) (cache (vars w)) = Some p ->
  exists w', fetchAnilist_start search pg perPg w = Hit p w' /\
    net w' = net w /\ cache (vars w') = cache (vars w) /\
    abortController (vars w') = abortController (vars w).
Proof.
  intros H. unfold fetchAnilist_start. cbn. rewrite H.
  eexists. split; [reflexivity|]. repeat split.
Qed.

(** A key that is not cached: the request is sent under a new controller,
    the previous controller being aborted. *)
Lemma start_miss (search : string) (pg perPg : Z) (w : world) :
  map_get (cacheKey search pg perPg) (cache (vars w)) = None ->
  exists w', fetchAnilist_start search pg perPg w =
               Pending (controllers (net w)) (cacheKey search pg perPg) w' /\
    cache (vars w') = cache (vars w) /\
    abortController (vars w') = Some (controllers (net w)) /\
    controllers (net w') = S (controllers (net w)) /\
    aborted (net w') =
      aborted (net w) ++ match abortController (vars w) with Some c => [c] | None => [] end /\
    requests (net w') =
      requests (net w) ++ [{| rq_search := search; rq_page := pg; rq_perPage := perPg;
                              rq_signal := controllers (net w) |}].
Proof.
  intros H. unfold fetchAnilist_start. cbn. rewrite H.
  eexists. split; [reflexivity|]. repeat split.
Qed.

(** The state after the [try] block stored a page (lines 127-137). *)
Lemma settle_stored (ctl : nat) (key : string) (r : response) (p : page_data) (w : world) :
  transport ctl r w = ok p ->
  exists w', fetchAnilist_settle ctl key r w = (Some p, w') /\
    net w' = net w /\
    abortController (vars w') = abortController (vars w) /\
    cache (vars w') =
      (let m' := map_set key p (cache (vars w)) in
       if 50 <? length m' then tl m' else m').
Proof.
  intros H. unfold fetchAnilist_settle. rewrite H.
  unfold ok, fetchAnilist_try. cbn [errors data].
  cbn -[Nat.ltb map_set map_delete map_first_key].
  destruct (50 <? length (map_set key p (cache (vars w)))) eqn:E.
  - destruct (map_set key p (cache (vars w))) as [|[k0 v0] m'] eqn:Em; [discriminate|].
    cbn -[Nat.ltb]. rewrite String.eqb_refl.
    eexists. split; [reflexivity|]. repeat split.
  - eexists. split; [reflexivity|]. repeat split.
Qed.

Lemma settle_ok (ctl : nat) (key : string) (p : page_data) (w : world) :
  ~ In ctl (aborted (net w)) ->
  exists w', fetchAnilist_settle ctl key (ok p) w = (Some p, w') /\
    net w' = net w /\
    abortController (vars w') = abortController (vars w) /\
    cache (vars w') =
      (let m' := map_set key p (cache (vars w)) in
       if 50 <? length m' then tl m' else m').
Proof. intros H. apply settle_stored. now apply transport_live. Qed.

(** A response either carries a page or it does not. *)
Lemma response_cases (r : response) :
  (exists p, r = ok p) \/ (forall p, r <> ok p).
Proof.
  unfold ok.
  destruct r as [e|s t st|[[errs|] [p|pi e|e]]]; try (right; intros p'; discriminate).
  left. now exists p.
Qed.

(** Any other end of the request leaves the cache and the transport alone
    and returns [null]. *)
Lemma settle_keeps_cache (ctl : nat) (key : string) (r : response) (w : world) :
  (forall p, transport ctl r w <> ok p) ->
  cache (vars (snd (fetchAnilist_settle ctl key r w))) = cache (vars w) /\
  net (snd (fetchAnilist_settle ctl key r w)) = net w /\
  abortController (vars (snd (fetchAnilist_settle ctl key r w))) = abortController (vars w) /\
  fst (fetchAnilist_settle ctl key r w) = None.
Proof.
  intros Hno. unfold fetchAnilist_settle.
  destruct (transport ctl r w) as [e|s t st|[[errs|] [p|pi e|e]]]; cbn -[String.eqb];
    try (destruct (String.eqb _ "AbortError"); cbn; repeat split; reflexivity).
  exfalso. now apply (Hno p).
Qed.

End Requests.

(** ** Sequences of requests *)

Section Runs.
Import Coordinator.

(** However the request ends, [fetchAnilist] leaves the transport and the
    current controller as they were when it was sent. *)
Lemma settle_net (ctl : nat) (key : string) (r : response) (w : world) :
  net (snd (fetchAnilist_settle ctl key r w)) = net w /\
  abortController (vars (snd (fetchAnilist_settle ctl key r w))) = abortController (vars w).
Proof.
  unfold fetchAnilist_settle.
  destruct (transport ctl r w) as [e|s t st|[[errs|] [p|pi e|e]]]; cbn -[String.eqb Nat.ltb];
    try (destruct (String.eqb _ "AbortError"); cbn; split; reflexivity).
  destruct (50 <? _); [destruct (map_first_key _)|]; split; reflexivity.
Qed.

Lemma wf_fresh (w : world) :
  wf w ->
  ~ In (controllers (net w))
      (aborted (net w) ++ match abortController (vars w) with Some c => [c] | None => [] end).
Proof.
  intros [Ha Hc] Hin. apply in_app_or in Hin as [Hin|Hin].
  - apply Ha in Hin. lia.
  - destruct (abortController (vars w)) as [c|]; [|contradiction].
    destruct Hin as [Heq|[]]. specialize (Hc _ eq_refl). lia.
Qed.

Lemma resolve_wf (search : string) (pg perPg : Z) (r : response) (w : world) :
  wf w -> wf (snd (resolve search pg perPg r w)).
Proof.
  intros Hwf. unfold resolve.
  destruct (map_get (cacheKey search pg perPg) (cache (vars w))) as [p|] eqn:E.
  - destruct (start_hit search pg perPg w p E) as (w' & -> & Hn & _ & Hc).
    cbn [snd]. unfold wf. now rewrite Hn, Hc.
  - destruct (start_miss search pg perPg w E) as (w' & -> & _ & Hc & Hn & Ha & _).
    destruct (settle_net (controllers (net w)) (cacheKey search pg perPg) r w') as [Hn' Hc'].
    unfold wf. rewrite Hn', Hc', Hc, Hn, Ha. destruct Hwf as [H1 H2]. split.
    + intros c Hin. apply in_app_or in Hin as [Hin|Hin].
      * apply H1 in Hin. lia.
      * destruct (abortController (vars w)) as [c'|]; [|contradiction].
        destruct Hin as [Heq|[]]. specialize (H2 _ eq_refl). lia.
    + intros c [= <-]. lia.
Qed.

(** A successful request for a key that is not cached: the entry goes last
    and, past 50 entries, the head is dropped. *)
Lemma resolve_miss_ok (search : string) (pg perPg : Z) (p : page_data) (w : world) :
  wf w ->
  map_get (cacheKey search pg perPg) (cache (vars w)) = None ->
  exists w', resolve search pg perPg (ok p) w = (Some p, w') /\
    cache (vars w') =
      (let m' := cache (vars w) ++ [(cacheKey search pg perPg, p)] in
       if 50 <? length m' then tl m' else m').
Proof.
  intros Hwf E. unfold resolve.
  destruct (start_miss search pg perPg w E) as (w' & -> & Hcache & _ & _ & Ha & _).
  destruct (settle_ok (controllers (net w)) (cacheKey search pg perPg) p w')
    as (w'' & -> & _ & _ & Hc'').
  { rewrite Ha. now apply wf_fresh. }
  exists w''. split; [reflexivity|].
  rewrite Hc'', Hcache. now rewrite (map_set_absent _ p _ E).
Qed.

(** A request for a cached key leaves the cache as it is, order included. *)
Lemma resolve_hit (search : string) (pg perPg : Z) (r : response) (p : page_data) (w : world) :
  map_get (cacheKey search pg perPg) (cache (vars w)) = Some p ->
  exists w', resolve search pg perPg r w = (Some p, w') /\
    cache (vars w') = cache (vars w) /\ net w' = net w.
Proof.
  intros E. unfold resolve.
  destruct (start_hit search pg perPg w p E) as (w' & -> & Hn & Hc & _).
  exists w'. auto.
Qed.

Lemma keys_app (m1 m2 : cache_t) : keys (m1 ++ m2) = keys m1 ++ keys m2.
Proof. apply map_app. Qed.

Lemma keys_tl (m : cache_t) : keys (tl m) = tl (keys m).
Proof. now destruct m. Qed.

Lemma keys_length (m : cache_t) : length (keys m) = length m.
Proof. apply length_map. Qed.

(** The cache refines the first-in first-out queue of the specification. *)
Lemma run_fifo (cs : list call) (w : world) :
  wf w ->
  Forall (fun c => exists p, c_response c = ok p) cs ->
  keys (cache (vars (run cs w))) =
  fold_left (fifo_insert 50) (map call_key cs) (keys (cache (vars w))).
Proof.
  intros Hwf Hok. revert w Hwf. induction Hok as [|c cs [p Hp] _ IH]; intros w Hwf.
  - reflexivity.
  - cbn [run map fold_left]. rewrite IH by now apply resolve_wf. f_equal.
    unfold fifo_insert, call_key. rewrite existsb_keys, Hp.
    destruct (map_get (cacheKey (c_search c) (c_page c) (c_perPage c)) (cache (vars w)))
      as [p'|] eqn:E.
    + destruct (resolve_hit _ _ _ (ok p) p' w E) as (w' & -> & Hc & _). cbn [snd].
      now rewrite Hc.
    + destruct (resolve_miss_ok _ _ _ p w Hwf E) as (w' & -> & Hc). cbn [snd].
      rewrite Hc. cbv zeta. rewrite <- keys_length, keys_app. cbn [keys map fst].
      destruct (50 <? _); [rewrite keys_tl|]; now rewrite keys_app.
Qed.

(** The queue of the specification keeps the last [cap] of distinct keys. *)
Lemma fifo_distinct (cap : nat) (ks q : list string) :
  NoDup (q ++ ks) -> length q <= cap ->
  fold_left (fifo_insert cap) ks q = drop (length (q ++ ks) - cap) (q ++ ks).
Proof.
  revert q. induction ks as [|k ks IH]; intros q Hnd Hlen.
  - rewrite app_nil_r. cbn [fold_left].
    replace (length q - cap) with 0 by lia. reflexivity.
  - cbn [fold_left]. unfold fifo_insert at 2.
    assert (Hk : existsb (String.eqb k) q = false).
    { destruct (existsb (String.eqb k) q) eqn:E; [|reflexivity].
      apply existsb_exists in E as (x & Hx & Heq). apply String.eqb_eq in Heq. subst x.
      apply NoDup_app in Hnd as (_ & Hdisj & _).
      exfalso. apply (Hdisj k); [now apply list_elem_of_In | left]. }
    rewrite Hk. cbv zeta.
    assert (Hassoc : forall q', q' ++ k :: ks = (q' ++ [k]) ++ ks)
      by (intros q'; now rewrite <- app_assoc).
    destruct (Nat.ltb_spec cap (length (q ++ [k]))) as [Hgt|Hle].
    + rewrite length_app in Hgt. cbn [length] in Hgt.
      destruct q as [|x q]; cbn [app tl]; cbn [app] in Hnd;
        apply NoDup_cons in Hnd as [_ Hnd].
      * rewrite (IH [] Hnd) by (cbn; lia). cbn [app length] in *.
        replace (S (length ks) - cap) with (S (length ks - cap)) by lia. reflexivity.
      * rewrite Hassoc in Hnd. cbn [length] in *.
        rewrite (IH (q ++ [k]) Hnd) by (rewrite length_app; cbn [length]; lia).
        rewrite (Hassoc q). cbn [length].
        replace (S (length ((q ++ [k]) ++ ks)) - cap)
          with (S (length ((q ++ [k]) ++ ks) - cap))
          by (rewrite !length_app; cbn [length]; lia).
        reflexivity.
    + rewrite Hassoc in *. apply IH; assumption.
Qed.

(** Whatever the answers, the cache never holds more than 50 entries. *)
Lemma resolve_bound (search : string) (pg perPg : Z) (r : response) (w : world) :
  length (cache (vars w)) <= 50 ->
  length (cache (vars (snd (resolve search pg perPg r w)))) <= 50.
Proof.
  intros Hlen. unfold resolve.
  destruct (map_get (cacheKey search pg perPg) (cache (vars w))) as [p|] eqn:E.
  - destruct (start_hit search pg perPg w p E) as (w' & -> & _ & Hc & _).
    cbn [snd]. now rewrite Hc.
  - destruct (start_miss search pg perPg w E) as (w' & -> & Hc & _).
    destruct (response_cases (transport (controllers (net w)) r w')) as [[p Hp]|Hno].
    + destruct (settle_stored _ (cacheKey search pg perPg) r p w' Hp)
        as (w'' & -> & _ & _ & Hc'').
      cbn [snd]. rewrite Hc'', Hc, (map_set_absent _ p _ E). cbv zeta.
      destruct (Nat.ltb_spec 50 (length (cache (vars w) ++ [(cacheKey search pg perPg, p)])))
        as [Hgt|Hle]; [|exact Hle].
      rewrite length_app in Hgt. cbn [length] in Hgt.
      destruct (cache (vars w)) as [|kv m]; cbn [app tl length] in *; [lia|].
      rewrite length_app. cbn [length]. lia.
    + destruct (settle_keeps_cache _ (cacheKey search pg perPg) r w' Hno) as (Hk & _).
      now rewrite Hk, Hc.
Qed.

Lemma run_bound (cs : list call) (w : world) :
  length (cache (vars w)) <= 50 -> length (cache (vars (run cs w))) <= 50.
Proof.
  revert w. induction cs as [|c cs IH]; intros w Hlen; [exact Hlen|].
  cbn [run]. apply IH. now apply resolve_bound.
Qed.

End Runs.

(** ** Splitting and joining *)

Section SplitJoin.
Import JsString.

Lemma split_not_nil (sep : ascii) (s : string) : split sep s <> [].
Proof.
  destruct s as [|c s]; simpl; [discriminate|].
  destruct (Ascii.eqb c sep); [discriminate|].
  destruct (split sep s); discriminate.
Qed.

(** Joining the pieces with the separator gives the string back. *)
Lemma join_split (sep : ascii) (s : string) :
  join (String sep EmptyString) (split sep s) = s.
Proof.
  induction s as [|c s IH]; [reflexivity|]. cbn [split].
  destruct (Ascii.eqb_spec c sep) as [->|Hne].
  - destruct (split sep s) as [|p ps] eqn:E; [now apply split_not_nil in E|].
    cbn [join]. cbn [join] in IH. now rewrite IH.
  - destruct (split sep s) as [|p ps] eqn:E; [now apply split_not_nil in E|].
    destruct ps as [|q ps]; cbn [join] in *; now rewrite <- IH.
Qed.

(** No piece contains the separator, and a piece has no character that the
    string does not have. *)
Lemma split_pieces (sep : ascii) (s p : string) :
  In p (split sep s) ->
  ~ In sep (list_ascii_of_string p) /\
  (forall c, In c (list_ascii_of_string p) -> In c (list_ascii_of_string s)).
Proof.
  revert p. induction s as [|c s IH]; intros p; cbn [split].
  - intros [<-|[]]. split; [intros [] | auto].
  - destruct (Ascii.eqb_spec c sep) as [->|Hne].
    + intros [<-|Hin]; [split; [intros [] | intros c []]|].
      destruct (IH p Hin) as [H1 H2]. split; [exact H1|].
      intros c Hc. right. now apply H2.
    + destruct (split sep s) as [|q qs] eqn:E; [now apply split_not_nil in E|].
      intros [<-|Hin].
      * destruct (IH q (or_introl eq_refl)) as [H1 H2]. split.
        -- intros [Heq|Hin]; [now apply Hne | now apply H1].
        -- intros c' [<-|Hc]; [now left | right; now apply H2].
      * destruct (IH p (or_intror Hin)) as [H1 H2]. split; [exact H1|].
        intros c' Hc. right. now apply H2.
Qed.

(** [trim] removes white space at both ends and nothing else. *)
Lemma trimStart_decompose (s : string) :
  exists pre, s = pre +:+ trimStart s /\
    forall c, In c (list_ascii_of_string pre) -> is_ws c = true.
Proof.
  induction s as [|a s (pre & IH & Hws)]; cbn [trimStart].
  - exists EmptyString. split; [reflexivity | intros c []].
  - destruct (is_ws a) eqn:E.
    + exists (String a pre).
      split; [change (String a s = String a (pre +:+ trimStart s)); now f_equal|].
      intros c [<-|Hc]; auto.
    + exists EmptyString. split; [reflexivity | intros c []].
Qed.

Lemma trimEnd_decompose (s : string) :
  exists post, s = trimEnd s +:+ post /\
    forall c, In c (list_ascii_of_string post) -> is_ws c = true.
Proof.
  induction s as [|a s (post & IH & Hws)]; cbn [trimEnd].
  - exists EmptyString. split; [reflexivity | intros c []].
  - destruct (trimEnd s) as [|b t] eqn:E.
    + destruct (is_ws a) eqn:Ea.
      * exists (String a post). change (s = post) in IH. subst s.
        split; [reflexivity|]. intros c [<-|Hc]; auto.
      * exists post. change (s = post) in IH. now subst s.
    + exists post.
      split; [change (String a s = String a (String b t +:+ post)); now f_equal
             | exact Hws].
Qed.

Lemma trim_decompose (s : string) :
  exists pre post, s = pre +:+ trim s +:+ post /\
    (forall c, In c (list_ascii_of_string pre) -> is_ws c = true) /\
    (forall c, In c (list_ascii_of_string post) -> is_ws c = true).
Proof.
  destruct (trimStart_decompose s) as (pre & Hs & Hpre).
  destruct (trimEnd_decompose (trimStart s)) as (post & Ht & Hpost).
  exists pre, post. unfold trim. split; [|split; assumption].
  now rewrite <- Ht.
Qed.

Lemma trim_first_char (s : string) :
  match trim s with
  | String c _ => is_ws c = false
  | EmptyString => True
  end.
Proof.
  unfold trim.
  assert (H : match trimStart s with String c _ => is_ws c = false | EmptyString => True end).
  { induction s as [|a s IH]; cbn [trimStart]; [exact I|].
    destruct (is_ws a) eqn:E; [exact IH | exact E]. }
  destruct (trimStart s) as [|a u]; cbn [trimEnd]; [exact I|].
  destruct (trimEnd u); [rewrite H; exact H | exact H].
Qed.

Lemma trimEnd_last_char (s t : string) (c : ascii) :
  trimEnd s = t +:+ String c EmptyString -> is_ws c = false.
Proof.
  revert t. induction s as [|a s IH]; intros t; cbn [trimEnd].
  - destruct t; discriminate.
  - destruct (trimEnd s) as [|b u] eqn:E.
    + destruct (is_ws a) eqn:Ea; [destruct t; discriminate|].
      destruct t as [|x t]; simpl; [now intros [= <-]|].
      intros [= _ H]. destruct t; discriminate.
    + destruct t as [|x t]; simpl; [discriminate|].
      intros [= _ H]. now apply (IH t).
Qed.

Lemma trim_last_char (s t : string) (c : ascii) :
  trim s = t +:+ String c EmptyString -> is_ws c = false.
Proof. apply trimEnd_last_char. Qed.

End SplitJoin.

(** ** The CSV reader *)

Section CsvProofs.
Import Csv.

Lemma render_row_map (i : nat) (row : list string) :
  render_row i row =
  map (fun c => {| tag := if i =? 0 then Th else Td; textContent := JsString.trim c |}) row.
Proof.
  unfold render_row.
  enough (H : forall acc,
    fold_left (fun tr c => tr ++ [{| tag := if i =? 0 then Th else Td;
                                     textContent := JsString.trim c |}]) row acc =
    acc ++ map (fun c => {| tag := if i =? 0 then Th else Td;
                            textContent := JsString.trim c |}) row)
    by apply (H []).
  induction row as [|c row IH]; intros acc; cbn [fold_left map].
  - now rewrite app_nil_r.
  - rewrite IH, <- app_assoc. reflexivity.
Qed.

Lemma render_rows_imap (rows : list (list string)) (i : nat) (t : table) :
  render_rows rows i t =
  t ++ imap (fun j row =>
               map (fun c => {| tag := if i + j =? 0 then Th else Td;
                                textContent := JsString.trim c |}) row) rows.
Proof.
  revert i t. induction rows as [|row rows IH]; intros i t; cbn [render_rows imap].
  - now rewrite app_nil_r.
  - rewrite IH, render_row_map, <- app_assoc. cbn [app]. rewrite Nat.add_0_r.
    do 2 f_equal. apply imap_ext. intros j r _. cbn. now rewrite Nat.add_succ_r.
Qed.

Lemma rows_rejoin (rows : list string) :
  map (JsString.join ",") (map (JsString.split comma) rows) = rows.
Proof.
  induction rows as [|r rows IH]; [reflexivity|]. cbn [map]. rewrite IH. f_equal.
  apply (join_split comma).
Qed.

(** The table is the grid of the rows of the text. *)
Lemma csv_onload_rows (text : string) (t : table) :
  onload text t = grid_view (rows_of text) /\
  length (onload text t) = length (rows_of text).
Proof.
  assert (H : onload text t = grid_view (rows_of text)).
  { unfold onload, grid_view. rewrite render_rows_imap. reflexivity. }
  split; [exact H|]. rewrite H. unfold grid_view. apply length_imap.
Qed.

End CsvProofs.

(** ** Candidate selector: the claims *)

Section SelectorClaims.
Import Selector Samples.

Lemma mainb_spec (e : elem) : mainb e = true <-> has_main_role e.
Proof.
  unfold mainb, has_main_role. destruct (role_of e) as [r|].
  - change "MAIN" with (JsString.toUpperCase "MAIN") at 1.
    rewrite includes_upper_spec. split; [eauto|]. now intros (r' & [= <-] & H).
  - split; [discriminate | now intros (r' & [=] & _)].
Qed.

Lemma creatorb_spec (e : elem) : creatorb e = true <-> has_creator_role e.
Proof.
  unfold creatorb, has_creator_role. destruct (role_of e) as [r|].
  - rewrite regex_alt_i_test_spec. split.
    + intros (w & Hw & H). eauto.
    + intros (r' & w & [= <-] & Hw & H). eauto.
  - split; [discriminate | now intros (r' & w & [=] & _)].
Qed.

Lemma find_first_with (q : elem -> bool) (l : list elem) (e : elem) :
  List.find q l = Some e -> exists i, first_with q l i e.
Proof.
  induction l as [|x l IH]; simpl; [discriminate|].
  destruct (q x) eqn:Hq.
  - intros [= <-]. exists 0. repeat split; auto. intros j e' Hj; lia.
  - intros H. destruct (IH H) as (i & Hi & He & Hb). exists (S i).
    repeat split; auto. intros [|j] e' Hlt Hj; simpl in Hj.
    + now injection Hj as <-.
    + apply (Hb j); [lia | assumption].
Qed.

Lemma find_is_none (q : elem -> bool) (l : list elem) :
  (forall e, In e l -> q e = false) -> List.find q l = None.
Proof.
  induction l as [|x l IH]; simpl; [reflexivity|]. intros H.
  rewrite (H x) by auto. apply IH. auto.
Qed.

Lemma protagonist_of_node (e : elem) (n : node_t) :
  node_of e = Some n ->
  protagonist_of e = Some {| p_name := name_or_empty n; p_image := image_or_empty n |}.
Proof. destruct e as [[r [n'|]]|]; simpl; intros [= <-]; reflexivity. Qed.

Lemma protagonist_named_node (e : elem) (n : node_t) :
  namedb e = true -> node_of e = Some n ->
  protagonist_named e = Some {| p_name := name_or_empty n; p_image := image_or_empty n |}.
Proof.
  destruct e as [[r [[[[[[|c s]|]]|] im f]|]]|]; simpl; try discriminate.
  intros _ [= <-]. reflexivity.
Qed.

Lemma staff_of_node (e : elem) (n : node_t) :
  node_of e = Some n -> staff_of e = Some {| s_name := name_or_empty n |}.
Proof. destruct e as [[r [n'|]]|]; simpl; intros [= <-]; reflexivity. Qed.

Lemma is_Some_node (e : elem) (r : option protagonist) :
  r = protagonist_of e -> is_Some r -> exists n, node_of e = Some n.
Proof.
  intros -> [p Hp]. destruct e as [[ro [n|]]|]; simpl in *; try discriminate. eauto.
Qed.

(** C1. Protagonist selection follows the fallback chain. On an edges array
    [l], with [vs] the edges that have a node: when some role contains
    MAIN (ignoring case) the main edge with the highest favourite count is
    selected, the earliest one on a tie; otherwise the edge with the
    highest count among those whose count is a number, the earliest one on
    a tie; otherwise the first edge with a non-empty name; otherwise there
    is no protagonist, which the table shows as empty name and image. The
    result carries the name and image of the selected node. *)
Theorem pickProtagonist_fallback_chain (h : store) (a : loc) (l : list elem) :
  h !! a = Some l ->
  let vs := List.filter validb l in
  let mains := List.filter mainb vs in
  let favs := List.filter numericb vs in
  let shows (r : option protagonist) (e : elem) :=
    exists n, node_of e = Some n /\
      r = Some {| p_name := name_or_empty n; p_image := image_or_empty n |} in
  (forall e, mainb e = true <-> has_main_role e) /\
  exists r h',
    pickProtagonist (Some {| edges := Some a |}) h = Some (r, h') /\
    (mains <> [] -> exists i e, first_max_at fav0 mains i e /\ shows r e) /\
    (mains = [] -> favs <> [] ->
       exists i e, first_max_at fav0 favs i e /\ shows r e) /\
    (mains = [] -> favs = [] ->
       forall i e, first_with namedb vs i e -> shows r e) /\
    (mains = [] -> favs = [] -> (forall e, In e vs -> namedb e = false) ->
       r = None /\
       protagonist_or_blank r = {| p_name := EmptyString; p_image := EmptyString |}).
Proof.
  intros Ha vs mains favs shows. split; [apply mainb_spec|].
  destruct (pickProtagonist_run h a l Ha) as (r & news & Hrun & Hm & Hf & Hn).
  fold vs mains favs in Hm, Hf, Hn.
  exists r, (h ++ news). split; [exact Hrun|]. split; [|split; [|split]].
  - intros H. destruct (Hm H) as (i & e & Hmax & Hr & Hs).
    destruct (is_Some_node e r Hr Hs) as [n Hnode].
    exists i, e. split; [assumption|]. exists n. split; [assumption|].
    now rewrite Hr, (protagonist_of_node e n Hnode).
  - intros H H'. destruct (Hf H H') as (i & e & Hmax & Hr & Hs).
    destruct (is_Some_node e r Hr Hs) as [n Hnode].
    exists i, e. split; [assumption|]. exists n. split; [assumption|].
    now rewrite Hr, (protagonist_of_node e n Hnode).
  - intros H H' i e (Hi & Hq & Hb). specialize (Hn H H').
    assert (Hfind : List.find namedb vs = Some e).
    { clear - Hi Hq Hb. revert i Hi Hb. induction vs as [|x xs IH]; intros i Hi Hb.
      - destruct i; discriminate.
      - destruct i as [|i]; simpl in Hi.
        + injection Hi as ->. simpl. now rewrite Hq.
        + simpl. rewrite (Hb 0 x) by (simpl; auto; lia).
          apply (IH i Hi). intros j e' Hj He'. apply (Hb (S j)); [lia | exact He']. }
    rewrite Hfind in Hn.
    assert (Hnode : exists n, node_of e = Some n).
    { unfold namedb in Hq. destruct (node_of e); [eauto | discriminate]. }
    destruct Hnode as [n Hnode]. exists n. split; [assumption|].
    now rewrite Hn, (protagonist_named_node e n Hq Hnode).
  - intros H H' Hnone. specialize (Hn H H').
    rewrite (find_is_none namedb vs Hnone) in Hn. subst r. split; reflexivity.
Qed.

(** The chain at [300; 700; 200] without MAIN roles: the 700 edge. *)
Lemma pickProtagonist_fallback_chain_witness :
  [edges_300_700_200] !! 0 = Some edges_300_700_200 /\
  exists r h',
    pickProtagonist (Some {| edges := Some 0 |}) [edges_300_700_200] = Some (r, h') /\
    r = Some {| p_name := "second"; p_image := EmptyString |}.
Proof.
  split; [reflexivity|].
  destruct (pickProtagonist_fallback_chain [edges_300_700_200] 0 edges_300_700_200 eq_refl)
    as (_ & r & h' & Hrun & _ & Hfav & _).
  exists r, h'. split; [exact Hrun|].
  destruct (Hfav eq_refl ltac:(discriminate)) as (i & e & (Hi & Hall & _) & n & Hn & ->).
  pose proof (Hall 1 _ eq_refl) as H700.
  destruct i as [|[|[|i]]]; simpl in Hi; try discriminate;
    injection Hi as <-; vm_compute in H700; try (exfalso; apply H700; reflexivity).
  injection Hn as <-. reflexivity.
Defined.

(** C7. Main-creator selection. On a staff edges array [l], with [vs] the
    edges that have a node: the considered set is the edges whose role
    contains story, original, creator or author (ignoring case), or all of
    [vs] when no role does; the edge of the considered set with the highest
    favourite count is selected, a missing count being 0 and the earliest
    edge winning a tie; the result holds the name of the selected node and
    nothing else. *)
Theorem pickMainStaff_selection (h : store) (a : loc) (l : list elem) :
  h !! a = Some l ->
  let vs := List.filter validb l in
  let cs := List.filter creatorb vs in
  let considered := match cs with [] => vs | _ :: _ => cs end in
  (forall e, creatorb e = true <-> has_creator_role e) /\
  exists r h',
    pickMainStaff (Some {| edges := Some a |}) h = Some (r, h') /\
    (vs = [] -> r = None) /\
    (vs <> [] ->
       exists i e n, first_max_at fav0 considered i e /\ node_of e = Some n /\
         r = Some {| s_name := name_or_empty n |}).
Proof.
  intros Ha vs cs considered. split; [apply creatorb_spec|].
  destruct (pickMainStaff_run h a l Ha) as (r & news & Hrun & Hnil & Hpick).
  fold vs cs considered in Hnil, Hpick.
  exists r, (h ++ news). split; [exact Hrun|]. split; [exact Hnil|].
  intros Hne. destruct (Hpick Hne) as (i & e & Hmax & Hr & [s Hs]).
  assert (Hnode : exists n, node_of e = Some n).
  { rewrite Hs in Hr. destruct e as [[ro [n|]]|]; simpl in *; try discriminate. eauto. }
  destruct Hnode as [n Hnode]. exists i, e, n. repeat split; try apply Hmax.
  - exact Hnode.
  - now rewrite Hr, (staff_of_node e n Hnode).
Qed.

(** On the sample the 500 edge is no creator, the missing count is 0, and
    of the two creators with 20 the earlier one is picked. *)
Lemma pickMainStaff_selection_witness :
  [staff_sample] !! 0 = Some staff_sample /\
  exists r h',
    pickMainStaff (Some {| edges := Some 0 |}) [staff_sample] = Some (r, h') /\
    r = Some {| s_name := "creator" |}.
Proof.
  split; [reflexivity|].
  destruct (pickMainStaff_selection [staff_sample] 0 staff_sample eq_refl)
    as (_ & r & h' & Hrun & _ & Hpick).
  exists r, h'. split; [exact Hrun|].
  destruct (Hpick ltac:(discriminate)) as (i & e & n & (Hi & Hall & Hbefore) & Hn & ->).
  pose proof (Hall 1 _ eq_refl) as H1. pose proof (Hall 2 _ eq_refl) as H2.
  destruct i as [|[|[|i]]]; simpl in Hi; try discriminate; injection Hi as <-.
  - vm_compute in H1. exfalso. apply H1. reflexivity.
  - injection Hn as <-. reflexivity.
  - assert (H : 1 < 2) by lia. pose proof (Hbefore 1 _ H eq_refl) as Hlt.
    vm_compute in Hlt. discriminate.
Defined.

(** C10. Neither picker mutates its input. Whatever the argument ([null],
    an object whose [edges] is no array, or one whose [edges] is an
    allocated array), the call returns, and every array that existed before
    the call, the argument's edges array among them, has the same elements
    in the same order afterwards: filtering allocates new arrays and only
    those are sorted. *)
Theorem pickers_leave_input_unchanged (h : store) (c : option connection) :
  (forall conn a, c = Some conn -> edges conn = Some a -> is_Some (h !! a)) ->
  (exists r h', pickProtagonist c h = Some (r, h') /\
     forall b x, h !! b = Some x -> h' !! b = Some x) /\
  (exists r h', pickMainStaff c h = Some (r, h') /\
     forall b x, h !! b = Some x -> h' !! b = Some x).
Proof.
  intros Halloc. destruct c as [[[a|]]|].
  - destruct (Halloc _ a eq_refl eq_refl) as [l Ha].
    destruct (pickProtagonist_run h a l Ha) as (r1 & n1 & Hr1 & _).
    destruct (pickMainStaff_run h a l Ha) as (r2 & n2 & Hr2 & _).
    split; [exists r1, (h ++ n1) | exists r2, (h ++ n2)];
      (split; [assumption|]); intros b x Hb; now apply lookup_app_l_Some.
  - split; exists None, h; split; auto.
  - split; exists None, h; split; auto.
Qed.

(** On the staff sample, whose creator edges get sorted, the array at
    address 0 still reads as before. *)
Lemma pickers_leave_input_unchanged_witness :
  (forall conn a, Some {| edges := Some 0 |} = Some conn -> edges conn = Some a ->
     is_Some ([staff_sample] !! a)) /\
  (exists r h', pickProtagonist (Some {| edges := Some 0 |}) [staff_sample] = Some (r, h') /\
     h' !! 0 = Some staff_sample) /\
  (exists r h', pickMainStaff (Some {| edges := Some 0 |}) [staff_sample] = Some (r, h') /\
     h' !! 0 = Some staff_sample).
Proof.
  assert (Hyp : forall conn a, Some {| edges := Some 0 |} = Some conn ->
            edges conn = Some a -> is_Some ([staff_sample] !! a)).
  { intros conn a [= <-] [= <-]. exists staff_sample. reflexivity. }
  split; [exact Hyp|].
  destruct (pickers_leave_input_unchanged [staff_sample] _ Hyp)
    as ((r1 & h1 & Hr1 & Hf1) & (r2 & h2 & Hr2 & Hf2)).
  split; [exists r1, h1 | exists r2, h2]; (split; [assumption|]); auto.
Defined.

End SelectorClaims.

(** ** Category flow: the claims *)

Section CatalogClaims.
Import Catalog.

Lemma format_and_country_table (c : category) :
  format_and_country (Some c) = mapping_table c.
Proof. destruct c; reflexivity. Qed.

Lemma build_variables_filters (s : state_t) :
  (v_format_in (build_variables s), v_country (build_variables s)) =
  format_and_country (currentFormat s).
Proof.
  unfold build_variables. now destruct (format_and_country (currentFormat s)).
Qed.

(** C2. With a category selected, the variables of the request that
    [doSearch] sends follow the table: NOVEL gives [format_in = [NOVEL]] and
    no [country]; MANGA, MANHWA and MANHUA give [format_in = [MANGA]] with
    [country] JP, KR and CN. *)
Theorem query_builder_category_table (w : world) (pg : Z) (c : category) :
  currentFormat (st w) = Some c ->
  exists w' v,
    doSearch_start pg w = Awaiting w' /\
    requests w' = requests w ++ [v] /\
    v = build_variables (st w') /\
    (v_format_in v, v_country v) = mapping_table c /\
    match c with
    | NOVEL => v_format_in v = ["NOVEL"] /\ v_country v = None
    | MANGA => v_format_in v = ["MANGA"] /\ v_country v = Some "JP"
    | MANHWA => v_format_in v = ["MANGA"] /\ v_country v = Some "KR"
    | MANHUA => v_format_in v = ["MANGA"] /\ v_country v = Some "CN"
    end.
Proof.
  intros Hc. unfold doSearch_start. rewrite Hc.
  eexists. eexists. split; [reflexivity|]. split; [reflexivity|].
  split; [reflexivity|]. cbn [st fetchData_send setTable setStatus setError with_ui].
  rewrite build_variables_filters. cbn [currentFormat].
  rewrite format_and_country_table. split; [reflexivity|].
  destruct c; split; reflexivity.
Qed.

(** The NOVEL button on a fresh page: [format_in = [NOVEL]], no country. *)
Lemma query_builder_category_table_witness :
  currentFormat (st (select_category NOVEL (init "dune"))) = Some NOVEL /\
  exists w' v,
    doSearch_start 1 (select_category NOVEL (init "dune")) = Awaiting w' /\
    requests w' = [v] /\
    v_format_in v = ["NOVEL"] /\ v_country v = None /\ v_search v = Some "dune".
Proof.
  split; [reflexivity|].
  destruct (query_builder_category_table (select_category NOVEL (init "dune")) 1 NOVEL eq_refl)
    as (w' & v & Hstart & Hreq & Hv & _ & Hf & Hc).
  exists w', v. repeat split; try assumption.
  injection Hstart as <-. subst v. reflexivity.
Defined.

End CatalogClaims.

(** ** Request coordinator: the claims *)

Section CoordinatorClaims.
Import Coordinator Samples.

(** C3. Resolving the same key twice. After a [resolve] that returned a
    page, the page is in the cache under that key, and a second [resolve]
    with the same search text, page and page size returns that page from
    the cache whatever the transport would answer: no request is sent and
    no controller is created or aborted (the transport state is the same),
    and the cache is the same. *)
Theorem resolve_same_key_twice
    (search : string) (pg perPg : Z) (r r' : response) (w w1 : world) (page : page_data) :
  resolve search pg perPg r w = (Some page, w1) ->
  map_get (cacheKey search pg perPg) (cache (vars w1)) = Some page /\
  exists w2,
    fetchAnilist_start search pg perPg w1 = Hit page w2 /\
    resolve search pg perPg r' w1 = (Some page, w2) /\
    requests (net w2) = requests (net w1) /\
    net w2 = net w1 /\
    cache (vars w2) = cache (vars w1).
Proof.
  intros Hres.
  assert (Hcached : map_get (cacheKey search pg perPg) (cache (vars w1)) = Some page).
  { unfold resolve in Hres.
    destruct (map_get (cacheKey search pg perPg) (cache (vars w))) as [p|] eqn:E.
    - destruct (start_hit search pg perPg w p E) as (w' & Hs & _ & Hc & _).
      rewrite Hs in Hres. injection Hres as <- <-. now rewrite Hc.
    - destruct (start_miss search pg perPg w E) as (w' & Hs & Hc & _).
      rewrite Hs in Hres.
      destruct (response_cases (transport (controllers (net w)) r w')) as [[p Hp]|Hno].
      + destruct (settle_stored _ (cacheKey search pg perPg) r p w' Hp)
          as (w'' & Hsettle & _ & _ & Hc'').
        rewrite Hsettle in Hres. injection Hres as <- <-.
        rewrite Hc'', Hc, (map_set_absent _ p _ E).
        now apply map_get_after_evict.
      + destruct (settle_keeps_cache _ (cacheKey search pg perPg) r w' Hno)
          as (_ & _ & _ & Hnone).
        rewrite Hres in Hnone. discriminate. }
  split; [exact Hcached|].
  destruct (start_hit search pg perPg w1 page Hcached) as (w2 & Hs & Hn & Hc & _).
  exists w2. repeat split; try assumption.
  - unfold resolve. now rewrite Hs.
  - now rewrite Hn.
Qed.

(** The first search on a fresh page is answered with a page; the same
    search again is served from the cache although the transport would now
    fail. *)
Lemma resolve_same_key_twice_witness :
  resolve "naruto" 1 20 (ok sample_page) (init "naruto" None) =
    (Some sample_page, snd (resolve "naruto" 1 20 (ok sample_page) (init "naruto" None))) /\
  exists w2,
    resolve "naruto" 1 20 (HttpError 500 EmptyString "Internal Server Error")
      (snd (resolve "naruto" 1 20 (ok sample_page) (init "naruto" None))) =
      (Some sample_page, w2) /\
    length (requests (net w2)) = 1.
Proof.
  assert (H : resolve "naruto" 1 20 (ok sample_page) (init "naruto" None) =
    (Some sample_page, snd (resolve "naruto" 1 20 (ok sample_page) (init "naruto" None))))
    by reflexivity.
  split; [exact H|].
  destruct (resolve_same_key_twice _ _ _ _
              (HttpError 500 EmptyString "Internal Server Error") _ _ _ H)
    as (_ & w2 & _ & Hres & Hreq & _).
  exists w2. split; [exact Hres|]. now rewrite Hreq.
Defined.

(** C4. The cache is a first-in first-out queue bounded at 50 entries.
    Over any sequence of successful requests its keys are those of the
    queue of the specification, in which a key that is present stays in
    its place (a cache hit does not refresh it) and a new key goes last,
    the oldest key leaving when there are more than 50. After 51 distinct
    keys on an empty cache it holds the last 50 of them, the first one
    being absent. A request for a cached key leaves the cache as it is,
    order included, and the cache never exceeds 50 entries. *)
Theorem cache_fifo_bounded (w : world) (cs : list call) :
  wf w ->
  Forall (fun c => exists p, c_response c = ok p) cs ->
  keys (cache (vars (run cs w))) =
    fold_left (fifo_insert 50) (map call_key cs) (keys (cache (vars w))) /\
  (cache (vars w) = [] -> length cs = 51 -> NoDup (map call_key cs) ->
     keys (cache (vars (run cs w))) = tl (map call_key cs) /\
     length (cache (vars (run cs w))) = 50 /\
     forall c0, head cs = Some c0 ->
       map_has (call_key c0) (cache (vars (run cs w))) = false) /\
  (forall search pg perPg r p,
     map_get (cacheKey search pg perPg) (cache (vars w)) = Some p ->
     cache (vars (snd (resolve search pg perPg r w))) = cache (vars w)) /\
  (length (cache (vars w)) <= 50 -> length (cache (vars (run cs w))) <= 50).
Proof.
  intros Hwf Hok. split; [now apply run_fifo|]. split; [|split].
  - intros Hempty Hlen Hnd.
    assert (Hkeys : keys (cache (vars (run cs w))) = tl (map call_key cs)).
    { rewrite (run_fifo cs w Hwf Hok), Hempty. cbn [keys map].
      rewrite (fifo_distinct 50 (map call_key cs) []) by (cbn; auto; lia).
      cbn [app]. rewrite length_map, Hlen. now destruct (map call_key cs). }
    split; [exact Hkeys|]. split.
    + rewrite <- keys_length, Hkeys.
      destruct cs as [|c cs]; [discriminate|]. cbn [map tl length] in *.
      rewrite length_map. lia.
    + intros c0 Hc0. destruct cs as [|c cs]; [discriminate|]. injection Hc0 as ->.
      cbn [map tl] in *. apply NoDup_cons in Hnd as [Hnotin _].
      destruct (map_has (call_key c0) (cache (vars (run (c0 :: cs) w)))) eqn:E;
        [|reflexivity].
      apply map_has_get in E as [p Hp]. apply map_get_some_keys in Hp.
      rewrite Hkeys in Hp. exfalso. apply Hnotin. now apply list_elem_of_In.
  - intros search pg perPg r p Hp.
    destruct (resolve_hit search pg perPg r p w Hp) as (w' & -> & Hc & _). exact Hc.
  - apply run_bound.
Qed.

Lemma wf_init (q : string) (n : option Z) : wf (init q n).
Proof. split; [intros c [] | intros c [=]]. Qed.

Lemma calls_51_ok : Forall (fun c => exists p, c_response c = ok p) calls_51.
Proof.
  unfold calls_51. apply Forall_forall. intros c Hc.
  apply list_elem_of_In, in_map_iff in Hc as (i & <- & _). now eexists.
Qed.

(** Pages 1 to 51 on a fresh page: 50 entries are left and page 1 is gone. *)
Lemma cache_fifo_bounded_witness :
  wf (init "naruto" None) /\
  Forall (fun c => exists p, c_response c = ok p) calls_51 /\
  cache (vars (init "naruto" None)) = [] /\
  length calls_51 = 51 /\
  NoDup (map call_key calls_51) /\
  length (cache (vars (run calls_51 (init "naruto" None)))) = 50 /\
  map_has (cacheKey "naruto" 1 20) (cache (vars (run calls_51 (init "naruto" None)))) = false.
Proof.
  assert (Hnd : NoDup (map call_key calls_51)).
  { apply (bool_decide_unpack _). vm_compute. exact I. }
  split; [apply wf_init|]. split; [apply calls_51_ok|].
  split; [reflexivity|]. split; [reflexivity|]. split; [exact Hnd|].
  destruct (cache_fifo_bounded (init "naruto" None) calls_51 (wf_init _ _) calls_51_ok)
    as (_ & H51 & _).
  destruct (H51 eq_refl eq_refl Hnd) as (_ & Hlen & Hgone).
  split; [exact Hlen|]. exact (Hgone _ eq_refl).
Defined.

(** A hit on the oldest entry does not protect it: after pages 1 to 50,
    page 1 again and then page 51, page 1 is the entry that is gone. *)
Example cache_hit_does_not_refresh :
  keys (cache (vars (run calls_with_hit (init "naruto" None)))) = tl (map call_key calls_51).
Proof. vm_compute. reflexivity. Qed.

(** C5. An error list in the response. The exception raised for a payload
    with an error list carries the reported messages joined with "; " (a
    missing message counting as empty). In the free-text flow, which has
    the cache and checks the HTTP status first: when the status is 2xx the
    request returns [null], the error box shows "Errore: " followed by that
    message, and the cache is unchanged; when the status is not 2xx the
    error list is not read, the error box shows "Errore: HTTP ", the
    status, a dash and the text of the body (the status text when the
    body is empty), and the cache is unchanged as well. In the category
    flow, which has no cache and does not look at the status, the error
    box shows the joined message itself, or "Error" when it is empty. *)
Theorem api_error_list_surfaced (errs : list Js.api_error) :
  (forall search pg perPg d w,
     wf w ->
     map_get (cacheKey search pg perPg) (cache (vars w)) = None ->
     exists w',
       resolve search pg perPg (Json {| errors := Some errs; data := d |}) w = (None, w') /\
       errorVisible (ui w') = true /\
       errorText (ui w') = "Errore: " +:+ Js.join_messages errs /\
       statusText (ui w') = "Errore durante il caricamento." /\
       cache (vars w') = cache (vars w)) /\
  (forall search pg perPg status body statusText w,
     wf w ->
     map_get (cacheKey search pg perPg) (cache (vars w)) = None ->
     exists w',
       resolve search pg perPg (HttpError status body statusText) w = (None, w') /\
       errorVisible (ui w') = true /\
       errorText (ui w') =
         "Errore: " +:+ ("HTTP " +:+ JsString.of_Z status +:+ " — " +:+
                         match body with EmptyString => statusText | t => t end) /\
       cache (vars w') = cache (vars w)) /\
  (forall d w,
     let r := Catalog.Json {| Catalog.errors := Some errs; Catalog.data := d |} in
     Catalog.fetchData_receive r = inr (Js.Error (Js.join_messages errs)) /\
     Catalog.errorText (Catalog.ui (Catalog.doSearch_finish r w)) =
       match Js.join_messages errs with
       | EmptyString => "Error"
       | m => m
       end).
Proof.
  split; [|split].
  - intros search pg perPg d w Hwf E. unfold resolve.
    destruct (start_miss search pg perPg w E) as (w' & -> & Hc & _ & _ & Ha & _).
    unfold fetchAnilist_settle. rewrite transport_live by (rewrite Ha; now apply wf_fresh).
    cbn. eexists. split; [reflexivity|]. cbn. repeat split. exact Hc.
  - intros search pg perPg status body statusText w Hwf E. unfold resolve.
    destruct (start_miss search pg perPg w E) as (w' & -> & Hc & _ & _ & Ha & _).
    unfold fetchAnilist_settle. rewrite transport_live by (rewrite Ha; now apply wf_fresh).
    cbn -[JsString.of_Z String.append]. eexists. split; [reflexivity|].
    cbn -[JsString.of_Z String.append]. repeat split. exact Hc.
  - intros d w r. split; [reflexivity|].
    unfold Catalog.doSearch_finish. cbn.
    now destruct (Js.join_messages errs).
Qed.

Lemma join_bad_worse : Js.join_messages bad_worse = "bad; worse".
Proof. reflexivity. Qed.

(** The response of the specification's example on a fresh page, with a
    2xx status and with status 400. *)
Lemma api_error_list_surfaced_witness :
  wf (init "naruto" None) /\
  map_get (cacheKey "naruto" 1 20) (cache (vars (init "naruto" None))) = None /\
  (exists w',
     resolve "naruto" 1 20 bad_worse_response (init "naruto" None) = (None, w') /\
     errorText (ui w') = "Errore: bad; worse" /\
     cache (vars w') = []) /\
  (exists w',
     resolve "naruto" 1 20 bad_worse_status_400 (init "naruto" None) = (None, w') /\
     errorText (ui w') = "Errore: HTTP 400 — {'errors':[{'message':'bad'},{'message':'worse'}]}" /\
     cache (vars w') = []).
Proof.
  split; [apply wf_init|]. split; [reflexivity|].
  destruct (api_error_list_surfaced bad_worse) as (H2xx & Hnot & _). split.
  - destruct (H2xx "naruto" 1%Z 20%Z (PageMissing data_null) (init "naruto" None)
                (wf_init _ _) eq_refl) as (w' & Hres & _ & Htext & _ & Hcache).
    exists w'. split; [exact Hres|]. split; [exact Htext | exact Hcache].
  - destruct (Hnot "naruto" 1%Z 20%Z 400%Z
                "{'errors':[{'message':'bad'},{'message':'worse'}]}" "Bad Request"
                (init "naruto" None) (wf_init _ _) eq_refl)
      as (w' & Hres & _ & Htext & Hcache).
    exists w'. split; [exact Hres|]. split; [exact Htext | exact Hcache].
Defined.

(** In the flow that has the cache the text shown for the example is not
    "bad; worse": it carries the prefix. *)
Lemma api_error_text_has_prefix :
  errorText (ui (snd (resolve "naruto" 1 20 bad_worse_response (init "naruto" None))))
    = "Errore: bad; worse" /\
  errorText (ui (snd (resolve "naruto" 1 20 bad_worse_response (init "naruto" None))))
    <> Js.join_messages bad_worse.
Proof. split; [reflexivity | discriminate]. Qed.

(** C6. A cancelled request. Sending a new request aborts the controller
    of the previous one. When a request whose controller has been aborted
    ends, whatever the server answered, [fetchAnilist] returns [null] and
    [doSearch] shows nothing: the cache, [lastPageInfo], the transport, the
    error box, the table and the pager are as they were. The status text
    is set to the neutral "Richiesta annullata." and the search button is
    enabled again; these are the only two writes. *)
Theorem cancelled_request_effects :
  (forall search pg perPg w old,
     abortController (vars w) = Some old ->
     map_get (cacheKey search pg perPg) (cache (vars w)) = None ->
     exists ctl key w',
       fetchAnilist_start search pg perPg w = Pending ctl key w' /\
       In old (aborted (net w'))) /\
  (forall ctl key r w,
     In ctl (aborted (net w)) ->
     let w' := doSearch_finish ctl key r w in
     fetchAnilist_settle ctl key r w = (None, w') /\
     w' = setSearchBtnDisabled false (setStatus "Richiesta annullata." w) /\
     vars w' = vars w /\ net w' = net w /\
     errorVisible (ui w') = errorVisible (ui w) /\
     errorText (ui w') = errorText (ui w) /\
     tableHolder (ui w') = tableHolder (ui w) /\
     pager (ui w') = pager (ui w) /\
     statusText (ui w') = "Richiesta annullata." /\
     searchBtnDisabled (ui w') = false).
Proof.
  split.
  - intros search pg perPg w old Hold E.
    destruct (start_miss search pg perPg w E) as (w' & Hs & _ & _ & _ & Ha & _).
    exists (controllers (net w)), (cacheKey search pg perPg), w'.
    split; [exact Hs|]. rewrite Ha, Hold. apply in_or_app. right. now left.
  - intros ctl key r w Hin. cbv zeta. unfold doSearch_finish, fetchAnilist_settle.
    rewrite (transport_cancelled ctl r w Hin). cbn. repeat split.
Qed.

(** "one" is pending when "two" is sent: the controller of "one" is aborted,
    and when "one" ends, even with a page, nothing of it is kept. *)
Lemma cancelled_request_effects_witness :
  abortController (vars one_pending) = Some 0 /\
  map_get (cacheKey "two" 1 20) (cache (vars one_pending)) = None /\
  In 0 (aborted (net two_pending)) /\
  fetchAnilist_settle 0 (cacheKey "one" 1 20) (ok sample_page) two_pending =
    (None, doSearch_finish 0 (cacheKey "one" 1 20) (ok sample_page) two_pending) /\
  cache (vars (doSearch_finish 0 (cacheKey "one" 1 20) (ok sample_page) two_pending)) = [].
Proof.
  destruct cancelled_request_effects as [Hsend Hend].
  split; [reflexivity|]. split; [reflexivity|].
  destruct (Hsend "two" 1%Z 20%Z one_pending 0 eq_refl eq_refl)
    as (ctl & key & w' & Hs & Hin).
  assert (Hw : w' = two_pending) by (unfold two_pending; now rewrite Hs).
  rewrite Hw in Hin. split; [exact Hin|].
  destruct (Hend 0 (cacheKey "one" 1 20) (ok sample_page) two_pending Hin)
    as (Hsettle & _ & Hvars & _).
  split; [exact Hsettle|]. now rewrite Hvars.
Defined.

(** The end of the cancelled request "one" does write the status: it
    replaces the loading text of "two", which is still pending. *)
Lemma cancelled_request_writes_status :
  In 0 (aborted (net two_pending)) /\
  statusText (ui two_pending) = "Caricamento…" /\
  statusText (ui (snd (fetchAnilist_settle 0 (cacheKey "one" 1 20) (ok sample_page)
                         two_pending)))
    = "Richiesta annullata." /\
  statusText (ui (snd (fetchAnilist_settle 0 (cacheKey "one" 1 20) (ok sample_page)
                         two_pending)))
    <> statusText (ui two_pending).
Proof.
  split; [now left|]. split; [reflexivity|]. split; [reflexivity|]. discriminate.
Qed.

(** C8. Validation stops before any request. A category search without a
    category shows "Seleziona una sottocategoria." in the error box and
    returns; a free-text search whose trimmed text is empty shows
    "Inserisci un termine di ricerca." in the status line and returns. In
    both cases [doSearch] ends there: the list of requests sent is
    unchanged, and in the free-text flow no controller is created or
    aborted. *)
Theorem validation_fails_fast :
  (forall pg w,
     Catalog.currentFormat (Catalog.st w) = None ->
     exists w',
       Catalog.doSearch_start pg w = Catalog.Returned w' /\
       Catalog.requests w' = Catalog.requests w /\
       Catalog.errorVisible (Catalog.ui w') = true /\
       Catalog.errorText (Catalog.ui w') = "Seleziona una sottocategoria.") /\
  (forall pg w,
     JsString.trim (searchInputValue (ui w)) = EmptyString ->
     exists w',
       doSearch_start pg w = Returned w' /\
       requests (net w') = requests (net w) /\
       net w' = net w /\
       statusText (ui w') = "Inserisci un termine di ricerca.").
Proof.
  split.
  - intros pg w Hnone. unfold Catalog.doSearch_start. rewrite Hnone.
    eexists. split; [reflexivity|]. repeat split.
  - intros pg w Hempty. unfold doSearch_start. rewrite Hempty.
    eexists. split; [reflexivity|]. repeat split.
Qed.

(** A fresh category page without a category, and a free-text page whose
    input holds blanks only. *)
Lemma validation_fails_fast_witness :
  Catalog.currentFormat (Catalog.st (Catalog.init "dune")) = None /\
  JsString.trim (searchInputValue (ui (init "   " None))) = EmptyString /\
  (exists w', Catalog.doSearch_start 1 (Catalog.init "dune") = Catalog.Returned w' /\
     Catalog.requests w' = []) /\
  (exists w', doSearch_start 1 (init "   " None) = Returned w' /\
     requests (net w') = []).
Proof.
  destruct validation_fails_fast as [Hcat Htext].
  split; [reflexivity|]. split; [reflexivity|]. split.
  - destruct (Hcat 1%Z (Catalog.init "dune") eq_refl) as (w' & Hs & Hreq & _).
    exists w'. split; [exact Hs | exact Hreq].
  - destruct (Htext 1%Z (init "   " None) eq_refl) as (w' & Hs & Hreq & _).
    exists w'. split; [exact Hs | exact Hreq].
Defined.

End CoordinatorClaims.

(** ** The CSV reader: the claim *)

Section CsvClaims.
Import Csv.

(** C9. The CSV reader maps the text to a literal grid of strings. With
    [rows] the trimmed text split on newline and each row split on comma:
    the table built by [onload] has one [tr] per row and one cell per piece,
    in order, each showing its piece trimmed; the cells of the first row
    are [th], all others [td]; joining the pieces with commas and the rows
    with newlines gives the trimmed text back, so nothing is unquoted,
    unescaped or dropped; and no piece contains a comma or a newline. The
    previous content of the table plays no part. *)
Theorem csv_onload_grid (text : string) (t : table) :
  let rows := map (JsString.split comma)
                  (JsString.split newline (JsString.trim text)) in
  onload text t = grid_view rows /\
  (forall i row, rows !! i = Some row ->
     onload text t !! i =
       Some (map (fun c => {| tag := if i =? 0 then Th else Td;
                              textContent := JsString.trim c |}) row)) /\
  length (onload text t) = length rows /\
  rows <> [] /\
  JsString.join (String newline EmptyString) (map (JsString.join ",") rows) =
    JsString.trim text /\
  (forall row piece, In row rows -> In piece row ->
     ~ In comma (list_ascii_of_string piece) /\
     ~ In newline (list_ascii_of_string piece)).
Proof.
  intros rows.
  assert (Hgrid : onload text t = grid_view rows).
  { unfold onload, grid_view, rows_of. fold rows.
    rewrite render_rows_imap. reflexivity. }
  split; [exact Hgrid|]. split; [|split; [|split; [|split]]].
  - intros i row Hi. rewrite Hgrid. unfold grid_view.
    rewrite list_lookup_imap, Hi. reflexivity.
  - rewrite Hgrid. unfold grid_view. apply length_imap.
  - unfold rows. intros H. apply map_eq_nil in H. now apply split_not_nil in H.
  - unfold rows. rewrite rows_rejoin. apply join_split.
  - intros row piece Hrow Hpiece. unfold rows in Hrow.
    apply in_map_iff in Hrow as (line & <- & Hline).
    destruct (split_pieces comma line piece Hpiece) as [Hc Hsub].
    destruct (split_pieces newline _ line Hline) as [Hn _].
    split; [exact Hc|]. intros Hin. apply Hn. now apply Hsub.
Qed.

(** Quotes are ordinary characters: a quoted comma still splits. *)
Example csv_quotes_are_literal :
  onload "name,note
x,'a, b' " [] =
  [[{| tag := Th; textContent := "name" |}; {| tag := Th; textContent := "note" |}];
   [{| tag := Td; textContent := "x" |}; {| tag := Td; textContent := "'a" |};
    {| tag := Td; textContent := "b'" |}]].
Proof. reflexivity. Qed.

End CsvClaims.

(** ** [escapeHtml] *)

Section HtmlProofs.
Import Html.

Lemma append_cons (x : ascii) (a b : string) :
  String x a +:+ b = String x (a +:+ b).
Proof. reflexivity. Qed.

Lemma append_assoc (a b c : string) : (a +:+ b) +:+ c = a +:+ (b +:+ c).
Proof.
  induction a as [|x a IH]; [reflexivity|]. now rewrite !append_cons, IH.
Qed.

Lemma append_nil_r (a : string) : a +:+ EmptyString = a.
Proof.
  induction a as [|x a IH]; [reflexivity|]. now rewrite append_cons, IH.
Qed.

Lemma chars_append (a b : string) :
  list_ascii_of_string (a +:+ b) = list_ascii_of_string a ++ list_ascii_of_string b.
Proof.
  induction a as [|x a IH]; [reflexivity|].
  rewrite append_cons. cbn [list_ascii_of_string app]. now rewrite IH.
Qed.

Lemma replaceAll_append (c : ascii) (rep s t : string) :
  replaceAll c rep (s +:+ t) = replaceAll c rep s +:+ replaceAll c rep t.
Proof.
  induction s as [|a s IH]; [reflexivity|].
  rewrite append_cons. cbn [replaceAll].
  destruct (Ascii.eqb a c); rewrite IH; [now rewrite append_assoc | reflexivity].
Qed.

(** A pass leaves text without its character as it is. *)
Lemma replaceAll_absent (c : ascii) (rep s : string) :
  ~ In c (list_ascii_of_string s) -> replaceAll c rep s = s.
Proof.
  induction s as [|a s IH]; simpl; [reflexivity|]. intros H.
  destruct (Ascii.eqb_spec a c) as [->|Hne]; [exfalso; apply H; now left|].
  rewrite IH; [reflexivity|]. intros Hin. apply H. now right.
Qed.

(** After a pass, a character of the result is a character of the
    replacement or a character of the text other than the one replaced. *)
Lemma replaceAll_chars (c : ascii) (rep s : string) (x : ascii) :
  In x (list_ascii_of_string (replaceAll c rep s)) ->
  In x (list_ascii_of_string rep) \/ (x <> c /\ In x (list_ascii_of_string s)).
Proof.
  induction s as [|a s IH]; [simpl; tauto|]. cbn [replaceAll].
  destruct (Ascii.eqb_spec a c) as [->|Hne].
  - rewrite chars_append, in_app_iff. intros [H|H]; [now left|].
    destruct (IH H) as [H'|[H1 H2]]; [now left | right; split; [assumption | now right]].
  - cbn [list_ascii_of_string]. intros [<-|H]; [right; split; [assumption | now left]|].
    destruct (IH H) as [H'|[H1 H2]]; [now left | right; split; [assumption | now right]].
Qed.

End HtmlProofs.

Section HtmlClaims.
Import Html.

Lemma escapeHtml_append (s t : string) :
  escapeHtml (Some (s +:+ t)) = escapeHtml (Some s) +:+ escapeHtml (Some t).
Proof. unfold escapeHtml. now rewrite !replaceAll_append. Qed.

Lemma escapeHtml_char (c : ascii) :
  escapeHtml (Some (String c EmptyString)) = entity c.
Proof.
  unfold escapeHtml, entity.
  destruct (Ascii.eqb_spec c amp) as [->|H1]; [reflexivity|].
  destruct (Ascii.eqb_spec c lt) as [->|H2]; [reflexivity|].
  destruct (Ascii.eqb_spec c gt) as [->|H3]; [reflexivity|].
  destruct (Ascii.eqb_spec c dquote) as [->|H4]; [reflexivity|].
  destruct (Ascii.eqb_spec c squote) as [->|H5]; [reflexivity|].
  apply Ascii.eqb_neq in H1, H2, H3, H4, H5.
  cbn [replaceAll]. rewrite H1. cbn [replaceAll]. rewrite H2. cbn [replaceAll].
  rewrite H3. cbn [replaceAll]. rewrite H4. cbn [replaceAll]. now rewrite H5.
Qed.

Lemma escapeHtml_each (s : string) : escapeHtml (Some s) = escape_each s.
Proof.
  induction s as [|c s IH]; [reflexivity|].
  change (String c s) with (String c EmptyString +:+ s).
  rewrite escapeHtml_append, escapeHtml_char, IH. reflexivity.
Qed.

Lemma entity_plain (c : ascii) : special c = false -> entity c = String c EmptyString.
Proof.
  unfold special, entity. intros H.
  repeat (apply orb_false_iff in H as [H ?]).
  now repeat match goal with E : _ = false |- _ => rewrite E; clear E end.
Qed.

(** X1. The result of [escapeHtml] holds no [<], [>], double quote or
    single quote, whatever the text. *)
Theorem escapeHtml_no_markup (unsafe : option string) :
  Forall (fun x => x <> lt /\ x <> gt /\ x <> dquote /\ x <> squote)
         (list_ascii_of_string (escapeHtml unsafe)).
Proof.
  apply Forall_forall. intros x Hx. apply list_elem_of_In in Hx.
  destruct unsafe as [s|]; [|destruct Hx]. unfold escapeHtml in Hx.
  apply replaceAll_chars in Hx as [Hx|[N5 Hx]].
  { cbn in Hx. repeat (destruct Hx as [<-|Hx]; [repeat split; discriminate|]). destruct Hx. }
  apply replaceAll_chars in Hx as [Hx|[N4 Hx]].
  { cbn in Hx. repeat (destruct Hx as [<-|Hx]; [repeat split; discriminate|]). destruct Hx. }
  apply replaceAll_chars in Hx as [Hx|[N3 Hx]].
  { cbn in Hx. repeat (destruct Hx as [<-|Hx]; [repeat split; discriminate|]). destruct Hx. }
  apply replaceAll_chars in Hx as [Hx|[N2 Hx]].
  { cbn in Hx. repeat (destruct Hx as [<-|Hx]; [repeat split; discriminate|]). destruct Hx. }
  auto.
Qed.

(** X2. The five passes amount to one pass that writes the entity of each
    character, so escaping a concatenation is concatenating the escapes:
    the ampersands written by a pass are not escaped again by the next. *)
Theorem escapeHtml_per_character (s t : string) :
  escapeHtml (Some s) = escape_each s /\
  escapeHtml (Some (s +:+ t)) = escapeHtml (Some s) +:+ escapeHtml (Some t).
Proof. split; [apply escapeHtml_each | apply escapeHtml_append]. Qed.

Lemma length_append (a b : string) :
  String.length (a +:+ b) = String.length a + String.length b.
Proof.
  induction a as [|x a IH]; [reflexivity|]. rewrite append_cons. simpl. now rewrite IH.
Qed.

Lemma entity_length (c : ascii) :
  String.length (entity c) = 1 /\ special c = false \/
  1 < String.length (entity c) /\ special c = true.
Proof.
  unfold entity, special.
  destruct (Ascii.eqb c amp); [right; split; [simpl; lia | reflexivity]|].
  destruct (Ascii.eqb c lt); [right; split; [simpl; lia | reflexivity]|].
  destruct (Ascii.eqb c gt); [right; split; [simpl; lia | reflexivity]|].
  destruct (Ascii.eqb c dquote); [right; split; [simpl; lia | reflexivity]|].
  destruct (Ascii.eqb c squote); [right; split; [simpl; lia | reflexivity]|].
  left. split; reflexivity.
Qed.

Lemma escape_each_length (s : string) :
  String.length s <= String.length (escape_each s) /\
  (String.length (escape_each s) = String.length s ->
   forallb (fun c => negb (special c)) (list_ascii_of_string s) = true).
Proof.
  induction s as [|c s [IH1 IH2]]; [split; auto|].
  cbn [escape_each list_ascii_of_string forallb]. rewrite length_append.
  cbn [String.length].
  destruct (entity_length c) as [[Hl Hs]|[Hl Hs]]; rewrite Hs; cbn [negb andb].
  - split; [lia|]. intros H. apply IH2. lia.
  - split; [lia|]. intros H. lia.
Qed.

(** X3. [escapeHtml] returns a text unchanged exactly when the text has
    none of the five characters [&], [<], [>], double quote, single
    quote. *)
Theorem escapeHtml_unchanged_iff_plain (s : string) :
  escapeHtml (Some s) = s <->
  forallb (fun c => negb (special c)) (list_ascii_of_string s) = true.
Proof.
  rewrite escapeHtml_each. split.
  - intros H. apply escape_each_length. now rewrite H.
  - induction s as [|c s IH]; [reflexivity|].
    cbn [list_ascii_of_string forallb escape_each]. intros H.
    apply andb_true_iff in H as [Hc Hs]. apply negb_true_iff in Hc.
    now rewrite (entity_plain c Hc), (IH Hs).
Qed.

(** Two entities that start the same text are the same entity. *)
Lemma entity_head (c1 c2 : ascii) (r1 r2 : string) :
  entity c1 +:+ r1 = entity c2 +:+ r2 -> c1 = c2.
Proof.
  unfold entity.
  destruct (Ascii.eqb_spec c1 amp) as [->|A1];
  [|destruct (Ascii.eqb_spec c1 lt) as [->|A2];
  [|destruct (Ascii.eqb_spec c1 gt) as [->|A3];
  [|destruct (Ascii.eqb_spec c1 dquote) as [->|A4];
  [|destruct (Ascii.eqb_spec c1 squote) as [->|A5]]]]];
  (destruct (Ascii.eqb_spec c2 amp) as [->|B1];
  [|destruct (Ascii.eqb_spec c2 lt) as [->|B2];
  [|destruct (Ascii.eqb_spec c2 gt) as [->|B3];
  [|destruct (Ascii.eqb_spec c2 dquote) as [->|B4];
  [|destruct (Ascii.eqb_spec c2 squote) as [->|B5]]]]]);
  rewrite ?append_cons; intros H; try reflexivity; try discriminate H;
  injection H as H; subst; try contradiction; try discriminate; congruence.
Qed.

(** X4. [escapeHtml] is injective: two texts with the same escaped form
    are the same text. *)
Theorem escapeHtml_injective (s t : string) :
  escapeHtml (Some s) = escapeHtml (Some t) -> s = t.
Proof.
  rewrite !escapeHtml_each. revert t.
  assert (Hne : forall c r, entity c +:+ r <> EmptyString).
  { intros c r H. destruct (entity_length c) as [[Hl _]|[Hl _]];
      destruct (entity c); simpl in Hl; try lia; discriminate H. }
  induction s as [|c s IH]; intros [|d t]; cbn [escape_each]; intros H.
  - reflexivity.
  - symmetry in H. now apply Hne in H.
  - now apply Hne in H.
  - pose proof (entity_head c d _ _ H) as ->.
    apply String.app_inj in H. now rewrite (IH t H).
Qed.

Lemma escapeHtml_injective_witness :
  escapeHtml (Some "a<b") = escapeHtml (Some "a<b") /\ "a<b" = "a<b".
Proof.
  split; [reflexivity|]. apply (escapeHtml_injective "a<b" "a<b"). reflexivity.
Defined.

End HtmlClaims.

(** ** The cache key *)

Section CacheKey.
Import Coordinator.

Lemma uint_string_no_bar (d : Decimal.uint) :
  ~ In bar (list_ascii_of_string (NilEmpty.string_of_uint d)).
Proof.
  induction d; simpl; intros H; try (destruct H as [H|H]; [discriminate H | auto]).
  exact H.
Qed.

Lemma of_Z_no_bar (z : Z) : ~ In bar (list_ascii_of_string (JsString.of_Z z)).
Proof.
  unfold JsString.of_Z, NilZero.string_of_int, NilZero.string_of_uint.
  destruct (Z.to_int z) as [d|d]; destruct d; simpl;
    intros H; repeat (destruct H as [H|H]; [discriminate H|]);
    try contradiction; now apply uint_string_no_bar in H.
Qed.

Lemma of_Z_inj (a b : Z) : JsString.of_Z a = JsString.of_Z b -> a = b.
Proof.
  unfold JsString.of_Z. intros H. apply DecimalZ.to_int_inj.
  assert (Hnil : forall z, Z.to_int z <> Decimal.Pos Decimal.Nil /\
                           Z.to_int z <> Decimal.Neg Decimal.Nil).
  { intros [|p|p]; simpl; split; try discriminate;
      intros [= E]; now apply DecimalPos.Unsigned.to_uint_nonnil in E. }
  destruct (Hnil a) as [A1 A2]. destruct (Hnil b) as [B1 B2].
  pose proof (NilZero.isi _ A1 A2) as Ha. pose proof (NilZero.isi _ B1 B2) as Hb.
  rewrite H in Ha. rewrite Ha in Hb. now injection Hb.
Qed.

(** The last bar of a text splits it in one way only. *)
Lemma split_at_last_bar (x1 x2 y1 y2 : string) :
  ~ In bar (list_ascii_of_string y1) -> ~ In bar (list_ascii_of_string y2) ->
  x1 +:+ String bar y1 = x2 +:+ String bar y2 -> x1 = x2 /\ y1 = y2.
Proof.
  intros H1 H2. revert x2. induction x1 as [|a x1 IH]; intros [|b x2] H.
  - now injection H as ->.
  - rewrite append_cons in H. injection H as <- H. exfalso. apply H1.
    rewrite H, chars_append. apply in_or_app. right. now left.
  - rewrite append_cons in H. injection H as -> H. exfalso. apply H2.
    rewrite <- H, chars_append. apply in_or_app. right. now left.
  - rewrite !append_cons in H. injection H as -> H.
    destruct (IH x2 H) as [-> ->]. auto.
Qed.

(** X5. The cache key is injective: two requests have the same key only
    when they have the same search text, page and page size, even when the
    search text itself holds bars. *)
Theorem cacheKey_injective (s1 s2 : string) (p1 p2 q1 q2 : Z) :
  cacheKey s1 p1 q1 = cacheKey s2 p2 q2 -> s1 = s2 /\ p1 = p2 /\ q1 = q2.
Proof.
  unfold cacheKey. intros H.
  change (s1 +:+ "|" +:+ JsString.of_Z p1 +:+ "|" +:+ JsString.of_Z q1)
    with (s1 +:+ (String bar (JsString.of_Z p1) +:+ String bar (JsString.of_Z q1))) in H.
  change (s2 +:+ "|" +:+ JsString.of_Z p2 +:+ "|" +:+ JsString.of_Z q2)
    with (s2 +:+ (String bar (JsString.of_Z p2) +:+ String bar (JsString.of_Z q2))) in H.
  rewrite <- !append_assoc in H.
  apply split_at_last_bar in H as [H Hq]; try apply of_Z_no_bar.
  apply split_at_last_bar in H as [Hs Hp]; try apply of_Z_no_bar.
  repeat split; [assumption | now apply of_Z_inj | now apply of_Z_inj].
Qed.

Lemma cacheKey_injective_witness :
  cacheKey "a|1" 2 20 = cacheKey "a|1" 2 20 /\
  ("a|1" = "a|1" /\ 2%Z = 2%Z /\ 20%Z = 20%Z) /\
  cacheKey "a" 1 20 <> cacheKey "a|1" 2 20.
Proof.
  split; [reflexivity|].
  split; [exact (cacheKey_injective "a|1" "a|1" 2 2 20 20 eq_refl)|].
  intros H. apply (cacheKey_injective "a" "a|1" 1 2 20 20) in H as [H _]. discriminate H.
Defined.

End CacheKey.

(** ** [debounce] *)

Section DebounceProofs.
Import Debounce.
Context {A : Type}.

Lemma one_timer_init (n : nat) : one_timer (init (A := A) n).
Proof. now left. Qed.

Lemma debounced_timers (wait now : Z) (a : A) (s : state A) :
  one_timer s ->
  timers (debounced wait now a s) =
    [{| tm_id := next_id s; tm_due := (now + wait)%Z; tm_args := a |}].
Proof.
  unfold debounced. cbn [timers]. intros [H|(tm & H & Ht)]; rewrite H.
  - now destruct (t s).
  - rewrite Ht. cbn. now rewrite Nat.eqb_refl.
Qed.

Lemma debounced_one_timer (wait now : Z) (a : A) (s : state A) :
  one_timer s -> one_timer (debounced wait now a s).
Proof.
  intros H. right. eexists. split; [now apply debounced_timers|]. reflexivity.
Qed.

Lemma run_due_one_timer (now : Z) (s : state A) :
  one_timer s -> one_timer (snd (run_due now s)).
Proof.
  unfold run_due. cbn [snd]. intros [H|(tm & H & Ht)].
  - left. cbn [timers]. now rewrite H.
  - cbn [timers]. rewrite H. cbn. destruct (tm_due tm <=? now)%Z; cbn.
    + now left.
    + right. exists tm. auto.
Qed.

Lemma run_one_timer (wait : Z) (es : list (event A)) (calls : list A) (s : state A) :
  one_timer s -> one_timer (snd (run wait es calls s)).
Proof.
  revert calls s. induction es as [|[now a|now] es IH]; intros calls s H; cbn [run].
  - exact H.
  - apply IH. now apply debounced_one_timer.
  - destruct (run_due now s) as [fired s'] eqn:E. apply IH.
    change s' with (snd (fired, s')). rewrite <- E. now apply run_due_one_timer.
Qed.

(** X6. Debouncing: the last call wins. Whatever calls and turns of the
    event loop came before, after a call at time [at_time] with arguments
    [a] exactly one timer is set, the one of this call: the earlier calls
    that had not run yet are dropped. [fn] is not called before
    [at_time + wait], and the first turn of the event loop from then on
    calls it once, with [a], and leaves no timer. *)
Theorem debounce_last_call_wins
    (wait : Z) (es : list (event A)) (first_id : nat) (at_time now : Z) (a : A) :
  let s := snd (run wait es [] (init first_id)) in
  let s' := debounced wait at_time a s in
  length (timers s) <= 1 /\
  timers s' = [{| tm_id := next_id s; tm_due := (at_time + wait)%Z; tm_args := a |}] /\
  ((at_time + wait <= now)%Z ->
     fst (run_due now s') = [a] /\ timers (snd (run_due now s')) = []) /\
  ((now < at_time + wait)%Z ->
     fst (run_due now s') = [] /\ snd (run_due now s') = s').
Proof.
  intros s s'.
  assert (Hone : one_timer s) by (apply run_one_timer, one_timer_init).
  assert (Ht : timers s' = [{| tm_id := next_id s; tm_due := (at_time + wait)%Z;
                               tm_args := a |}]) by now apply debounced_timers.
  split; [|split; [exact Ht|split]].
  - destruct Hone as [H|(tm & H & _)]; rewrite H; cbn; lia.
  - intros Hdue. unfold run_due. cbn [fst snd timers]. rewrite Ht. cbn.
    replace (at_time + wait <=? now)%Z with true by (symmetry; lia). now cbn.
  - intros Hearly. unfold run_due. cbn [fst snd timers]. rewrite Ht. cbn.
    replace (at_time + wait <=? now)%Z with false by (symmetry; lia). cbn.
    split; [reflexivity|]. rewrite <- Ht. subst s'. reflexivity.
Qed.

Lemma count_calls_bound (wait : Z) (es : list (event A)) (calls : list A) (s : state A) :
  length (fst (run wait es calls s)) + length (timers (snd (run wait es calls s))) <=
  length calls + length (timers s) +
  length (List.filter (fun e => match e with Call _ _ => true | Loop _ => false end) es).
Proof.
  revert calls s. induction es as [|[now a|now] es IH]; intros calls s; cbn [run List.filter].
  - cbn. lia.
  - etransitivity; [apply IH|]. unfold debounced. cbn [timers length].
    rewrite length_app. cbn [length].
    assert (length (clearTimeout (t s) (timers s)) <= length (timers s)).
    { unfold clearTimeout. destruct (t s); [apply filter_length_le | lia]. }
    lia.
  - destruct (run_due now s) as [fired s'] eqn:E. etransitivity; [apply IH|].
    unfold run_due in E. injection E as <- <-. cbn [timers].
    rewrite length_app, length_map.
    pose proof (filter_length (fun x => (tm_due x <=? now)%Z) (timers s)) as Hlen.
    lia.
Qed.

(** X7. Debouncing never multiplies calls: over any history that starts
    without timers, [fn] has been called at most as many times as the
    debounced function. *)
Theorem debounce_never_multiplies (wait : Z) (es : list (event A)) (first_id : nat) :
  length (fst (run wait es [] (init first_id))) <=
  length (List.filter (fun e => match e with Call _ _ => true | Loop _ => false end) es).
Proof.
  pose proof (count_calls_bound wait es [] (init first_id)) as H. cbn in H. lia.
Qed.

End DebounceProofs.

(** Three key strokes 100 ms apart, debounced by 500 ms: one search, 500 ms
    after the last. *)
Lemma debounce_last_call_wins_witness :
  (200 + 500 <= 700)%Z /\ (699 < 200 + 500)%Z /\
  fst (Debounce.run 500 [Debounce.Call 0 "n"; Debounce.Loop 50; Debounce.Call 100 "na";
                         Debounce.Loop 150; Debounce.Call 200 "nar"; Debounce.Loop 699;
                         Debounce.Loop 700; Debounce.Loop 5000]
         [] (Debounce.init 1)) = ["nar"] /\
  fst (Debounce.run_due 700
         (Debounce.debounced 500 200 "nar"
            (snd (Debounce.run 500 [Debounce.Call 0 "n"; Debounce.Call 100 "na"] []
                    (Debounce.init 1))))) = ["nar"] /\
  fst (Debounce.run_due 699
         (Debounce.debounced 500 200 "nar"
            (snd (Debounce.run 500 [Debounce.Call 0 "n"; Debounce.Call 100 "na"] []
                    (Debounce.init 1))))) = [].
Proof.
  split; [lia|]. split; [lia|]. split; [reflexivity|].
  destruct (debounce_last_call_wins 500 [Debounce.Call 0 "n"; Debounce.Call 100 "na"]
              1 200 700 "nar") as (_ & _ & Hdue & _).
  destruct (debounce_last_call_wins 500 [Debounce.Call 0 "n"; Debounce.Call 100 "na"]
              1 200 699 "nar") as (_ & _ & _ & Hearly).
  split; [apply Hdue; lia | apply Hearly; lia].
Defined.


(** ** [trim] is idempotent *)

Section TrimIdem.
Import JsString.

Lemma trimEnd_idem (s : string) : trimEnd (trimEnd s) = trimEnd s.
Proof.
  induction s as [|a s IH]; [reflexivity|]. cbn [trimEnd].
  destruct (trimEnd s) as [|b u] eqn:E.
  - destruct (is_ws a) eqn:Ea; [reflexivity|]. cbn [trimEnd]. now rewrite Ea.
  - cbn [trimEnd]. cbn [trimEnd] in IH. rewrite IH. reflexivity.
Qed.

Lemma trim_idem (s : string) : trim (trim s) = trim s.
Proof.
  pose proof (trim_first_char s) as H. unfold trim in *.
  destruct (trimEnd (trimStart s)) as [|a u] eqn:E; [reflexivity|].
  cbn [trimStart]. rewrite H. rewrite <- E. apply trimEnd_idem.
Qed.

End TrimIdem.

(** ** The widget under user events *)

Section WidgetProofs.
Import Coordinator Widget.

Lemma doSearch_show_frame (result : option page_data) (w : world) :
  vars (doSearch_show result w) = vars w /\ net (doSearch_show result w) = net w.
Proof.
  destruct result as [p|]; [|split; reflexivity].
  unfold doSearch_show, renderPager, renderTable.
  destruct (media p); cbn; destruct (lastPageInfo (vars w)) as [pi|]; cbn;
    try destruct (lastPage pi <=? 1)%Z; split; reflexivity.
Qed.

(** What [doSearch(pg)] does to the module variables and to the
    transport, before its [await]s. *)
Lemma doSearch_start_effect (pg : Z) (w : world) :
  let w' := progress_world (doSearch_start pg w) in
  (JsString.trim (searchInputValue (ui w)) = EmptyString /\
   vars w' = vars w /\ net w' = net w) \/
  exists q perPg,
    q = JsString.trim (searchInputValue (ui w)) /\ q <> EmptyString /\
    perPg <> 0%Z /\ v_currentPage (vars w') = pg /\
    cache (vars w') = cache (vars w) /\
    ((exists p, map_get (cacheKey q pg perPg) (cache (vars w)) = Some p /\
        abortController (vars w') = abortController (vars w) /\ net w' = net w) \/
     (map_get (cacheKey q pg perPg) (cache (vars w)) = None /\
      abortController (vars w') = Some (controllers (net w)) /\
      controllers (net w') = S (controllers (net w)) /\
      aborted (net w') =
        aborted (net w) ++
        match abortController (vars w) with Some c => [c] | None => [] end /\
      requests (net w') =
        requests (net w) ++
        [{| rq_search := q; rq_page := pg; rq_perPage := perPg;
            rq_signal := controllers (net w) |}])).
Proof.
  cbv zeta. unfold doSearch_start.
  destruct (JsString.trim (searchInputValue (ui w))) as [|a q'] eqn:Eq.
  { left. repeat split. }
  right. set (q := String a q').
  set (perPg := match perPageParsed (ui w) with
                | Some 0%Z | None => 20%Z
                | Some n => n
                end).
  exists q, perPg. split; [reflexivity|]. split; [discriminate|].
  split; [subst perPg; destruct (perPageParsed (ui w)) as [[| |]|]; discriminate|].
  unfold fetchAnilist_start.
  cbn -[cacheKey JsString.of_Z String.append doSearch_show].
  destruct (map_get (cacheKey q pg perPg) (cache (vars w))) as [p|] eqn:E.
  - cbn [progress_world].
    match goal with |- context [doSearch_show ?r ?x] =>
      destruct (doSearch_show_frame r x) as [Hv Hn]; rewrite Hv, Hn end.
    cbn. repeat split. left. exists p. repeat split.
  - cbn. repeat split. right. repeat split.
Qed.

(** What the end of a request does to the module variables and to the
    transport. *)
Lemma doSearch_finish_effect (ctl : nat) (key : string) (r : response) (w : world) :
  let w' := doSearch_finish ctl key r w in
  net w' = net w /\
  abortController (vars w') = abortController (vars w) /\
  v_currentPage (vars w') = v_currentPage (vars w) /\
  (cache (vars w') = cache (vars w) \/
   ~ In ctl (aborted (net w)) /\
   exists p, cache (vars w') =
     (let m' := map_set key p (cache (vars w)) in
      if 50 <? length m' then tl m' else m')).
Proof.
  cbv zeta. unfold doSearch_finish.
  destruct (fetchAnilist_settle ctl key r w) as [result w1] eqn:E.
  destruct (doSearch_show_frame result w1) as [Hv Hn]. rewrite Hv, Hn.
  assert (Hcp : v_currentPage (vars w1) = v_currentPage (vars w)).
  { replace w1 with (snd (fetchAnilist_settle ctl key r w)) by now rewrite E.
    unfold fetchAnilist_settle.
    destruct (transport ctl r w) as [e|s t st|[[errs|] [p|pi e|e]]];
      cbn -[String.eqb Nat.ltb];
      try (destruct (String.eqb _ "AbortError"); reflexivity).
    destruct (50 <? _); [destruct (map_first_key _)|]; reflexivity. }
  destruct (settle_net ctl key r w) as [Hnet Hac]. rewrite E in Hnet, Hac. cbn [snd] in *.
  split; [exact Hnet|]. split; [exact Hac|]. split; [exact Hcp|].
  destruct (in_dec Nat.eq_dec ctl (aborted (net w))) as [Hin|Hlive].
  - left. destruct (settle_keeps_cache ctl key r w) as (Hc & _).
    { intros p. rewrite (transport_cancelled ctl r w Hin). discriminate. }
    now rewrite E in Hc.
  - destruct (response_cases (transport ctl r w)) as [[p Hp]|Hno].
    + right. split; [exact Hlive|]. exists p.
      destruct (settle_stored ctl key r p w Hp) as (w2 & Hs & _ & _ & Hc).
      rewrite E in Hs. now injection Hs as _ <-.
    + left. destruct (settle_keeps_cache ctl key r w Hno) as (Hc & _).
      now rewrite E in Hc.
Qed.

(** The end of a cancelled request: two writes and nothing else. *)
Lemma finish_cancelled (ctl : nat) (key : string) (r : response) (w : world) :
  In ctl (aborted (net w)) ->
  doSearch_finish ctl key r w =
    setSearchBtnDisabled false (setStatus "Richiesta annullata." w).
Proof.
  intros Hin. unfold doSearch_finish, fetchAnilist_settle.
  rewrite (transport_cancelled ctl r w Hin). reflexivity.
Qed.

Lemma numbered_doSearch (s : sim) (w0 : world) (pg : Z) :
  vars w0 = vars (page s) -> net w0 = net (page s) ->
  numbered s ->
  numbered {| page := progress_world (doSearch_start pg w0); answered := answered s |}.
Proof.
  intros Hv Hn (Hc & Hac & Hab & Hsig & Hans). unfold numbered. cbn [page answered].
  destruct (doSearch_start_effect pg w0) as [(_ & Hv' & Hn')|(q & perPg & _ & _ & _ & _ & _ & H)].
  - rewrite Hv', Hn', Hv, Hn. repeat split; assumption.
  - destruct H as [(p & _ & Hac' & Hn')|(_ & Hac' & Hc' & Hab' & Hrq')].
    + rewrite Hac', Hn', Hv, Hn. repeat split; assumption.
    + rewrite Hac', Hc', Hab', Hrq', Hv, Hn, Hc, Hac, Hab, length_app.
      cbn [length]. rewrite Nat.add_1_r. cbn [pred]. repeat split.
      * destruct (length (requests (net (page s)))) as [|m]; cbn [pred].
        -- reflexivity.
        -- now rewrite seq_S.
      * intros i rq Hi. apply lookup_app_Some in Hi as [Hi|[Hlen Hi]].
        -- now apply Hsig.
        -- destruct (i - length (requests (net (page s)))) as [|k] eqn:Ek;
             cbn in Hi; [|discriminate]. injection Hi as <-. cbn. lia.
      * intros i Hi. apply Hans in Hi. lia.
Qed.

Lemma handle_numbered (e : event) (s : sim) : numbered s -> numbered (handle e s).
Proof.
  intros H. destruct e as [t| |n| | |i r]; cbn [handle].
  - exact H.
  - now apply numbered_doSearch.
  - now apply numbered_doSearch.
  - destruct (1 <? _)%Z; [now apply numbered_doSearch | exact H].
  - destruct (lastPageInfo _) as [pi|]; [|exact H].
    destruct (hasNextPage pi); [now apply numbered_doSearch | exact H].
  - destruct (existsb _ _); [exact H|].
    destruct (requests (net (page s)) !! i) as [rq|] eqn:Ei; [|exact H].
    destruct H as (Hc & Hac & Hab & Hsig & Hans). unfold numbered. cbn [page answered].
    destruct (doSearch_finish_effect (rq_signal rq) (request_key rq) r (page s))
      as (Hn & Hac' & _).
    rewrite Hn, Hac'. repeat split; try assumption.
    intros j [<-|Hj]; [now apply lookup_lt_Some in Ei | now apply Hans].
Qed.

Lemma after_numbered (es : list event) (text : string) (perPg : option Z) :
  numbered (after es text perPg).
Proof.
  unfold after.
  assert (H0 : numbered {| page := init text perPg; answered := [] |}).
  { repeat split; cbn; intros; try discriminate; contradiction. }
  revert H0. generalize {| page := init text perPg; answered := [] |}.
  induction es as [|e es IH]; intros s Hs; [exact Hs|].
  cbn [fold_left]. apply IH. now apply handle_numbered.
Qed.

Lemma map_get_app_l (k : string) (m m2 : cache_t) (p : page_data) :
  map_get k m = Some p -> map_get k (m ++ m2) = Some p.
Proof.
  unfold map_get. induction m as [|[k' v'] m IH]; cbn; [discriminate|].
  destruct (String.eqb k' k); [auto | exact IH].
Qed.

Lemma cache_sound_doSearch (s : sim) (w0 : world) (pg : Z) :
  vars w0 = vars (page s) -> net w0 = net (page s) ->
  cache_sound s ->
  cache_sound {| page := progress_world (doSearch_start pg w0); answered := answered s |}.
Proof.
  intros Hv Hn (Hlen & Hnd & Hlive). unfold cache_sound. cbn [page answered].
  destruct (doSearch_start_effect pg w0)
    as [(_ & Hv' & Hn')|(q & perPg & _ & _ & _ & _ & Hc' & H)].
  - rewrite Hv', Hn', Hv, Hn. repeat split; assumption.
  - rewrite Hc', Hv. split; [exact Hlen|]. split; [exact Hnd|].
    destruct H as [(p & _ & _ & Hn')|(Hmiss & _ & _ & _ & Hrq')].
    + rewrite Hn', Hn. exact Hlive.
    + rewrite Hrq'. intros rq Hlast _. rewrite last_snoc in Hlast.
      injection Hlast as <-. unfold request_key. cbn. now rewrite <- Hv.
Qed.

Lemma handle_cache_sound (e : event) (s : sim) :
  numbered s -> cache_sound s -> cache_sound (handle e s).
Proof.
  intros Hnum H. destruct e as [t| |n| | |i r]; cbn [handle].
  - exact H.
  - now apply cache_sound_doSearch.
  - now apply cache_sound_doSearch.
  - destruct (1 <? _)%Z; [now apply cache_sound_doSearch | exact H].
  - destruct (lastPageInfo _) as [pi|]; [|exact H].
    destruct (hasNextPage pi); [now apply cache_sound_doSearch | exact H].
  - destruct (existsb (Nat.eqb i) (answered s)) eqn:Eans; [exact H|].
    destruct (requests (net (page s)) !! i) as [rq|] eqn:Ei; [|exact H].
    destruct H as (Hlen & Hnd & Hlive).
    destruct Hnum as (_ & _ & Hab & Hsig & _).
    unfold cache_sound. cbn [page answered].
    destruct (doSearch_finish_effect (rq_signal rq) (request_key rq) r (page s))
      as (Hn & _ & _ & [Hc|(Hnot & p & Hc)]); rewrite Hn, Hc.
    + repeat split; try assumption.
      intros rq' Hlast Hna. apply Hlive; [exact Hlast|]. intros Hin. apply Hna. now right.
    + (* only the last request, still pending, can store a page *)
      rewrite (Hsig i rq Ei), Hab in Hnot.
      pose proof (lookup_lt_Some _ _ _ Ei) as Hlt.
      assert (Hi : i = pred (length (requests (net (page s))))).
      { destruct (Nat.lt_ge_cases i (pred (length (requests (net (page s)))))) as [Hlo|Hhi];
          [|lia]. exfalso. apply Hnot. apply in_seq. lia. }
      assert (Hfresh : map_get (request_key rq) (cache (vars (page s))) = None).
      { apply Hlive.
        - rewrite last_lookup, <- Hi. exact Ei.
        - rewrite <- Hi. intros Hin.
          assert (existsb (Nat.eqb i) (answered s) = true); [|congruence].
          apply existsb_exists. exists i. split; [exact Hin | apply Nat.eqb_refl]. }
      rewrite (map_set_absent _ p _ Hfresh). cbv zeta.
      assert (Hnd' : NoDup (keys (cache (vars (page s)) ++ [(request_key rq, p)]))).
      { rewrite keys_app. cbn [keys map fst]. apply NoDup_app. split; [exact Hnd|].
        split; [|apply NoDup_singleton].
        intros k Hk Hk'. apply list_elem_of_In in Hk.
        apply list_elem_of_singleton in Hk'. subst k.
        now apply map_get_none_keys in Hfresh. }
      destruct (Nat.ltb_spec 50 (length (cache (vars (page s)) ++ [(request_key rq, p)])))
        as [Hgt|Hle].
      * rewrite length_app in Hgt. cbn [length] in Hgt.
        destruct (cache (vars (page s))) as [|kv m] eqn:Em; cbn [app tl length] in *; [lia|].
        split; [rewrite length_app; cbn [length]; lia|].
        split; [cbn [keys map] in Hnd'; now apply NoDup_cons in Hnd' as [_ Hnd']|].
        intros rq' _ Hna. exfalso. apply Hna. left. exact Hi.
      * split; [exact Hle|]. split; [exact Hnd'|].
        intros rq' _ Hna. exfalso. apply Hna. left. exact Hi.
Qed.

Lemma after_cache_sound (es : list event) (text : string) (perPg : option Z) :
  cache_sound (after es text perPg).
Proof.
  unfold after.
  assert (H0 : numbered {| page := init text perPg; answered := [] |} /\
               cache_sound {| page := init text perPg; answered := [] |}).
  { split; [repeat split; cbn; intros; try discriminate; contradiction|].
    split; [cbn; lia|]. split; [apply NoDup_nil_2|]. intros rq Hl. discriminate Hl. }
  revert H0. generalize {| page := init text perPg; answered := [] |}.
  induction es as [|e es IH]; intros s [Hn Hs]; [exact Hs|].
  cbn [fold_left]. apply IH. split; [now apply handle_numbered | now apply handle_cache_sound].
Qed.

(** How one event changes the cache: not at all, or by the page of the
    last request, under a key that was not cached. *)
Lemma handle_cache_step (e : event) (s : sim) :
  numbered s -> cache_sound s ->
  cache (vars (page (handle e s))) = cache (vars (page s)) \/
  exists key p,
    map_get key (cache (vars (page s))) = None /\
    cache (vars (page (handle e s))) =
      (let m' := cache (vars (page s)) ++ [(key, p)] in
       if 50 <? length m' then tl m' else m').
Proof.
  intros Hnum (Hlen & Hnd & Hlive).
  assert (Hsearch : forall pg w0, vars w0 = vars (page s) ->
            cache (vars (progress_world (doSearch_start pg w0))) = cache (vars (page s))).
  { intros pg w0 Hv.
    destruct (doSearch_start_effect pg w0)
      as [(_ & Hv' & _)|(q & perPg & _ & _ & _ & _ & Hc' & _)].
    - now rewrite Hv', Hv.
    - now rewrite Hc', Hv. }
  destruct e as [t| |n| | |i r]; cbn [handle].
  - now left.
  - left. now apply Hsearch.
  - left. now apply Hsearch.
  - destruct (1 <? _)%Z; left; [now apply Hsearch | reflexivity].
  - destruct (lastPageInfo _) as [pi|]; [|now left].
    destruct (hasNextPage pi); left; [now apply Hsearch | reflexivity].
  - destruct (existsb (Nat.eqb i) (answered s)) eqn:Eans; [now left|].
    destruct (requests (net (page s)) !! i) as [rq|] eqn:Ei; [|now left].
    destruct Hnum as (_ & _ & Hab & Hsig & _). cbn [page].
    destruct (doSearch_finish_effect (rq_signal rq) (request_key rq) r (page s))
      as (_ & _ & _ & [Hc|(Hnot & p & Hc)]); [now left|].
    right. exists (request_key rq), p.
    rewrite (Hsig i rq Ei), Hab in Hnot.
    pose proof (lookup_lt_Some _ _ _ Ei) as Hlt.
    assert (Hi : i = pred (length (requests (net (page s))))).
    { destruct (Nat.lt_ge_cases i (pred (length (requests (net (page s)))))) as [Hlo|Hhi];
        [|lia]. exfalso. apply Hnot. apply in_seq. lia. }
    assert (Hfresh : map_get (request_key rq) (cache (vars (page s))) = None).
    { apply Hlive.
      - rewrite last_lookup, <- Hi. exact Ei.
      - rewrite <- Hi. intros Hin.
        assert (existsb (Nat.eqb i) (answered s) = true); [|congruence].
        apply existsb_exists. exists i. split; [exact Hin | apply Nat.eqb_refl]. }
    split; [exact Hfresh|]. now rewrite Hc, (map_set_absent _ p _ Hfresh).
Qed.

Lemma sane_doSearch (s : sim) (w0 : world) (pg : Z) :
  vars w0 = vars (page s) -> net w0 = net (page s) -> (1 <= pg)%Z ->
  Forall request_sane (requests (net (page s))) /\
    (1 <= v_currentPage (vars (page s)))%Z ->
  Forall request_sane (requests (net (progress_world (doSearch_start pg w0)))) /\
    (1 <= v_currentPage (vars (progress_world (doSearch_start pg w0))))%Z.
Proof.
  intros Hv Hn Hpg [Hall Hcur].
  destruct (doSearch_start_effect pg w0)
    as [(_ & Hv' & Hn')|(q & perPg & Hq & Hne & Hpp & Hcp & _ & H)].
  - now rewrite Hv', Hn', Hv, Hn.
  - rewrite Hcp. split; [|exact Hpg].
    destruct H as [(p & _ & _ & Hn')|(_ & _ & _ & _ & Hrq')].
    + now rewrite Hn', Hn.
    + rewrite Hrq', Hn. apply Forall_app. split; [exact Hall|].
      constructor; [|constructor]. repeat split; cbn; try assumption.
      subst q. apply trim_idem.
Qed.

Lemma handle_sane (e : event) (s : sim) :
  Forall request_sane (requests (net (page s))) /\
    (1 <= v_currentPage (vars (page s)))%Z ->
  Forall request_sane (requests (net (page (handle e s)))) /\
    (1 <= v_currentPage (vars (page (handle e s))))%Z.
Proof.
  intros H. destruct e as [t| |n| | |i r]; cbn [handle page].
  - exact H.
  - apply (sane_doSearch s); auto. lia.
  - apply (sane_doSearch s); auto. lia.
  - destruct (Z.ltb_spec 1 (v_currentPage (vars (page s)))); [|exact H].
    apply (sane_doSearch s); auto. lia.
  - destruct (lastPageInfo _) as [pi|]; [|exact H].
    destruct (hasNextPage pi); [|exact H].
    apply (sane_doSearch s); auto. destruct H. lia.
  - destruct (existsb _ _); [exact H|].
    destruct (requests (net (page s)) !! i) as [rq|]; [|exact H]. cbn [page].
    destruct (doSearch_finish_effect (rq_signal rq) (request_key rq) r (page s))
      as (Hn & _ & Hcp & _).
    now rewrite Hn, Hcp.
Qed.

(** The invariants hold after every history. *)
Lemma after_invariants (es : list event) (text : string) (perPg : option Z) :
  numbered (after es text perPg) /\ cache_sound (after es text perPg) /\
  Forall request_sane (requests (net (page (after es text perPg)))) /\
  (1 <= v_currentPage (vars (page (after es text perPg))))%Z.
Proof.
  split; [apply after_numbered|]. split; [apply after_cache_sound|].
  unfold after.
  assert (H0 : Forall request_sane
                 (requests (net (page {| page := init text perPg; answered := [] |}))) /\
               (1 <= v_currentPage
                       (vars (page {| page := init text perPg; answered := [] |})))%Z).
  { split; [constructor | cbn; lia]. }
  revert H0. generalize {| page := init text perPg; answered := [] |}.
  induction es as [|e es IH]; intros s Hs; [exact Hs|].
  cbn [fold_left]. apply IH. now apply handle_sane.
Qed.

End WidgetProofs.

Section WidgetClaims.
Import Coordinator Widget WidgetSamples.

(** X8. One request at a time. After any history of user events and
    answers, every request sent except the last one has been cancelled,
    and its answer, whatever it is, leaves the cache, the other module
    variables, the transport, the error box, the table and the pager as
    they are. *)
Theorem widget_single_live_request
    (es : list event) (text : string) (perPg : option Z) (i : nat) (r : response) :
  let s := after es text perPg in
  let n := length (requests (net (page s))) in
  (forall j rq, requests (net (page s)) !! j = Some rq -> S j < n ->
     In (rq_signal rq) (aborted (net (page s)))) /\
  (S i < n ->
   let s' := handle (Answer i r) s in
   vars (page s') = vars (page s) /\ net (page s') = net (page s) /\
   errorVisible (ui (page s')) = errorVisible (ui (page s)) /\
   errorText (ui (page s')) = errorText (ui (page s)) /\
   tableHolder (ui (page s')) = tableHolder (ui (page s)) /\
   pager (ui (page s')) = pager (ui (page s))).
Proof.
  intros s n. destruct (after_numbered es text perPg) as (_ & _ & Hab & Hsig & _).
  fold s in Hab, Hsig.
  assert (Hold : forall j rq, requests (net (page s)) !! j = Some rq -> S j < n ->
            In (rq_signal rq) (aborted (net (page s)))).
  { intros j rq Hj Hlt. rewrite (Hsig j rq Hj), Hab. apply in_seq. fold n. lia. }
  split; [exact Hold|].
  intros Hi. cbv zeta. cbn [handle].
  destruct (existsb (Nat.eqb i) (answered s)); [repeat split|].
  destruct (requests (net (page s)) !! i) as [rq|] eqn:Ei; [|repeat split].
  cbn [page]. rewrite (finish_cancelled _ _ r _ (Hold i rq Ei Hi)). repeat split.
Qed.

(** "one" is sent, then "two": the late answer for "one" changes nothing. *)
Lemma widget_single_live_request_witness :
  1 < length (requests (net (page (after two_searches EmptyString None)))) /\
  vars (page (handle (Answer 0 (ok Samples.sample_page))
                (after two_searches EmptyString None))) =
    vars (page (after two_searches EmptyString None)) /\
  tableHolder (ui (page (handle (Answer 0 (ok Samples.sample_page))
                          (after two_searches EmptyString None)))) = Cleared.
Proof.
  assert (H : 1 < length (requests (net (page (after two_searches EmptyString None)))))
    by (cbn; lia).
  split; [exact H|].
  destruct (widget_single_live_request two_searches EmptyString None 0
              (ok Samples.sample_page)) as [_ Hlate].
  destruct (Hlate H) as (Hv & _ & _ & _ & Ht & _).
  split; [exact Hv|]. rewrite Ht. reflexivity.
Defined.

(** X9. The cache under any interleaving. After any history of user
    events and answers, in any order, the cache holds at most 50 entries
    and no key twice. *)
Theorem widget_cache_bounded (es : list event) (text : string) (perPg : option Z) :
  length (cache (vars (page (after es text perPg)))) <= 50 /\
  NoDup (keys (cache (vars (page (after es text perPg))))).
Proof.
  destruct (after_cache_sound es text perPg) as (Hlen & Hnd & _). split; assumption.
Qed.

(** X10. A cached page is never replaced. After any history, one more
    event leaves every cached key with the page it had, as long as the
    key stays in the cache. *)
Theorem widget_cached_page_fixed
    (es : list event) (text : string) (perPg : option Z) (e : event)
    (k : string) (p p' : page_data) :
  map_get k (cache (vars (page (after es text perPg)))) = Some p ->
  map_get k (cache (vars (page (handle e (after es text perPg))))) = Some p' ->
  p = p'.
Proof.
  intros Hp Hp'.
  pose proof (after_numbered es text perPg) as Hnum.
  pose proof (after_cache_sound es text perPg) as Hcs.
  destruct (handle_cache_step e _ Hnum Hcs) as [Hsame|(key & q & Hfresh & Hnew)].
  - rewrite Hsame, Hp in Hp'. now injection Hp'.
  - destruct Hcs as (_ & Hnd & _). rewrite Hnew in Hp'. cbv zeta in Hp'.
    pose proof (map_get_app_l k _ [(key, q)] p Hp) as Happ.
    destruct (50 <? _); [|rewrite Happ in Hp'; now injection Hp'].
    destruct (cache (vars (page (after es text perPg)))) as [|[k0 v0] m]; [discriminate|].
    cbn [app tl] in Hp'. unfold map_get in Hp, Happ. cbn in Hp, Happ.
    destruct (String.eqb_spec k0 k) as [->|Hne].
    + exfalso. cbn in Hnd. apply NoDup_cons in Hnd as [Hnotin _].
      assert (Hk : In k (keys (m ++ [(key, q)]))) by (eapply map_get_some_keys; eauto).
      rewrite keys_app in Hk. apply in_app_or in Hk as [Hk|Hk].
      * apply Hnotin. now apply list_elem_of_In.
      * cbn in Hk. destruct Hk as [<-|[]].
        unfold map_get in Hfresh. cbn in Hfresh. now rewrite String.eqb_refl in Hfresh.
    + unfold map_get in Hp'. rewrite Happ in Hp'. now injection Hp'.
Qed.

(** The cached page of "naruto" is still the same after a second search. *)
Lemma widget_cached_page_fixed_witness :
  map_get (cacheKey "naruto" 1 20)
    (cache (vars (page (after answered_search EmptyString None)))) =
    Some Samples.sample_page /\
  map_get (cacheKey "naruto" 1 20)
    (cache (vars (page (handle Search (after answered_search EmptyString None))))) =
    Some Samples.sample_page /\
  Samples.sample_page = Samples.sample_page.
Proof.
  split; [reflexivity|]. split; [reflexivity|].
  exact (widget_cached_page_fixed answered_search EmptyString None Search
           (cacheKey "naruto" 1 20) _ _ eq_refl eq_refl).
Defined.

(** X11. What the widget sends. After any history, every request sent has
    a page number of at least 1, a page size other than 0, and a search
    text that is not empty and carries no white space at its ends; the
    current page is at least 1. *)
Theorem widget_requests_sane (es : list event) (text : string) (perPg : option Z) :
  Forall request_sane (requests (net (page (after es text perPg)))) /\
  (1 <= v_currentPage (vars (page (after es text perPg))))%Z.
Proof. apply after_invariants. Qed.

End WidgetClaims.

(** ** Failures and retries *)

Section Retry.
Import Coordinator.

Lemma settle_enables_button (ctl : nat) (key : string) (r : response) (w : world) :
  searchBtnDisabled (ui (snd (fetchAnilist_settle ctl key r w))) = false.
Proof.
  unfold fetchAnilist_settle.
  destruct (fetchAnilist_try key (transport ctl r w) w) as [[p|e] w1]; cbn -[String.eqb];
    [reflexivity|]. now destruct (String.eqb _ "AbortError").
Qed.

Lemma resolve_enables_button (search : string) (pg perPg : Z) (r : response) (w : world) :
  searchBtnDisabled (ui (snd (resolve search pg perPg r w))) = false.
Proof.
  unfold resolve, fetchAnilist_start.
  cbn -[cacheKey JsString.of_Z String.append fetchAnilist_settle].
  destruct (map_get _ _); [reflexivity | apply settle_enables_button].
Qed.

Lemma resolve_miss_requests (search : string) (pg perPg : Z) (r : response) (w : world) :
  map_get (cacheKey search pg perPg) (cache (vars w)) = None ->
  requests (net (snd (resolve search pg perPg r w))) =
    requests (net w) ++ [{| rq_search := search; rq_page := pg; rq_perPage := perPg;
                            rq_signal := controllers (net w) |}].
Proof.
  intros E. unfold resolve.
  destruct (start_miss search pg perPg w E) as (w' & -> & _ & _ & _ & _ & Hrq).
  destruct (settle_net (controllers (net w)) (cacheKey search pg perPg) r w') as [Hn _].
  now rewrite Hn.
Qed.

(** X12. Failures are not cached and the widget stays usable. A request
    for a key that is not cached and whose answer is anything but a page
    (a rejection, a status that is not 2xx, an error list, a malformed
    payload) returns [null], leaves the cache unchanged and the search
    button enabled; asking again sends a second request and, when that one
    is answered with a page, the page is returned and cached. *)
Theorem failed_request_retriable
    (search : string) (pg perPg : Z) (r : response) (p : page_data) (w : world) :
  wf w ->
  map_get (cacheKey search pg perPg) (cache (vars w)) = None ->
  (forall p', r <> ok p') ->
  let w1 := snd (resolve search pg perPg r w) in
  fst (resolve search pg perPg r w) = None /\
  cache (vars w1) = cache (vars w) /\
  searchBtnDisabled (ui w1) = false /\
  length (requests (net w1)) = S (length (requests (net w))) /\
  exists w2,
    resolve search pg perPg (ok p) w1 = (Some p, w2) /\
    map_get (cacheKey search pg perPg) (cache (vars w2)) = Some p /\
    searchBtnDisabled (ui w2) = false /\
    length (requests (net w2)) = S (S (length (requests (net w)))).
Proof.
  intros Hwf E Hno w1.
  assert (Hfail : fst (resolve search pg perPg r w) = None /\ cache (vars w1) = cache (vars w)).
  { subst w1. unfold resolve.
    destruct (start_miss search pg perPg w E) as (w' & -> & Hc & _ & _ & Ha & _).
    destruct (settle_keeps_cache (controllers (net w)) (cacheKey search pg perPg) r w')
      as (Hk & _ & _ & Hnone).
    { rewrite transport_live by (rewrite Ha; now apply wf_fresh). exact Hno. }
    split; [exact Hnone | now rewrite Hk]. }
  destruct Hfail as [Hnone Hcache].
  assert (Hreq1 : requests (net w1) = requests (net w) ++ _)
    by (subst w1; now apply resolve_miss_requests).
  split; [exact Hnone|]. split; [exact Hcache|].
  split; [apply resolve_enables_button|].
  split; [rewrite Hreq1, length_app; cbn; lia|].
  assert (Hwf1 : wf w1) by (subst w1; now apply resolve_wf).
  assert (E1 : map_get (cacheKey search pg perPg) (cache (vars w1)) = None)
    by now rewrite Hcache.
  destruct (resolve_miss_ok search pg perPg p w1 Hwf1 E1) as (w2 & Hres & Hc2).
  exists w2. split; [exact Hres|]. split; [|split].
  - rewrite Hc2. now apply map_get_after_evict.
  - replace w2 with (snd (resolve search pg perPg (ok p) w1)) by now rewrite Hres.
    apply resolve_enables_button.
  - replace w2 with (snd (resolve search pg perPg (ok p) w1)) by now rewrite Hres.
    rewrite (resolve_miss_requests _ _ _ _ _ E1), Hreq1, !length_app. cbn. lia.
Qed.

(** A server error, then the page. *)
Lemma failed_request_retriable_witness :
  wf (init "naruto" None) /\
  map_get (cacheKey "naruto" 1 20) (cache (vars (init "naruto" None))) = None /\
  (forall p', HttpError 503 EmptyString "Service Unavailable" <> ok p') /\
  errorText (ui (snd (resolve "naruto" 1 20
                        (HttpError 503 EmptyString "Service Unavailable")
                        (init "naruto" None)))) =
    "Errore: HTTP 503 — Service Unavailable" /\
  exists w2,
    resolve "naruto" 1 20 (ok Samples.sample_page)
      (snd (resolve "naruto" 1 20 (HttpError 503 EmptyString "Service Unavailable")
              (init "naruto" None))) = (Some Samples.sample_page, w2) /\
    length (requests (net w2)) = 2.
Proof.
  assert (Hno : forall p', HttpError 503 EmptyString "Service Unavailable" <> ok p')
    by (intros p'; discriminate).
  assert (Hwf : wf (init "naruto" None)) by (split; [intros c [] | intros c [=]]).
  split; [exact Hwf|]. split; [reflexivity|]. split; [exact Hno|].
  split; [reflexivity|].
  destruct (failed_request_retriable "naruto" 1 20 _ Samples.sample_page
              (init "naruto" None) Hwf eq_refl Hno)
    as (_ & _ & _ & _ & w2 & Hres & _ & _ & Hlen).
  exists w2. split; [exact Hres | exact Hlen].
Defined.

End Retry.

(** ** The category page under user events *)

Section CatalogWidgetProofs.
Import Catalog CatalogWidget.

Lemma catalog_finish_frame (r : response) (w : world) :
  st (doSearch_finish r w) = st w /\ requests (doSearch_finish r w) = requests w.
Proof.
  unfold doSearch_finish. destruct (fetchData_receive r) as [pg|err].
  - unfold renderTable. destruct (media pg) as [|m ms]; [split; reflexivity|].
    destruct (pageInfo pg) as [[[t|] c lp]|]; split; reflexivity.
  - split; reflexivity.
Qed.

(** What [doSearch(pg)] does to the state and to the requests sent. *)
Lemma catalog_doSearch_effect (pg : Z) (w : world) :
  let w' := progress_world (doSearch_start pg w) in
  match currentFormat (st w) with
  | None => st w' = st w /\ requests w' = requests w
  | Some c =>
      st w' = {| currentFormat := Some c; page := pg; perPage := perPage (st w);
                 search := JsString.trim (searchInputValue (ui w)) |} /\
      requests w' = requests w ++ [build_variables (st w')]
  end.
Proof.
  cbv zeta. unfold doSearch_start.
  destruct (currentFormat (st w)) as [c|] eqn:E; split; reflexivity.
Qed.

Lemma build_variables_sane (s : state_t) (c : category) :
  currentFormat s = Some c -> (1 <= page s)%Z -> request_sane (build_variables s).
Proof.
  intros Hc Hp. unfold request_sane.
  pose proof (build_variables_filters s) as Hf. rewrite Hc, format_and_country_table in Hf.
  split; [|split; [now exists c|]].
  - unfold build_variables. now destruct (format_and_country (currentFormat s)).
  - unfold build_variables. destruct (format_and_country (currentFormat s)). cbn.
    repeat split. destruct (search s); discriminate.
Qed.

Lemma catalog_inv_doSearch (pg : Z) (w : world) :
  (1 <= pg)%Z -> catalog_inv w -> catalog_inv (progress_world (doSearch_start pg w)).
Proof.
  intros Hpg (Hp & Hall & Hsel). pose proof (catalog_doSearch_effect pg w) as H.
  cbv zeta in H. unfold catalog_inv.
  destruct (currentFormat (st w)) as [c|] eqn:E.
  - destruct H as [Hst Hrq]. rewrite Hrq, Hst. cbn [page currentFormat].
    split; [exact Hpg|]. split; [|discriminate].
    apply Forall_app. split; [exact Hall|]. constructor; [|constructor].
    now apply (build_variables_sane _ c).
  - destruct H as [Hst Hrq]. rewrite Hrq, Hst. rewrite E. repeat split; assumption.
Qed.

Lemma catalog_handle_inv (e : event) (w : world) : catalog_inv w -> catalog_inv (handle e w).
Proof.
  intros H. destruct e as [s|c| | | |r]; cbn [handle].
  - exact H.
  - apply catalog_inv_doSearch; [lia|]. destruct H as (Hp & Hall & Hsel).
    repeat split; cbn; [lia | exact Hall | discriminate].
  - apply catalog_inv_doSearch; [lia | exact H].
  - destruct (Z.ltb_spec 1 (page (st w))); [|exact H]. apply catalog_inv_doSearch; [lia | exact H].
  - destruct H as (Hp & Hall & Hsel). apply catalog_inv_doSearch; [cbn; lia|].
    repeat split; cbn; [lia | exact Hall | exact Hsel].
  - destruct (catalog_finish_frame r w) as [Hst Hrq]. unfold catalog_inv.
    now rewrite Hst, Hrq.
Qed.

(** X13. What the category page sends. After any history of user events
    and answers, the page number is at least 1; every request sent has a
    page number of at least 1, the format and country of some category
    (the filters of the branch without category are never sent), the tag
    exclusion list, no genre list, and a search text that is [null] or not
    empty; and no request was sent while no category was selected. *)
Theorem catalog_requests_sane (es : list event) (text : string) :
  (1 <= page (st (after es text)))%Z /\
  Forall request_sane (requests (after es text)) /\
  (currentFormat (st (after es text)) = None -> requests (after es text) = []).
Proof.
  assert (H : catalog_inv (after es text)).
  { unfold after.
    assert (H0 : catalog_inv (init text)).
    { repeat split; cbn; [lia | constructor | intros H; now destruct H]. }
    revert H0. generalize (init text).
    induction es as [|e es IH]; intros w Hw; [exact Hw|].
    cbn [fold_left]. apply IH. now apply catalog_handle_inv. }
  destruct H as (Hp & Hall & Hsel). split; [exact Hp|]. split; [exact Hall|].
  intros Hnone. destruct (requests (after es text)) as [|v vs]; [reflexivity|].
  exfalso. apply Hsel; [discriminate | exact Hnone].
Qed.

(** X14. The search text of a category request. With a category selected,
    [doSearch(pg)] clears the error box and the table, shows the loading
    status and sends one request for page [pg] with the page size of the
    state; its search variable is the trimmed content of the input, or
    [null] when that is empty. *)
Theorem catalog_search_variable (w : world) (pg : Z) (c : category) :
  currentFormat (st w) = Some c ->
  exists w' v,
    doSearch_start pg w = Awaiting w' /\
    requests w' = requests w ++ [v] /\
    v_page v = pg /\ v_perPage v = perPage (st w) /\
    v_search v = match JsString.trim (searchInputValue (ui w)) with
                 | EmptyString => None
                 | q => Some q
                 end /\
    errorVisible (ui w') = false /\ tableHolder (ui w') = Blank /\
    statusText (ui w') = "Caricamento...".
Proof.
  intros Hc. unfold doSearch_start. rewrite Hc.
  eexists. eexists. split; [reflexivity|]. split; [reflexivity|].
  cbn [st fetchData_send setTable setStatus setError with_ui ui].
  unfold build_variables. cbn [currentFormat page perPage search].
  destruct (format_and_country (Some c)). cbn. repeat split.
Qed.

(** The NOVEL button with blanks around the text, and with blanks only. *)
Lemma catalog_search_variable_witness :
  currentFormat (st (select_category NOVEL (init "  dune "))) = Some NOVEL /\
  (exists w' v, doSearch_start 1 (select_category NOVEL (init "  dune ")) = Awaiting w' /\
     requests w' = [v] /\ v_search v = Some "dune") /\
  (exists w' v, doSearch_start 1 (select_category NOVEL (init "   ")) = Awaiting w' /\
     requests w' = [v] /\ v_search v = None).
Proof.
  split; [reflexivity|]. split.
  - destruct (catalog_search_variable (select_category NOVEL (init "  dune ")) 1 NOVEL eq_refl)
      as (w' & v & Hs & Hr & _ & _ & Hq & _).
    exists w', v. repeat split; assumption.
  - destruct (catalog_search_variable (select_category NOVEL (init "   ")) 1 NOVEL eq_refl)
      as (w' & v & Hs & Hr & _ & _ & Hq & _).
    exists w', v. repeat split; assumption.
Defined.

End CatalogWidgetProofs.

(** ** The protagonist of a list in the order the query asks for *)

Section SortedInput.
Import Selector MoreSamples.

(** X15. When no role contains MAIN and the edges with a numeric count
    come in descending order of count, as the query asks the API to send
    them, the protagonist is the first of these edges. *)
Theorem pickProtagonist_sorted_input
    (h : store) (a : loc) (l : list elem) (e0 : elem) (rest : list elem) :
  h !! a = Some l ->
  List.filter mainb (List.filter validb l) = [] ->
  List.filter numericb (List.filter validb l) = e0 :: rest ->
  Sorted (fun x y => (fav0 y <= fav0 x)%Z) (e0 :: rest) ->
  exists n h',
    node_of e0 = Some n /\
    pickProtagonist (Some {| edges := Some a |}) h =
      Some (Some {| p_name := name_or_empty n; p_image := image_or_empty n |}, h').
Proof.
  intros Ha Hmain Hfav Hsorted.
  destruct (pickProtagonist_run h a l Ha) as (r & news & Hrun & _ & Hf & _).
  rewrite Hfav in Hf.
  destruct (Hf Hmain ltac:(discriminate)) as (i & e & (Hi & Hall & Hbefore) & Hr & Hs).
  assert (He : e = e0).
  { destruct i as [|i]; [cbn in Hi; now injection Hi|]. exfalso.
    assert (Htrans : Relations_1.Transitive (fun x y : elem => (fav0 y <= fav0 x)%Z))
      by (intros x y z; lia).
    apply (Sorted_StronglySorted Htrans) in Hsorted.
    apply StronglySorted_inv in Hsorted as [_ Hhead].
    cbn in Hi. rewrite Forall_forall in Hhead.
    pose proof (Hhead e (list_elem_of_lookup_2 _ _ _ Hi)) as Hle.
    pose proof (Hbefore 0 e0 ltac:(lia) eq_refl) as Hlt. lia. }
  subst e. destruct (is_Some_node e0 r Hr Hs) as [n Hn].
  exists n, (h ++ news). split; [exact Hn|].
  now rewrite Hrun, Hr, (protagonist_of_node e0 n Hn).
Qed.

Lemma pickProtagonist_sorted_input_witness :
  [edges_700_300_200] !! 0 = Some edges_700_300_200 /\
  exists h',
    pickProtagonist (Some {| edges := Some 0 |}) [edges_700_300_200] =
      Some (Some {| p_name := "first"; p_image := EmptyString |}, h').
Proof.
  split; [reflexivity|].
  destruct (pickProtagonist_sorted_input [edges_700_300_200] 0 edges_700_300_200
              (Samples.edge_fav "first" 700)
              [Samples.edge_fav "second" 300; Samples.edge_fav "third" 200]
              eq_refl eq_refl eq_refl)
    as (n & h' & Hn & Hrun).
  { repeat constructor; cbn; lia. }
  exists h'. injection Hn as <-. exact Hrun.
Defined.

End SortedInput.


(** ** More on the CSV reader *)

Section CsvMore.
Import Csv.

Lemma trimStart_blank (s : string) :
  forallb JsString.is_ws (list_ascii_of_string s) = true ->
  JsString.trimStart s = EmptyString.
Proof.
  induction s as [|a s IH]; [reflexivity|]. cbn [list_ascii_of_string forallb].
  intros H. apply andb_true_iff in H as [Ha Hs]. cbn [JsString.trimStart].
  rewrite Ha. now apply IH.
Qed.

Lemma split_length (sep : ascii) (s : string) :
  length (JsString.split sep s) =
  S (count_occ ascii_dec (list_ascii_of_string s) sep).
Proof.
  induction s as [|a s IH]; [reflexivity|].
  cbn [JsString.split list_ascii_of_string count_occ].
  destruct (Ascii.eqb_spec a sep) as [->|Hne].
  - destruct (ascii_dec sep sep) as [_|N]; [|contradiction]. cbn [length]. now rewrite IH.
  - destruct (ascii_dec a sep) as [E|_]; [contradiction|].
    destruct (JsString.split sep s) as [|p ps] eqn:E; [now apply split_not_nil in E|].
    cbn [length] in *. exact IH.
Qed.

(** X16. A text of white space only (an empty file included) gives a table
    of one header row with one empty cell. *)
Theorem csv_blank_text (text : string) (t : table) :
  forallb JsString.is_ws (list_ascii_of_string text) = true ->
  onload text t = [[{| tag := Th; textContent := EmptyString |}]].
Proof.
  intros H. unfold onload, rows_of, JsString.trim.
  rewrite (trimStart_blank text H). reflexivity.
Qed.

Lemma csv_blank_text_witness :
  forallb JsString.is_ws (list_ascii_of_string "
   ") = true /\
  onload "
   " [] = [[{| tag := Th; textContent := EmptyString |}]].
Proof.
  split; [reflexivity|]. apply csv_blank_text. reflexivity.
Defined.

(** X17. Every cell of the table shows a text without white space at its
    ends: trimming it again changes nothing, its first and its last
    character are not white space. *)
Theorem csv_cells_trimmed (text : string) (t : table) :
  Forall (Forall (fun c =>
            JsString.trim (textContent c) = textContent c /\
            match textContent c with
            | String a _ => JsString.is_ws a = false
            | EmptyString => True
            end /\
            forall u z, textContent c = u +:+ String z EmptyString ->
                        JsString.is_ws z = false))
         (onload text t).
Proof.
  destruct (csv_onload_rows text t) as [Hgrid _].
  rewrite Hgrid. unfold grid_view.
  apply Forall_forall. intros row Hrow. apply list_elem_of_lookup in Hrow as [i Hi].
  rewrite list_lookup_imap in Hi.
  destruct (rows_of text !! i) as [pieces|]; [|discriminate]. injection Hi as <-.
  apply Forall_forall. intros c Hc.
  apply list_elem_of_In, in_map_iff in Hc as (piece & <- & _). cbn [textContent].
  split; [apply trim_idem|]. split; [apply trim_first_char|].
  intros u z Hz. now apply (trim_last_char piece u z).
Qed.

(** X18. No line is merged or dropped: the table has one row more than the
    trimmed text has newlines, and a row has one cell more than its line
    has commas; an empty line gives a row of one empty cell. *)
Theorem csv_shape (text : string) (t : table) :
  length (onload text t) =
    S (count_occ ascii_dec (list_ascii_of_string (JsString.trim text)) newline) /\
  Forall2 (fun line (row : list cell) =>
             length row = S (count_occ ascii_dec (list_ascii_of_string line) comma))
          (JsString.split newline (JsString.trim text)) (onload text t).
Proof.
  destruct (csv_onload_rows text t) as [Hgrid Hlen].
  split.
  - rewrite Hlen. unfold rows_of. now rewrite length_map, split_length.
  - rewrite Hgrid. unfold grid_view, rows_of.
    generalize (JsString.split newline (JsString.trim text)). intros lines.
    apply Forall2_same_length_lookup. split.
    + now rewrite length_imap, length_map.
    + intros i line row Hline Hrow. rewrite list_lookup_imap in Hrow.
      rewrite list_lookup_fmap, Hline in Hrow. cbn in Hrow. injection Hrow as <-.
      now rewrite length_map, split_length.
Qed.

End CsvMore.

(** ** The rows of the category table *)

Section CatalogRowsProofs.
Import Selector CatalogRows.







End CatalogRowsProofs.
